(** * E-commerce ingestion pipeline: [src/ingest_to_sqlite.py]

    A shallow embedding of the ingestion script and of the part of the SQLite
    engine its statements exercise (storage classes, column affinity, the
    INTEGER PRIMARY KEY rowid, INSERT OR REPLACE conflict resolution on the
    primary key and on UNIQUE columns, immediate foreign keys, the aggregate
    functions of the two queries), followed by the properties of the
    specification.

    Layout: values and numerics; the schema of [SQL_CREATE]; the store and the
    statement INSERT OR REPLACE; the Python side ([read_csv_rows], the
    coercion loops, [insert_rows], [ingest]); the UPDATE and the LTV query;
    then the theorems. *)

From Stdlib Require Import ZArith String Ascii List.
From Stdlib Require Import Floats.SpecFloat.
From Stdlib Require Import QArith Qabs Qround Qpower Lqa.
From stdpp Require Import gmap strings list fin_maps sorting pretty.

Close Scope Q_scope.
Open Scope Z_scope.

(** ** Values *)

(** Python [float] and SQLite REAL are IEEE 754 binary64: [spec_float] at
    precision 53 and maximal exponent 1024. *)
Definition f64_of_Z (z : Z) : spec_float := binary_normalize 53 1024 z 0 false.
Definition f64_add : spec_float → spec_float → spec_float := SFadd 53 1024.
Definition f64_div : spec_float → spec_float → spec_float := SFdiv 53 1024.

Definition f64_is_nan (f : spec_float) : bool :=
  match f with S754_nan => true | _ => false end.

(** The rational [m * 2^e]. *)
Definition dyadic (m : positive) (e : Z) : Q := (inject_Z (Z.pos m) * 2 ^ e)%Q.

#[global] Instance spec_float_eq_dec : EqDecision spec_float.
Proof. solve_decision. Defined.

(** The objects a cell of a [csv.DictReader] row can hold in this program:
    [None] (a short line: [restval]), the text read from the file, and after
    the coercion loops an [int] or a [float]. *)
Inductive pyval :=
  | PyNone
  | PyStr (s : string)
  | PyInt (z : Z)
  | PyFloat (f : spec_float).

(** SQLite storage classes (no BLOB is ever bound). *)
Inductive value :=
  | VNull
  | VInt (z : Z)
  | VReal (f : spec_float)
  | VText (s : string).

#[global] Instance pyval_eq_dec : EqDecision pyval.
Proof. solve_decision. Defined.
#[global] Instance value_eq_dec : EqDecision value.
Proof. solve_decision. Defined.

(** Exceptions that can leave a statement of [ingest]. [ValueError] is the one
    the coercion loops catch. *)
Inductive exn :=
  | ValueError
  | OverflowError
  | TypeError
  | IntegrityError (msg : string).

#[global] Instance exn_eq_dec : EqDecision exn.
Proof. solve_decision. Defined.

(** SQLite INTEGER is a signed 64-bit integer. *)
Definition in_int64 (z : Z) : bool :=
  (Z.leb (- 2 ^ 63) z && Z.leb z (2 ^ 63 - 1))%bool.

(** ** Library numerics

    The algorithms of CPython's [float(str)] and of SQLite's text/number
    conversions, SUM accumulation and ROUND live in those libraries, not in the
    repository. The development is parametric in them. *)
Class Numerics := {
  (** [float(s)]: [None] stands for [ValueError]. *)
  py_float : string → option spec_float;
  (** SQLite: the number a text denotes when the whole text is a well-formed
      integer or real literal (an INTEGER when it is an integer literal that
      fits 64 bits, a REAL otherwise). *)
  sql_text_numeric : string → option (Z + spec_float);
  (** SQLite: the REAL a text is read as by an arithmetic function (longest
      numeric prefix, 0.0 when there is none). *)
  sql_text_real : string → spec_float;
  (** SQLite: the text rendering of a REAL (TEXT affinity). *)
  sql_real_text : spec_float → string;
  (** SQLite: the accumulation of SUM over REAL arguments, in scan order. *)
  sql_real_sum : list spec_float → spec_float;
  (** SQLite: ROUND(x, 2) on a REAL. *)
  sql_round2 : spec_float → spec_float
}.

(** *** A reference instance

    Decimal literals over ASCII, converted with correct rounding; SUM as a
    left-to-right binary64 accumulation; ROUND(x,2) as SQLite 3.40 computes
    it: a number beyond 2^52 is returned as it is, any other is printed with
    two decimals and read back. To print, the engine adds half a hundredth to
    the number (and, below 2^39, a 3e-16th of it, so that a binary64 just
    under a tie is rounded up), then cuts the digits after the second
    decimal and after the sixteenth significant digit. The additions are
    rounded as the C types of the engine round them ([double] and, on
    x86-64, the 64-bit [long double]); the loop that cuts the digits is
    taken as exact. The examples are run on this instance. *)
Module Ref.

Definition is_space (a : ascii) : bool :=
  let n := nat_of_ascii a in
  (Nat.eqb n 32 || (Nat.leb 9 n && Nat.leb n 13))%bool.

Fixpoint lstrip (l : list ascii) : list ascii :=
  match l with
  | a :: t => if is_space a then lstrip t else l
  | [] => []
  end.

Definition strip (l : list ascii) : list ascii :=
  rev (lstrip (rev (lstrip l))).

Definition digit_of (a : ascii) : option Z :=
  let n := nat_of_ascii a in
  if (Nat.leb 48 n && Nat.leb n 57)%bool then Some (Z.of_nat n - 48) else None.

Definition lower (a : ascii) : ascii :=
  let n := nat_of_ascii a in
  if (Nat.leb 65 n && Nat.leb n 90)%bool then ascii_of_nat (n + 32) else a.

(** Greedy digit run. With [us] one underscore is allowed between two digits
    (Python's digit separator). Returns the digits read and the rest. *)
Fixpoint take_digits (us after_digit : bool) (l : list ascii)
  : list Z * list ascii :=
  match l with
  | a :: t =>
      match digit_of a with
      | Some d => let '(ds, r) := take_digits us true t in (d :: ds, r)
      | None =>
          if (us && after_digit && Ascii.eqb a "_")%bool then
            match take_digits us false t with
            | ([], _) => ([], l)
            | (ds, r) => (ds, r)
            end
          else ([], l)
      end
  | [] => ([], [])
  end.

Definition Z_of_digits (ds : list Z) : Z := foldl (λ acc d, 10 * acc + d) 0 ds.

Definition take_sign (l : list ascii) : bool * list ascii :=
  match l with
  | a :: t =>
      if Ascii.eqb a "-" then (true, t)
      else if Ascii.eqb a "+" then (false, t) else (false, l)
  | [] => (false, [])
  end.

(** A parsed decimal literal: sign, digits [dl_m], decimal exponent [dl_e]
    (the value is [± dl_m * 10 ^ dl_e]), and whether the literal was written
    as an integer (no point, no exponent). *)
Record literal := { dl_neg : bool; dl_m : Z; dl_e : Z; dl_int : bool }.

(** Longest prefix of [l] that is a decimal literal, with the rest. *)
Definition parse_decimal (us : bool) (l : list ascii)
  : option (literal * list ascii) :=
  let '(neg, l1) := take_sign l in
  let '(ip, l2) := take_digits us false l1 in
  let '(point, fp, l3) :=
    match l2 with
    | a :: t =>
        if Ascii.eqb a "." then let '(fp, r) := take_digits us false t in (true, fp, r)
        else (false, [], l2)
    | [] => (false, [], l2)
    end in
  match ip ++ fp with
  | [] => None
  | ds =>
      let m := Z_of_digits ds in
      let e0 := - Z.of_nat (length fp) in
      let no_exp := Some ({| dl_neg := neg; dl_m := m; dl_e := e0;
                             dl_int := negb point |}, l3) in
      match l3 with
      | a :: t =>
          if Ascii.eqb (lower a) "e" then
            let '(eneg, t1) := take_sign t in
            match take_digits us false t1 with
            | ([], _) => no_exp
            | (eds, r) =>
                let ex := Z_of_digits eds in
                Some ({| dl_neg := neg; dl_m := m;
                         dl_e := e0 + (if eneg then - ex else ex);
                         dl_int := false |}, r)
            end
          else no_exp
      | [] => no_exp
      end
  end.

(** Correctly rounded binary64 of [± m * 10 ^ e]. *)
Definition dec_to_f64 (neg : bool) (m e : Z) : spec_float :=
  if Z.eqb m 0 then S754_zero neg
  else if Z.leb 0 e then
    binary_normalize 53 1024 ((if neg then - m else m) * 10 ^ e) 0 neg
  else
    let '(q, e', loc) := SFdiv_core_binary 53 1024 m 0 (10 ^ (- e)) 0 in
    binary_round_aux 53 1024 neg q e' loc.

Definition literal_f64 (d : literal) : spec_float :=
  dec_to_f64 (dl_neg d) (dl_m d) (dl_e d).

Definition word_is (w : string) (l : list ascii) : bool :=
  bool_decide (map lower l = list_ascii_of_string w).

Definition py_float (s : string) : option spec_float :=
  let l := strip (list_ascii_of_string s) in
  let '(neg, body) := take_sign l in
  if (word_is "inf" body || word_is "infinity" body)%bool then Some (S754_infinity neg)
  else if word_is "nan" body then Some S754_nan
  else
    match parse_decimal true l with
    | Some (d, []) => Some (literal_f64 d)
    | _ => None
    end.

Definition sql_text_numeric (s : string) : option (Z + spec_float) :=
  match parse_decimal false (strip (list_ascii_of_string s)) with
  | Some (d, []) =>
      let z := if dl_neg d then - dl_m d else dl_m d in
      if (dl_int d && in_int64 z)%bool then Some (inl z)
      else Some (inr (literal_f64 d))
  | _ => None
  end.

Definition sql_text_real (s : string) : spec_float :=
  match parse_decimal false (lstrip (list_ascii_of_string s)) with
  | Some (d, _) => literal_f64 d
  | None => S754_zero false
  end.

Definition sql_real_sum (l : list spec_float) : spec_float :=
  foldl f64_add (S754_zero false) l.

(** The exponent of the leading bit of [q]: 2^e <= q < 2^(e+1), for 0 < q. *)
Definition ilog2 (q : Q) : Z :=
  let e := Z.log2 (Qnum q) - Z.log2 (Z.pos (Qden q)) in
  if Qle_bool (2 ^ e) q then e else e - 1.

(** [q] in a format of [p] significant bits: the nearest number
    [m * 2^(e - p + 1)], of two equally near ones the one with [m] even. *)
Definition round_bits (p : Z) (q : Q) : Q :=
  let sh := p - 1 - ilog2 q in
  let t := (q * 2 ^ sh)%Q in
  let fl := Qfloor t in
  let m := match (t - inject_Z fl ?= 1 # 2)%Q with
           | Lt => fl
           | Gt => fl + 1
           | Eq => if Z.even fl then fl else fl + 1
           end in
  (inject_Z m * 2 ^ (- sh))%Q.

(** The binary64 constants [5.0e-03] and [3e-16] of SQLite's printf. *)
Definition R0 : Q := 5764607523034235 # 1152921504606846976.
Definition C3 : Q := 6084722881095501 # 20282409603651670423947251286016.

(** What printf adds to [a] before it cuts the digits: half a hundredth, and
    below 2^39 a part of [a] that lets a number just under a tie round up.
    The product and the sum are computed in a [long double], what is added
    is kept in a [double]. *)
Definition rounder (a : Q) : Q :=
  if Qle_bool (2 ^ 39) a then R0
  else round_bits 53 (round_bits 64 (R0 + round_bits 64 (a * C3))).

(** The hundredths printf prints for [v]: the digits are cut after the second
    decimal, and after the sixteenth significant digit. *)
Definition cents (v : Q) : Z :=
  let i := Qfloor (100 * v) in
  let u := if 10 ^ 17 <=? i then 100 else if 10 ^ 16 <=? i then 10 else 1 in
  i / u * u.

(** ROUND(x, 2): [x] itself beyond 2^52, else the number read back from
    [printf("%.2f", x)]. *)
Definition sql_round2 (x : spec_float) : spec_float :=
  match x with
  | S754_finite s m e =>
      let a := dyadic m e in
      if Qle_bool a (2 ^ 52)
      then dec_to_f64 s (cents (round_bits 64 (a + rounder a))) (-2)
      else x
  | S754_zero _ => S754_zero false
  | _ => x
  end.

(** Shortest exact decimal expansion of a finite binary64. *)
Fixpoint odd_part (m : positive) : positive * Z :=
  match m with
  | xO m' => let '(q, n) := odd_part m' in (q, n + 1)
  | _ => (m, 0)
  end.

Definition sql_real_text (x : spec_float) : string :=
  match x with
  | S754_zero s => if s then "-0.0" else "0.0"
  | S754_infinity s => if s then "-Inf" else "Inf"
  | S754_nan => "NaN"
  | S754_finite s m e =>
      let sign : string := if s then "-" else EmptyString in
      let '(q, n) := odd_part m in
      let e := e + n in
      if Z.leb 0 e then sign +:+ pretty (Z.pos q * 2 ^ e) +:+ ".0"
      else
        let k := Z.to_nat (- e) in
        let n := Z.pos q * 5 ^ (- e) in
        let frac := pretty (n mod 10 ^ (- e)) in
        sign +:+ pretty (n / 10 ^ (- e)) +:+ "."
             +:+ String.concat EmptyString (replicate (k - String.length frac) "0") +:+ frac
  end.

End Ref.

#[global] Instance ref_numerics : Numerics := {|
  py_float := Ref.py_float;
  sql_text_numeric := Ref.sql_text_numeric;
  sql_text_real := Ref.sql_text_real;
  sql_real_text := Ref.sql_real_text;
  sql_real_sum := Ref.sql_real_sum;
  sql_round2 := Ref.sql_round2
|}.

(** ** Sum and rounding, in the words of the specification *)

(** The sum of [xs]: binary64 additions from 0.0, in the order of [xs]. *)
Definition float_sum (xs : list spec_float) : spec_float :=
  foldl f64_add (S754_zero false) xs.

(** The binary64 nearest to [c] hundredths, with the sign [neg]. *)
Definition cents_f64 (neg : bool) (c : Z) : spec_float :=
  Ref.dec_to_f64 neg c (-2).

(** The room left to the arithmetic of the engine: 2^-48 of the number, in
    hundredths (and of one hundredth). *)
Definition slack : Q := 1 # 281474976710656.

(** [r] is [x] rounded to 2 decimals: beyond 2^52, where a binary64 has no
    decimals, and on an infinity, [r] is [x]; else [r] is the binary64 of a
    whole number [c] of hundredths, with the sign of [x], and [c] is at most
    half a hundredth (and [slack]) away from [x]. *)
Definition rounded2 (x r : spec_float) : Prop :=
  match x with
  | S754_finite s m e =>
      let a := dyadic m e in
      if Qle_bool a (2 ^ 52) then
        ∃ c : Z, 0 ≤ c
          ∧ (Qabs (100 * a - inject_Z c) <= (1 # 2) + slack * (1 + 100 * a))%Q
          ∧ (c = 0 → ∃ s', r = S754_zero s')
          ∧ (c ≠ 0 → r = cents_f64 s c)
      else r = x
  | S754_zero _ => ∃ s', r = S754_zero s'
  | _ => r = x
  end.

(** What the theorems on totals ask of the engine: SUM adds in scan order,
    ROUND(x, 2) rounds to 2 decimals. *)
Definition sum_in_scan_order `{Numerics} : Prop :=
  ∀ xs, sql_real_sum xs = float_sum xs.

Definition round_to_cents `{Numerics} : Prop :=
  ∀ x, rounded2 x (sql_round2 x).

(** ** Results and exceptions *)

Inductive result (A : Type) :=
  | Ok (a : A)
  | Raise (e : exn).
Arguments Ok {A} a.
Arguments Raise {A} e.

#[global] Instance result_ret : MRet result := λ A a, Ok a.
#[global] Instance result_bind : MBind result := λ A B k m,
  match m with
  | Ok a => k a
  | Raise e => Raise e
  end.

(** [for x in l: acc = step(acc, x)], leaving at the first exception. *)
Fixpoint for_each {A S : Type} (step : S → A → result S) (l : list A) (s : S)
  : result S :=
  match l with
  | [] => Ok s
  | x :: l' => s' ← step s x; for_each step l' s'
  end.

(** ** Comparison of SQLite values *)

(** A number as the engine compares it: exactly, across INTEGER and REAL. *)
Inductive xnum :=
  | NegInf
  | Dyadic (m e : Z)      (* m * 2 ^ e *)
  | PosInf.

Definition xnum_compare (x y : xnum) : comparison :=
  match x, y with
  | NegInf, NegInf => Eq
  | NegInf, _ => Lt
  | _, NegInf => Gt
  | PosInf, PosInf => Eq
  | PosInf, _ => Gt
  | _, PosInf => Lt
  | Dyadic m1 e1, Dyadic m2 e2 =>
      let e := Z.min e1 e2 in
      Z.compare (m1 * 2 ^ (e1 - e)) (m2 * 2 ^ (e2 - e))
  end.

Inductive sclass :=
  | CNull
  | CNum (x : xnum)
  | CText (s : string).

(** A NaN is never stored: the engine turns it into NULL. *)
Definition classify (v : value) : sclass :=
  match v with
  | VNull => CNull
  | VInt z => CNum (Dyadic z 0)
  | VReal (S754_zero _) => CNum (Dyadic 0 0)
  | VReal (S754_infinity s) => CNum (if s then NegInf else PosInf)
  | VReal S754_nan => CNull
  | VReal (S754_finite s m e) => CNum (Dyadic (if s then Z.neg m else Z.pos m) e)
  | VText s => CText s
  end.

Definition is_null (v : value) : bool :=
  match classify v with CNull => true | _ => false end.

(** The comparison operators: NULL compares to nothing; numbers sort before
    text; text compares bytewise (BINARY collation). *)
Definition sql_compare (a b : value) : option comparison :=
  match classify a, classify b with
  | CNull, _ | _, CNull => None
  | CNum x, CNum y => Some (xnum_compare x y)
  | CNum _, CText _ => Some Lt
  | CText _, CNum _ => Some Gt
  | CText s, CText t => Some (String.compare s t)
  end.

(** [a = b] holds (is neither false nor NULL). *)
Definition sql_eq (a b : value) : bool :=
  bool_decide (sql_compare a b = Some Eq).

(** The order of ORDER BY, MAX and of grouping: as [sql_compare], with NULL
    first and equal to itself. *)
Definition sort_compare (a b : value) : comparison :=
  match classify a, classify b with
  | CNull, CNull => Eq
  | CNull, _ => Lt
  | _, CNull => Gt
  | _, _ => default Eq (sql_compare a b)
  end.

(** ** Schema: [SQL_CREATE] *)

Inductive table := customers | products | orders | order_items | reviews.

#[global] Instance table_eq_dec : EqDecision table.
Proof. solve_decision. Defined.

Inductive affinity := INTEGER | REAL | TEXT.

Inductive constraint := PRIMARY_KEY | UNIQUE | NoConstraint.

#[global] Instance constraint_eq_dec : EqDecision constraint.
Proof. solve_decision. Defined.

Record column := Col {
  col_name : string;
  col_type : affinity;
  col_constraint : constraint
}.

Definition SQL_CREATE (t : table) : list column :=
  match t with
  | customers =>
      [ Col "customer_id" INTEGER PRIMARY_KEY;
        Col "name" TEXT NoConstraint;
        Col "email" TEXT UNIQUE;
        Col "address" TEXT NoConstraint;
        Col "join_date" TEXT NoConstraint ]
  | products =>
      [ Col "product_id" INTEGER PRIMARY_KEY;
        Col "name" TEXT NoConstraint;
        Col "category" TEXT NoConstraint;
        Col "price" REAL NoConstraint;
        Col "sku" TEXT NoConstraint ]
  | orders =>
      [ Col "order_id" INTEGER PRIMARY_KEY;
        Col "customer_id" INTEGER NoConstraint;
        Col "order_date" TEXT NoConstraint;
        Col "total" REAL NoConstraint;
        Col "status" TEXT NoConstraint ]
  | order_items =>
      [ Col "order_item_id" INTEGER PRIMARY_KEY;
        Col "order_id" INTEGER NoConstraint;
        Col "product_id" INTEGER NoConstraint;
        Col "quantity" INTEGER NoConstraint;
        Col "unit_price" REAL NoConstraint;
        Col "line_total" REAL NoConstraint ]
  | reviews =>
      [ Col "review_id" INTEGER PRIMARY_KEY;
        Col "product_id" INTEGER NoConstraint;
        Col "customer_id" INTEGER NoConstraint;
        Col "rating" INTEGER NoConstraint;
        Col "review_text" TEXT NoConstraint;
        Col "review_date" TEXT NoConstraint ]
  end.

(** The FOREIGN KEY clauses: child column and parent table (each references
    the parent's INTEGER PRIMARY KEY). *)
Definition FOREIGN_KEY (t : table) : list (string * table) :=
  match t with
  | customers | products => []
  | orders => [("customer_id", customers)]
  | order_items => [("order_id", orders); ("product_id", products)]
  | reviews => [("product_id", products); ("customer_id", customers)]
  end.

Definition all_tables : list table :=
  [customers; products; orders; order_items; reviews].

(** The (child table, child column) pairs that reference [t]. *)
Definition referencing (t : table) : list (table * string) :=
  ct ← all_tables;
  fk ← FOREIGN_KEY ct;
  if decide (fk.2 = t) then [(ct, fk.1)] else [].

(** ** The store *)

(** A row lists the columns of its table with their values, in the order of
    the CREATE TABLE (a name that is absent reads as NULL). The INTEGER
    PRIMARY KEY is the rowid: the key of the table's map. *)
Abbreviation row := (list (string * value)).

Record store := Store {
  t_customers : gmap Z row;
  t_products : gmap Z row;
  t_orders : gmap Z row;
  t_order_items : gmap Z row;
  t_reviews : gmap Z row
}.

Definition empty_store : store := Store ∅ ∅ ∅ ∅ ∅.

Definition tbl (db : store) (t : table) : gmap Z row :=
  match t with
  | customers => t_customers db
  | products => t_products db
  | orders => t_orders db
  | order_items => t_order_items db
  | reviews => t_reviews db
  end.

Definition set_tbl (db : store) (t : table) (m : gmap Z row) : store :=
  match t with
  | customers => Store m (t_products db) (t_orders db) (t_order_items db) (t_reviews db)
  | products => Store (t_customers db) m (t_orders db) (t_order_items db) (t_reviews db)
  | orders => Store (t_customers db) (t_products db) m (t_order_items db) (t_reviews db)
  | order_items => Store (t_customers db) (t_products db) (t_orders db) m (t_reviews db)
  | reviews => Store (t_customers db) (t_products db) (t_orders db) (t_order_items db) m
  end.

Fixpoint index_of (c : string) (l : list string) : option nat :=
  match l with
  | [] => None
  | c' :: l' => if decide (c = c') then Some 0%nat else S <$> index_of c l'
  end.

(** The name of the INTEGER PRIMARY KEY column of a table. *)
Definition pk_col (t : table) : string :=
  default EmptyString (col_name <$> head (filter (λ c, col_constraint c = PRIMARY_KEY) (SQL_CREATE t))).

(** The names of the columns declared UNIQUE. *)
Definition unique_cols (t : table) : list string :=
  col_name <$> filter (λ c, col_constraint c = UNIQUE) (SQL_CREATE t).

Fixpoint assoc (c : string) (r : row) : option value :=
  match r with
  | [] => None
  | (c', v) :: r' => if decide (c = c') then Some v else assoc c r'
  end.

Definition field (c : string) (r : row) : value := default VNull (assoc c r).

Fixpoint set_field (c : string) (v : value) (r : row) : row :=
  match r with
  | [] => [(c, v)]
  | (c', x) :: r' =>
      if decide (c = c') then (c, v) :: r' else (c', x) :: set_field c v r'
  end.

(** The value of column [c] in the row [r] stored under rowid [k]. *)
Definition cell (t : table) (c : string) (k : Z) (r : row) : value :=
  if decide (c = pk_col t) then VInt k else field c r.

(** The rows of a table in rowid order (a table scan). *)
Definition rowid_le (a b : Z * row) : Prop := a.1 ≤ b.1.

#[global] Instance rowid_le_dec : RelDecision rowid_le.
Proof. intros a b. unfold rowid_le. apply _. Defined.

Definition scan (m : gmap Z row) : list (Z * row) :=
  merge_sort rowid_le (map_to_list m).

(** ** The engine: binding, affinity, INSERT OR REPLACE *)

Section Engine.
Context `{Numerics}.

Definition mk_real (f : spec_float) : value :=
  if f64_is_nan f then VNull else VReal f.

(** Binding a Python object as a statement parameter (module [sqlite3]). *)
Definition bind_param (v : pyval) : result value :=
  match v with
  | PyNone => Ok VNull
  | PyStr s => Ok (VText s)
  | PyInt z => if in_int64 z then Ok (VInt z) else Raise OverflowError
  | PyFloat f => Ok (mk_real f)
  end.

Fixpoint bind_params (l : list pyval) : result (list value) :=
  match l with
  | [] => Ok []
  | v :: l' => x ← bind_param v; xs ← bind_params l'; Ok (x :: xs)
  end.

(** The integer a REAL denotes exactly, if it does. *)
Definition integral (f : spec_float) : option Z :=
  match f with
  | S754_zero _ => Some 0
  | S754_finite s m e =>
      let sign (z : Z) := if s then - z else z in
      if Z.leb 0 e then Some (sign (Z.pos m * 2 ^ e))
      else if Z.eqb (Z.pos m mod 2 ^ (- e)) 0 then Some (sign (Z.pos m / 2 ^ (- e)))
      else None
  | _ => None
  end.

(** INTEGER affinity on a REAL: an INTEGER when the conversion is lossless. *)
Definition real_to_integer (f : spec_float) : value :=
  match integral f with
  | Some z => if (Z.ltb (- 2 ^ 63) z && Z.ltb z (2 ^ 63 - 1))%bool then VInt z else VReal f
  | None => VReal f
  end.

Definition apply_affinity (a : affinity) (v : value) : value :=
  match a, v with
  | INTEGER, VReal f => real_to_integer f
  | INTEGER, VText s =>
      match sql_text_numeric s with
      | Some (inl z) => VInt z
      | Some (inr f) => real_to_integer f
      | None => v
      end
  | REAL, VInt z => VReal (f64_of_Z z)
  | REAL, VText s =>
      match sql_text_numeric s with
      | Some (inl z) => VReal (f64_of_Z z)
      | Some (inr f) => VReal f
      | None => v
      end
  | TEXT, VInt z => VText (pretty z)
  | TEXT, VReal f => VText (sql_real_text f)
  | _, _ => v
  end.

(** INSERT INTO t (columns) VALUES (vals): the row of table [t], a column
    that is not listed being NULL, each value under its column's affinity. *)
Definition insert_values (t : table) (columns : list string) (vals : list value)
  : row :=
  (λ c, (col_name c,
         apply_affinity (col_type c)
           (default VNull (i ← index_of (col_name c) columns; vals !! i))))
    <$> SQL_CREATE t.

(** The rowid given to a row inserted with a NULL primary key: one more than
    the largest in use, 1 in an empty table. (At the largest 64-bit rowid the
    engine searches for a free one instead; tables of that size are not
    modelled.) *)
Definition new_rowid (m : gmap Z row) : Z :=
  match (map_to_list m).*1 with
  | [] => 1
  | k :: ks => foldr Z.max k ks + 1
  end.

Definition unique_clash (t : table) (r r' : row) : bool :=
  existsb (λ c, sql_eq (field c r) (field c r')) (unique_cols t).

(** REPLACE conflict resolution: the rows that conflict with the new one, on
    the rowid or on a UNIQUE column, are deleted, then the row is inserted. *)
Definition replace_into (t : table) (k : Z) (r : row) (m : gmap Z row)
  : gmap Z row :=
  <[k := r]> (filter (λ kr, unique_clash t r kr.2 = false) m).

(** A child key is satisfied when it is NULL or the rowid of a parent row. *)
Definition fk_holds (db : store) (parent : table) (v : value) : bool :=
  match v with
  | VNull => true
  | VInt p => bool_decide (is_Some (tbl db parent !! p))
  | _ => false
  end.

Definition child_ok (db : store) (t : table) (k : Z) (r : row) : bool :=
  forallb (λ fk, fk_holds db fk.2 (cell t fk.1 k r)) (FOREIGN_KEY t).

(** Some row of a child table references rowid [k] of [t]. *)
Definition referenced (db : store) (t : table) (k : Z) : bool :=
  existsb (λ cc, existsb (λ kr, bool_decide (cell cc.1 cc.2 kr.1 kr.2 = VInt k))
                   (map_to_list (tbl db cc.1)))
    (referencing t).

(** No parent row deleted by the statement leaves a child behind. (The engine
    counts violations while the statement runs and checks the count when it
    ends; on a store that satisfied its foreign keys before the statement this
    is the check made here.) *)
Definition parents_ok (db db' : store) (t : table) : bool :=
  forallb (λ k, bool_decide (is_Some (tbl db' t !! k)) || negb (referenced db' t k))
    (map_to_list (tbl db t)).*1.

(** The row an INSERT writes, before its rowid is known: the parameters
    bound, then placed under the column affinities. *)
Definition insert_row (t : table) (columns : list string) (params : list pyval)
  : result row :=
  vals ← bind_params params;
  Ok (insert_values t columns vals).

(** The rowid of the row: the INTEGER PRIMARY KEY when it is an integer, a new
    one when it is NULL, nothing else. *)
Definition rowid_of (t : table) (m : gmap Z row) (r : row) : result Z :=
  match field (pk_col t) r with
  | VNull => Ok (new_rowid m)
  | VInt k => Ok k
  | _ => Raise (IntegrityError "datatype mismatch")
  end.

(** Writing the row with REPLACE conflict resolution and foreign keys
    enforced (PRAGMA foreign_keys = ON; the constraints are immediate, checked
    when the statement ends). *)
Definition write_row (db : store) (t : table) (r0 : row) : result store :=
  k ← rowid_of t (tbl db t) r0;
  let r := set_field (pk_col t) (VInt k) r0 in
  let db' := set_tbl db t (replace_into t k r (tbl db t)) in
  if (child_ok db' t k r && parents_ok db db' t)%bool then Ok db'
  else Raise (IntegrityError "FOREIGN KEY constraint failed").

(** One [INSERT OR REPLACE INTO t (columns) VALUES (?, ...)]. *)
Definition exec_insert (db : store) (t : table) (columns : list string)
    (params : list pyval) : result store :=
  r0 ← insert_row t columns params;
  write_row db t r0.

End Engine.

(** ** The SQL statements of [ingest] *)

Section Statements.
Context `{Numerics}.

(** The REAL an aggregate or arithmetic function reads a value as; NULL is
    skipped. (The columns summed here have REAL affinity, under which no
    INTEGER is stored.) *)
Definition as_real (v : value) : option spec_float :=
  match v with
  | VNull => None
  | VInt z => Some (f64_of_Z z)
  | VReal f => if f64_is_nan f then None else Some f
  | VText s => Some (sql_text_real s)
  end.

(** SUM: NULL over no non-NULL value. *)
Definition sql_sum (vs : list value) : value :=
  match omap as_real vs with
  | [] => VNull
  | xs => mk_real (sql_real_sum xs)
  end.

(** ROUND(v, 2). *)
Definition sql_round (v : value) : value :=
  match as_real v with
  | None => VNull
  | Some f => mk_real (sql_round2 f)
  end.

(** SELECT DISTINCT on one column. *)
Fixpoint sql_distinct (vs : list value) : list value :=
  match vs with
  | [] => []
  | v :: vs' =>
      v :: filter (λ w, sort_compare v w ≠ Eq) (sql_distinct vs')
  end.

(** [v IN (...)] holds. *)
Definition sql_in (v : value) (vs : list value) : bool := existsb (sql_eq v) vs.

(** The line totals of the items of order [oid]:
    [SELECT line_total FROM order_items WHERE order_items.order_id = oid]. *)
Definition line_totals (db : store) (oid : Z) : list value :=
  (λ kr, cell order_items "line_total" kr.1 kr.2)
    <$> filter (λ kr, sql_eq (cell order_items "order_id" kr.1 kr.2) (VInt oid) = true)
          (scan (tbl db order_items)).

(** [SELECT DISTINCT order_id FROM order_items]. *)
Definition item_order_ids (db : store) : list value :=
  sql_distinct ((λ kr, cell order_items "order_id" kr.1 kr.2)
                  <$> scan (tbl db order_items)).

(** The UPDATE of [ingest]:
    UPDATE orders SET total = (SELECT ROUND(SUM(line_total), 2) FROM order_items
                               WHERE order_items.order_id = orders.order_id)
    WHERE order_id IN (SELECT DISTINCT order_id FROM order_items). *)
Definition update_totals (db : store) : store :=
  let ids := item_order_ids db in
  set_tbl db orders
    (map_imap (λ k r,
       Some (if sql_in (VInt k) ids
             then set_field "total"
                    (apply_affinity REAL (sql_round (sql_sum (line_totals db k)))) r
             else r))
       (tbl db orders)).

(** Order [k] has at least one row in order_items. *)
Definition has_items (db : store) (k : Z) : Prop :=
  ∃ ik ir, tbl db order_items !! ik = Some ir
           ∧ sql_eq (cell order_items "order_id" ik ir) (VInt k) = true.

(** *** The LTV query *)

(** [c LEFT JOIN orders o ON o.customer_id = c.customer_id
                           AND o.status = 'completed']:
    the customer row with each matching order, or once with a NULL order. *)
Definition join_on (ck : Z) (o : Z * row) : bool :=
  (sql_eq (cell orders "customer_id" o.1 o.2) (VInt ck)
   && sql_eq (cell orders "status" o.1 o.2) (VText "completed"))%bool.

Definition joined_block (c : Z * row) (os : list (Z * row))
  : list ((Z * row) * option (Z * row)) :=
  match filter (λ o, join_on c.1 o = true) os with
  | [] => [(c, None)]
  | ms => (λ o, (c, Some o)) <$> ms
  end.

Definition left_join (cs os : list (Z * row))
  : list ((Z * row) * option (Z * row)) :=
  c ← cs; joined_block c os.

(** The grouping columns: [c.customer_id, c.name]. *)
Definition customer_key (co : (Z * row) * option (Z * row)) : list value :=
  [VInt co.1.1; cell customers "name" co.1.1 co.1.2].

(** A column of the right side of the join: NULL on the NULL row. *)
Definition o_cell (c : string) (o : option (Z * row)) : value :=
  match o with
  | Some kr => cell orders c kr.1 kr.2
  | None => VNull
  end.

(** GROUP BY: the groups in order of first occurrence of their key. *)
Definition same_key (k1 k2 : list value) : bool :=
  bool_decide (Forall2 (λ a b, sort_compare a b = Eq) k1 k2).

Fixpoint group_keys {A} (key : A → list value) (l : list A) : list (list value) :=
  match l with
  | [] => []
  | x :: l' =>
      key x :: filter (λ k, same_key (key x) k = false) (group_keys key l')
  end.

Definition group_by {A} (key : A → list value) (l : list A)
  : list (list value * list A) :=
  (λ k, (k, filter (λ x, same_key k (key x) = true) l)) <$> group_keys key l.

Definition sql_count_distinct (vs : list value) : Z :=
  Z.of_nat (length (sql_distinct (filter (λ v, is_null v = false) vs))).

Definition sql_max (vs : list value) : value :=
  foldr (λ v acc,
           match classify v, classify acc with
           | CNull, _ => acc
           | _, CNull => v
           | _, _ => if decide (sort_compare v acc = Gt) then v else acc
           end) VNull vs.

Definition coalesce (v d : value) : value :=
  if is_null v then d else v.

(** [x / y]: NULL on a NULL operand or a zero divisor, integer division on two
    INTEGERs, REAL division otherwise. *)
Definition sql_div (x y : value) : value :=
  match x, y with
  | VInt a, VInt b => if Z.eqb b 0 then VNull else VInt (Z.quot a b)
  | _, _ =>
      match as_real x, as_real y with
      | Some a, Some b =>
          match b with
          | S754_zero _ => VNull
          | _ => mk_real (f64_div a b)
          end
      | _, _ => VNull
      end
  end.

(** The select list over one group. *)
Definition ltv_row (g : list value * list ((Z * row) * option (Z * row)))
  : list value :=
  let os := snd <$> g.2 in
  let total := sql_sum (o_cell "total" <$> os) in
  let n := sql_count_distinct (o_cell "order_id" <$> os) in
  g.1 ++
  [ coalesce total (VInt 0);
    coalesce (VInt n) (VInt 0);
    (if Z.eqb n 0 then VInt 0 else sql_round (sql_div total (VInt n)));
    sql_max (o_cell "order_date" <$> os) ].

(** ORDER BY lifetime_spend DESC (the third column of the select list). *)
Definition spend_ge (r1 r2 : list value) : Prop :=
  sort_compare (default VNull (r1 !! 2%nat)) (default VNull (r2 !! 2%nat)) ≠ Lt.

#[global] Instance spend_ge_dec : RelDecision spend_ge.
Proof. intros a b. unfold spend_ge. apply _. Defined.

(** The rows [cur.fetchall()] returns for the LTV SELECT. *)
Definition ltv_query (db : store) : list (list value) :=
  let joined := left_join (scan (tbl db customers)) (scan (tbl db orders)) in
  let groups := group_by customer_key joined in
  merge_sort spend_ge (ltv_row <$> groups).

(** The report, customer by customer: the completed orders of a customer, and
    the figures computed over them. *)
Definition completed_orders (db : store) (ck : Z) : list (Z * row) :=
  filter (λ o, join_on ck o = true) (scan (tbl db orders)).

Definition customer_ltv (db : store) (c : Z * row) : list value :=
  let os := completed_orders db c.1 in
  let total := sql_sum ((λ o, cell orders "total" o.1 o.2) <$> os) in
  let n := Z.of_nat (length os) in
  [ VInt c.1;
    cell customers "name" c.1 c.2;
    coalesce total (VInt 0);
    VInt n;
    (if Z.eqb n 0 then VInt 0 else sql_round (sql_div total (VInt n)));
    sql_max ((λ o, cell orders "order_date" o.1 o.2) <$> os) ].

Definition ltv_headers : list string :=
  ["customer_id"; "name"; "lifetime_spend"; "orders_count"; "avg_order_value";
   "last_order_date"].

End Statements.

(** SUM over the numbers [xs]: NULL over none, and where the additions end
    in a NaN. *)
Definition sum_value (xs : list spec_float) : value :=
  match xs with
  | [] => VNull
  | _ => mk_real (float_sum xs)
  end.

(** ** The script *)

(** A row of [csv.DictReader]: header name to field, [None] for a field the
    line is too short to hold. *)
Abbreviation csv_row := (gmap string (option string)).

(** The mutable dict the script works on. *)
Abbreviation pyrow := (gmap string pyval).

(** The data directory: the parsed content of each table's CSV file, [None]
    when the file does not exist. *)
Definition data_dir := table → option (list csv_row).

Definition read_csv_rows (f : list csv_row) : list pyrow :=
  (λ r : csv_row, (λ o, match o with Some s => PyStr s | None => PyNone end) <$> r)
    <$> f.

(** What [ingest] does, in order: the effects on the store and on the report
    file. *)
Inductive event :=
  | EvSkip (t : table)                (* file missing or without rows *)
  | EvInsert (t : table) (n : nat)    (* rows of a table written and committed *)
  | EvUpdateTotals                    (* the UPDATE of orders.total *)
  | EvWriteLtv.                       (* customer_ltv.csv written *)

#[global] Instance event_eq_dec : EqDecision event.
Proof. solve_decision. Defined.

(** The state [ingest] acts on: the open database, the LTV report file (header
    and rows handed to [csv.writer]) once written, and the log of effects. *)
Record world := World {
  w_db : store;
  w_ltv : option (list string * list (list value));
  w_trace : list event
}.

(** A command runs on a world and returns or raises; the world it leaves is
    kept in both cases. *)
Definition M (A : Type) : Type := world → result A * world.

#[global] Instance M_ret : MRet M := λ A a w, (Ok a, w).
#[global] Instance M_bind : MBind M := λ A B k m w,
  match m w with
  | (Ok a, w') => k a w'
  | (Raise e, w') => (Raise e, w')
  end.

Definition emit (e : event) : M unit :=
  λ w, (Ok tt, World (w_db w) (w_ltv w) (w_trace w ++ [e])).

(** [with conn: ...]: the statements commit together, or the transaction is
    rolled back and the exception goes on. *)
Definition with_conn (f : store → result store) : M unit :=
  λ w, match f (w_db w) with
       | Ok db' => (Ok tt, World db' (w_ltv w) (w_trace w))
       | Raise e => (Raise e, w)
       end.

(** A Python exception raised outside a transaction. *)
Definition lift {A} (r : result A) : M A := λ w, (r, w).

Fixpoint for_ {A} (l : list A) (body : A → M unit) : M unit :=
  match l with
  | [] => mret tt
  | x :: l' => body x;; for_ l' body
  end.

Section Script.
Context `{Numerics}.

Definition truthy (v : pyval) : bool :=
  match v with
  | PyNone => false
  | PyStr s => negb (bool_decide (s = EmptyString))
  | PyInt z => negb (Z.eqb z 0)
  | PyFloat (S754_zero _) => false
  | PyFloat _ => true
  end.

(** [float(v)]. *)
Definition float_ (v : pyval) : result spec_float :=
  match v with
  | PyNone => Raise TypeError
  | PyStr s =>
      match py_float s with
      | Some f => Ok f
      | None => Raise ValueError
      end
  | PyInt z =>
      match f64_of_Z z with
      | S754_infinity _ => Raise OverflowError
      | f => Ok f
      end
  | PyFloat f => Ok f
  end.

(** [int(f)] on a float: truncation toward zero. *)
Definition int_ (f : spec_float) : result Z :=
  match f with
  | S754_nan => Raise ValueError
  | S754_infinity _ => Raise OverflowError
  | S754_zero _ => Ok 0
  | S754_finite s m e =>
      let a := if Z.leb 0 e then Z.pos m * 2 ^ e else Z.pos m / 2 ^ (- e) in
      Ok (if s then - a else a)
  end.

(** [try: ... except ValueError: pass] around an assignment to [r[col]]. *)
Definition try_assign (r : pyrow) (col : string) (v : result pyval)
  : result pyrow :=
  match v with
  | Ok x => Ok (<[col := x]> r)
  | Raise ValueError => Ok r
  | Raise e => Raise e
  end.

(** Body of the first inner loop:
    [if col in r and r[col]: try: r[col] = int(float(r[col])) ...]. *)
Definition coerce_int (r : pyrow) (col : string) : result pyrow :=
  match r !! col with
  | Some v =>
      if truthy v then try_assign r col (f ← float_ v; z ← int_ f; Ok (PyInt z))
      else Ok r
  | None => Ok r
  end.

(** Body of the second inner loop: [r[col] = float(r[col])]. *)
Definition coerce_float (r : pyrow) (col : string) : result pyrow :=
  match r !! col with
  | Some v =>
      if truthy v then try_assign r col (f ← float_ v; Ok (PyFloat f))
      else Ok r
  | None => Ok r
  end.

Definition int_cols : list string :=
  ["customer_id"; "product_id"; "order_id"; "order_item_id"; "rating"; "quantity"].

Definition float_cols : list string :=
  ["price"; "unit_price"; "line_total"; "total"].

Definition coerce_row (r : pyrow) : result pyrow :=
  r ← for_each coerce_int int_cols r;
  for_each coerce_float float_cols r.

(** [for r in rows: ...]: the rows after the type conversions. *)
Fixpoint coerce_rows (rows : list pyrow) : result (list pyrow) :=
  match rows with
  | [] => Ok []
  | r :: rows' => r' ← coerce_row r; rs ← coerce_rows rows'; Ok (r' :: rs)
  end.

(** [insert_rows]: [executemany] of INSERT OR REPLACE over
    [[row.get(c, None) for c in columns] for row in rows]. *)
Definition params_of (columns : list string) (r : pyrow) : list pyval :=
  (λ c, default PyNone (r !! c)) <$> columns.

Definition insert_rows (db : store) (t : table) (rows : list pyrow)
    (columns : list string) : result store :=
  for_each (λ db r, exec_insert db t columns (params_of columns r)) rows db.

(** [create_schema]: every statement is CREATE ... IF NOT EXISTS; the tables
    and their rows are left as they are. *)
Definition create_schema (db : store) : store := db.

(** [sqlite3.connect]: opens the file, creating an empty database when there
    is none. *)
Definition connect (db_file : option store) : store :=
  default empty_store db_file.

Definition paths : list table :=
  [customers; products; orders; order_items; reviews].

Definition col_map (t : table) : list string :=
  match t with
  | customers => ["customer_id"; "name"; "email"; "address"; "join_date"]
  | products => ["product_id"; "name"; "category"; "price"; "sku"]
  | orders => ["order_id"; "customer_id"; "order_date"; "total"; "status"]
  | order_items =>
      ["order_item_id"; "order_id"; "product_id"; "quantity"; "unit_price"; "line_total"]
  | reviews =>
      ["review_id"; "product_id"; "customer_id"; "rating"; "review_text"; "review_date"]
  end.

(** Body of the loop over [paths.items()]. *)
Definition load_table (dir : data_dir) (t : table) : M unit :=
  match dir t with
  | None => emit (EvSkip t)
  | Some f =>
      match read_csv_rows f with
      | [] => emit (EvSkip t)
      | rows =>
          rows' ← lift (coerce_rows rows);
          with_conn (λ db, insert_rows db t rows' (col_map t));;
          emit (EvInsert t (length rows'))
      end
  end.

Definition write_report : M unit :=
  λ w, (Ok tt, World (w_db w) (Some (ltv_headers, ltv_query (w_db w))) (w_trace w)).

(** The body of [ingest] after the connection is open. *)
Definition ingest_body (dir : data_dir) (write_ltv : bool) : M unit :=
  for_ paths (load_table dir);;
  with_conn (λ db, Ok (update_totals db));;
  emit EvUpdateTotals;;
  if write_ltv then write_report;; emit EvWriteLtv else mret tt.

(** [ingest(data_dir, db_path, replace, write_ltv)]. [db_file] is the database
    file found at [db_path], if any. The result is whether the call returned or
    raised, with the database file, the report and the log it leaves. *)
Definition ingest (dir : data_dir) (db_file : option store)
    (replace write_ltv : bool) : result unit * world :=
  let db_file := if (replace && bool_decide (is_Some db_file))%bool then None else db_file in
  let conn := create_schema (connect db_file) in
  ingest_body dir write_ltv (World conn None []).

(** *** What a file writes

    The rows a CSV file makes [insert_rows] write, before their rowids are
    known: each line coerced, bound and placed under the column affinities. *)
Fixpoint rows_written (t : table) (rows : list pyrow) : result (list row) :=
  match rows with
  | [] => Ok []
  | r :: rows' =>
      r0 ← insert_row t (col_map t) (params_of (col_map t) r);
      l ← rows_written t rows';
      Ok (r0 :: l)
  end.

Definition loaded (dir : data_dir) (t : table) : result (list row) :=
  match dir t with
  | None => Ok []
  | Some f => rows' ← coerce_rows (read_csv_rows f); rows_written t rows'
  end.

(** Writing a list of rows in one transaction. *)
Definition write_rows (db : store) (t : table) (l : list row) : result store :=
  for_each (λ db r0, write_row db t r0) l db.

(** The rowid a row carries, when it carries one. *)
Definition key_of (t : table) (r : row) : option Z :=
  match field (pk_col t) r with
  | VInt k => Some k
  | _ => None
  end.

(** The last row of [l] that carries rowid [k]. *)
Fixpoint final_row (t : table) (k : Z) (l : list row) : option row :=
  match l with
  | [] => None
  | r :: l' =>
      match final_row t k l' with
      | Some r' => Some r'
      | None => if decide (key_of t r = Some k) then Some r else None
      end
  end.

(** Storing a row under the rowid it carries. *)
Definition put_row (t : table) (m : gmap Z row) (r : row) : gmap Z row :=
  match key_of t r with
  | Some k => <[k := r]> m
  | None => m
  end.

(** Every row of the list carries a rowid; rows that agree on a UNIQUE column
    carry the same. *)
Definition rows_keyed (t : table) (l : list row) : Prop :=
  ∀ r, r ∈ l → is_Some (key_of t r).

Definition rows_unique_by_key (t : table) (l : list row) : Prop :=
  ∀ r1 r2, r1 ∈ l → r2 ∈ l → unique_clash t r1 r2 = true →
    key_of t r1 = key_of t r2.

(** No row of the files is written with a NULL primary key. *)
Definition keyed (dir : data_dir) : Prop :=
  ∀ t l r, loaded dir t = Ok l → r ∈ l → field (pk_col t) r ≠ VNull.

(** Two rows of a file that agree on a UNIQUE column (two customers with the
    same email) carry the same primary key. *)
Definition table_unique_by_key (dir : data_dir) (t : table) : Prop :=
  ∀ l r1 r2, loaded dir t = Ok l → r1 ∈ l → r2 ∈ l →
    unique_clash t r1 r2 = true → field (pk_col t) r1 = field (pk_col t) r2.

Definition unique_by_key (dir : data_dir) : Prop :=
  ∀ t, table_unique_by_key dir t.

(** What writing the row [r] leaves under rowid [k], where [o] was: the row
    itself when it carries [k], nothing when it clashes with [o], else [o]. *)
Definition write_at (t : table) (k : Z) (o : option row) (r : row) : option row :=
  if decide (key_of t r = Some k) then Some r
  else x ← o; if unique_clash t r x then None else Some x.

(** A stored row that no row of the list overwrites or clashes with. *)
Definition undisturbed (t : table) (k : Z) (l : list row) (o : option row)
  : option row :=
  x ← o;
  if forallb (λ r, bool_decide (key_of t r ≠ Some k) && negb (unique_clash t r x)) l
  then Some x else None.

(** In a list of tables, every table comes after the tables it references. *)
Fixpoint parents_first (ts : list table) : bool :=
  match ts with
  | [] => true
  | t :: ts' =>
      forallb (λ fk, bool_decide (fk.2 ∉ t :: ts')) (FOREIGN_KEY t)
      && parents_first ts'
  end.

(** A store [T] that differs from [S] at most in the totals the recomputation
    overwrites. *)
Definition same_but_totals (T S : store) : Prop :=
  (∀ t, t ≠ orders → tbl T t = tbl S t)
  ∧ dom (tbl T orders) = dom (tbl S orders)
  ∧ update_totals T = update_totals S.

(** The effect of the loop body on the database alone. *)
Definition load_db (dir : data_dir) (t : table) (db : store) : result store :=
  match dir t with
  | None => Ok db
  | Some f =>
      match read_csv_rows f with
      | [] => Ok db
      | rows => rows' ← coerce_rows rows; insert_rows db t rows' (col_map t)
      end
  end.

(** The effect of the loop on the database: the outcome and the database
    left, which on an exception is the one before the load that raised. *)
Fixpoint loads_db (dir : data_dir) (ts : list table) (db : store)
  : result unit * store :=
  match ts with
  | [] => (Ok tt, db)
  | t :: ts' =>
      match load_db dir t db with
      | Ok db' => loads_db dir ts' db'
      | Raise e => (Raise e, db)
      end
  end.

(** The store [ingest] leaves after the loop: recomputed when the loop
    returned, as the loop left it when it raised. *)
Definition left_by (r : result unit * store) : store :=
  match r.1 with Ok _ => update_totals r.2 | Raise _ => r.2 end.

(** The log entry of a load that did not raise. *)
Definition load_event (t : table) (ev : event) : Prop :=
  ev = EvSkip t ∨ ∃ n, ev = EvInsert t n.

(** The world [ingest] starts its body in, and the world the steps after the
    loop leave when the loop has left [w1]. *)
Definition start (db_file : option store) (replace : bool) : world :=
  World (create_schema
           (connect (if (replace && bool_decide (is_Some db_file))%bool
                     then None else db_file)))
    None [].

Definition after_loads (w1 : world) (write_ltv : bool) : world :=
  let db := update_totals (w_db w1) in
  World db
    (if write_ltv then Some (ltv_headers, ltv_query db) else w_ltv w1)
    (w_trace w1 ++ [EvUpdateTotals] ++ (if write_ltv then [EvWriteLtv] else [])).

End Script.

(** ** The integrity of a store *)

(** Every foreign key of every row is NULL or the primary key of a row of the
    table it references. *)
Definition fk_consistent (db : store) : Prop :=
  ∀ t k r c p, tbl db t !! k = Some r → (c, p) ∈ FOREIGN_KEY t →
    cell t c k r = VNull ∨ ∃ q, cell t c k r = VInt q ∧ is_Some (tbl db p !! q).

(** The same, as a check of the whole store (what PRAGMA foreign_key_check
    looks for). *)
Definition fk_check (db : store) : bool :=
  forallb (λ t, forallb (λ kr, child_ok db t kr.1 kr.2) (map_to_list (tbl db t)))
    all_tables.

(** No two customers of the store have the same email. *)
Definition emails_unique (db : store) : Prop :=
  ∀ k1 r1 k2 r2,
    tbl db customers !! k1 = Some r1 → tbl db customers !! k2 = Some r2 →
    sql_eq (field "email" r1) (field "email" r2) = true → k1 = k2.

Definition emails_check (db : store) : bool :=
  let cs := map_to_list (tbl db customers) in
  forallb (λ a, forallb (λ b,
    negb (sql_eq (field "email" a.2) (field "email" b.2))
    || bool_decide (a.1 = b.1)) cs) cs.

(** ** The conversions and the stored row, field by field *)

(** The object the reader hands to the loops for a field. *)
Definition field_read (o : option string) : pyval :=
  match o with Some s => PyStr s | None => PyNone end.

Section Fields.
Context `{Numerics}.

(** The first inner loop on the object of one field. *)
Definition int_field (v : pyval) : result pyval :=
  if truthy v then
    match (f ← float_ v; z ← int_ f; Ok (PyInt z)) with
    | Raise ValueError => Ok v
    | r => r
    end
  else Ok v.

(** The second inner loop on the object of one field. *)
Definition float_field (v : pyval) : result pyval :=
  if truthy v then
    match (f ← float_ v; Ok (PyFloat f)) with
    | Raise ValueError => Ok v
    | r => r
    end
  else Ok v.

(** The type conversions, field by field: what they leave in the field of
    column [c] that the reader filled with the text [o], [None] in a line too
    short to hold the field. *)
Definition converted (c : string) (o : option string) : pyval :=
  match o with
  | None => PyNone
  | Some s =>
      if decide (s = EmptyString) then PyStr s
      else if decide (c ∈ int_cols) then
        match py_float s with
        | Some f => match int_ f with Ok z => PyInt z | Raise _ => PyStr s end
        | None => PyStr s
        end
      else if decide (c ∈ float_cols) then
        match py_float s with Some f => PyFloat f | None => PyStr s end
      else PyStr s
  end.

(** A line with a field of an integer column whose text reads as an
    infinity. *)
Definition infinite_int_field (r : csv_row) : Prop :=
  ∃ c s b, c ∈ int_cols ∧ r !! c = Some (Some s) ∧ s ≠ EmptyString
           ∧ py_float s = Some (S754_infinity b).

(** The value stored for column [col] of a line: the converted field, bound
    and placed under the affinity of the column. [row.get(c, None)] reads a
    column the file does not have as [None]. *)
Definition stored_value (col : column) (r : csv_row) : result value :=
  v ← bind_param (converted (col_name col) (r !! col_name col ≫= id));
  Ok (apply_affinity (col_type col) v).

Fixpoint stored_row (cols : list column) (r : csv_row) : result row :=
  match cols with
  | [] => Ok []
  | col :: cols' =>
      v ← stored_value col r; r' ← stored_row cols' r; Ok ((col_name col, v) :: r')
  end.

End Fields.


(** * The data generator: [src/generate_data.py]

    The generators draw from Faker and from numpy's random generator. The
    draws are the input of the model: a state that each draw reads and
    advances. What the generators do with the values drawn (the ids, the
    references between the frames, the totals) is the code of the
    repository. A DataFrame is the list of its rows. *)
Module Gen.

(** [int(x)] raises [OverflowError] on an infinity and [ValueError] on a
    NaN. *)
Definition is_overflow (e : exn) : bool :=
  match e with
  | OverflowError => true
  | _ => false
  end.

(** Exceptions that can leave the generators. *)
Inductive error :=
  | KeyError (column : string)   (* a column of a DataFrame without columns *)
  | ValueError                   (* a sample larger than the frame; a seed out
                                    of range; int of a NaN *)
  | OverflowError                (* int of an infinity *)
  | UniquenessException.         (* [fake.unique] finds no new value *)

(** A computation that draws: it raises, or returns with the state the draws
    left. *)
Definition G (S A : Type) : Type := S → error + A * S.

#[global] Instance G_ret {S} : MRet (G S) := λ A a s, inr (a, s).
#[global] Instance G_bind {S} : MBind (G S) := λ A B k m s,
  match m s with
  | inl e => inl e
  | inr (a, s') => k a s'
  end.

Definition raise {S A} (e : error) : G S A := λ _, inl e.
Definition draw {S A} (f : S → A * S) : G S A := λ s, inr (f s).

(** [for x in l: acc = body(acc, x)]. *)
Fixpoint for_acc {S A B} (body : B → A → G S B) (l : list A) (acc : B)
  : G S B :=
  match l with
  | [] => mret acc
  | x :: l' => acc' ← body acc x; for_acc body l' acc'
  end.

(** The random sources. Dates are drawn as the text [isoformat] gives. *)
Class Sources := {
  state : Type;
  (** [Faker.seed(n)] and [np.random.seed(n)]. *)
  seeded : Z → state;
  fake_name : state → string * state;
  (** [fake.unique.email()]; [None] when it raises. *)
  fake_unique_email : state → option string * state;
  fake_date_between : state → string * state;
  fake_address : state → string * state;
  fake_word : state → string * state;
  fake_sentence : state → string * state;
  fake_date_time_between : state → string * state;
  (** A draw among [n] outcomes (used modulo [n]). *)
  np_index : nat → state → nat * state;
  np_lognormal : state → spec_float * state;
  (** [round(x, 2)] on a float. *)
  py_round2 : spec_float → spec_float
}.

Definition f64_mul : spec_float → spec_float → spec_float := SFmul 53 1024.

(** [s.replace('\n', ', ')]. *)
Fixpoint replace_newlines (s : string) : string :=
  match s with
  | EmptyString => EmptyString
  | String a s' =>
      if Ascii.eqb a "010" then String "," (String " " (replace_newlines s'))
      else String a (replace_newlines s')
  end.

(** [s.capitalize()] (on ASCII letters). *)
Definition upper (a : ascii) : ascii :=
  let n := nat_of_ascii a in
  if (Nat.leb 97 n && Nat.leb n 122)%bool then ascii_of_nat (n - 32) else a.

Definition capitalize (s : string) : string :=
  match s with
  | EmptyString => EmptyString
  | String a s' =>
      String (upper a) (string_of_list_ascii (Ref.lower <$> list_ascii_of_string s'))
  end.

(** [f"{n:06d}"]: at least six characters, the sign included. *)
Definition format_06d (n : Z) : string :=
  let digits := pretty (Z.abs n) in
  let sign : string := if Z.ltb n 0 then "-" else EmptyString in
  let width := (6 - String.length sign - String.length digits)%nat in
  sign +:+ String.concat EmptyString (replicate width "0") +:+ digits.

(** The rows of the five frames. *)
Record customer := Customer {
  customer_id : Z; c_name : string; email : string; address : string;
  join_date : string
}.

Record product := Product {
  product_id : Z; p_name : string; category : string; price : spec_float;
  sku : string
}.

Record order := Order {
  order_id : Z; o_customer_id : Z; order_date : string; total : spec_float;
  status : string
}.

Record item := Item {
  order_item_id : Z; i_order_id : Z; i_product_id : Z; quantity : Z;
  unit_price : spec_float; line_total : spec_float
}.

Record review := Review {
  review_id : Z; r_product_id : Z; r_customer_id : Z; rating : Z;
  review_text : string; review_date : string
}.

Section Generators.
Context `{Sources}.

Definition unique_email : G state string :=
  λ s, match fake_unique_email s with
       | (Some e, s') => inr (e, s')
       | (None, _) => inl UniquenessException
       end.

(** [np.random.choice(a)], with or without weights. *)
Definition choice {A} (a : list A) : G state A :=
  i ← draw (np_index (length a));
  match a !! (i mod length a)%nat with
  | Some x => mret x
  | None => raise ValueError
  end.

(** [np.random.randint(low, high)]: low <= x < high. *)
Definition randint (low high : Z) : G state Z :=
  if decide (low < high) then
    i ← draw (np_index (Z.to_nat (high - low)));
    mret (low + Z.of_nat (i mod Z.to_nat (high - low)))
  else raise ValueError.

(** [df[c]]: a frame built from no row has no column. *)
Definition column {A B} (c : string) (get : A → B) (df : list A)
  : G state (list B) :=
  match df with
  | [] => raise (KeyError c)
  | _ => mret (get <$> df)
  end.

(** [df.sample(n=n, replace=False)]: [n] rows at distinct positions. *)
Fixpoint take_sample {A} (n : nat) (df : list A) : G state (list A) :=
  match n with
  | O => mret []
  | S n' =>
      i ← draw (np_index (length df));
      match df !! (i mod length df)%nat with
      | Some x => xs ← take_sample n' (delete (i mod length df)%nat df); mret (x :: xs)
      | None => raise ValueError
      end
  end.

Definition sample {A} (n : Z) (df : list A) : G state (list A) :=
  if decide (n < 0 ∨ Z.of_nat (length df) < n) then raise ValueError
  else take_sample (Z.to_nat n) df.

Definition generate_customers (n_customers : Z) : G state (list customer) :=
  for_acc (λ customer_rows cid,
      name ← draw fake_name;
      email ← unique_email;
      join_date ← draw fake_date_between;
      address ← draw fake_address;
      mret (customer_rows
              ++ [Customer cid name email (replace_newlines address) join_date]))
    (seqZ 1 n_customers) [].

Definition categories : list string :=
  ["Electronics"; "Home"; "Books"; "Toys"; "Clothing"; "Sports"; "Beauty"].

Definition generate_products (n_products : Z) : G state (list product) :=
  for_acc (λ product_rows pid,
      category ← choice categories;
      x ← draw np_lognormal;
      w1 ← draw fake_word;
      w2 ← draw fake_word;
      mret (product_rows
              ++ [Product pid (capitalize w1 +:+ " " +:+ capitalize w2) category
                    (py_round2 x) ("SKU-" +:+ format_06d pid)]))
    (seqZ 1 n_products) [].

(** The inner loop of [generate_orders_and_items]: the items of one order,
    appended to [items], and the sum of their line totals. *)
Definition order_lines (order_id : Z) (chosen_products : list product)
    (item_rows : list item) : G state (list item * spec_float) :=
  for_acc (λ '(item_rows, total) prod,
      qty ← choice [1; 1; 1; 2; 3];
      let unit_price := price prod in
      let line_total := py_round2 (f64_mul unit_price (f64_of_Z qty)) in
      mret (item_rows ++ [Item (Z.of_nat (length item_rows) + 1) order_id
                            (product_id prod) qty unit_price line_total],
            f64_add total line_total))
    chosen_products (item_rows, S754_zero false).

Definition statuses : list string :=
  ["completed"; "shipped"; "cancelled"; "returned"].

Definition generate_orders_and_items (n_orders : Z)
    (customers_df : list customer) (products_df : list product)
  : G state (list order * list item) :=
  '(order_rows, item_rows, _) ←
    for_acc (λ '(order_rows, item_rows, order_id) (_ : Z),
        ids ← column "customer_id" customer_id customers_df;
        cust_id ← choice ids;
        order_date ← draw fake_date_time_between;
        n_items ← randint 1 6;
        chosen_products ← sample n_items products_df;
        '(item_rows, total) ← order_lines order_id chosen_products item_rows;
        status ← choice statuses;
        mret (order_rows
                ++ [Order order_id cust_id order_date (py_round2 total) status],
              item_rows, order_id + 1))
      (seqZ 0 n_orders) ([], [], 1);
  mret (order_rows, item_rows).

Definition generate_reviews (customers_df : list customer)
    (products_df : list product) (n_reviews : Z) : G state (list review) :=
  for_acc (λ review_rows rid,
      pids ← column "product_id" product_id products_df;
      pid ← choice pids;
      cids ← column "customer_id" customer_id customers_df;
      cid ← choice cids;
      rating ← choice [1; 2; 3; 4; 5];
      text ← draw fake_sentence;
      review_date ← draw fake_date_time_between;
      mret (review_rows ++ [Review rid pid cid rating text review_date]))
    (seqZ 1 n_reviews) [].

(** [int(base * args.scale)]. *)
Definition scaled (base : Z) (scale : spec_float) : error + Z :=
  match int_ (f64_mul (f64_of_Z base) scale) with
  | Ok n => inr n
  | Raise e => inl (if is_overflow e then OverflowError else ValueError)
  end.

(** The frames [main] writes as CSV files. *)
Record dataset := Dataset {
  customers_df : list customer;
  products_df : list product;
  orders_df : list order;
  items_df : list item;
  reviews_df : list review
}.

(** [main], from the parsed arguments to the frames handed to [to_csv]. *)
Definition generate_all (n_customers n_products n_orders n_reviews : Z)
  : G state dataset :=
  cs ← generate_customers n_customers;
  ps ← generate_products n_products;
  '(os, its) ← generate_orders_and_items n_orders cs ps;
  rs ← generate_reviews cs ps n_reviews;
  mret (Dataset cs ps os its rs).

Definition main (seed : Z) (scale : spec_float) : error + dataset :=
  if decide (0 ≤ seed < 2 ^ 32) then
    match scaled 500 scale with
    | inl e => inl e
    | inr n_customers =>
    match scaled 200 scale with
    | inl e => inl e
    | inr n_products =>
    match scaled 2500 scale with
    | inl e => inl e
    | inr n_orders =>
    match scaled 800 scale with
    | inl e => inl e
    | inr n_reviews =>
        match generate_all n_customers n_products n_orders n_reviews (seeded seed) with
        | inl e => inl e
        | inr (d, _) => inr d
        end
    end end end end
  else inl ValueError.

(** The number a SKU carries: the decimal digits after [SKU-]. *)
Fixpoint digits_value (acc : N) (s : string) : N :=
  match s with
  | EmptyString => acc
  | String a s' => digits_value (acc * 10 + (N_of_ascii a - 48)) s'
  end.

Definition sku_number (s : string) : option Z :=
  match s with
  | String "S" (String "K" (String "U" (String "-" d))) =>
      Some (Z.of_N (digits_value 0 d))
  | _ => None
  end.

(** The computation returns from the state [s]. *)
Definition returns {A} (m : G state A) (s : state) : Prop :=
  ∃ a s', m s = inr (a, s').

(** The items of an order, in the order of the frame. *)
Definition lines_of (o : order) (item_rows : list item) : list item :=
  filter (λ it, i_order_id it = order_id o) item_rows.

(** An item of the order [oid] made from the product [p]. *)
Definition line_of (oid : Z) (p : product) (it : item) : Prop :=
  i_order_id it = oid ∧ i_product_id it = product_id p
  ∧ unit_price it = price p ∧ quantity it ∈ [1; 2; 3]
  ∧ line_total it = py_round2 (f64_mul (unit_price it) (f64_of_Z (quantity it))).

(** An order and its items: between one and five rows of the products, at
    distinct positions of the frame, one item for each; the total is the
    rounded sum of the line totals, added in the order of the items. *)
Definition order_block (customers_df : list customer) (products_df : list product)
    (o : order) (b : list item) : Prop :=
  o_customer_id o ∈ customer_id <$> customers_df
  ∧ status o ∈ statuses
  ∧ (∃ chosen_products, chosen_products ⊆+ products_df
       ∧ (1 ≤ length chosen_products ≤ 5)%nat
       ∧ Forall2 (line_of (order_id o)) chosen_products b)
  ∧ total o = py_round2 (foldl f64_add (S754_zero false) (line_total <$> b)).

End Generators.

End Gen.

(** ** Example data

    Small data directories and stores on which the script is run, with the
    reference numerics. *)
Module Ex.

Definition line (l : list (string * string)) : csv_row :=
  list_to_map ((λ p, (p.1, Some p.2)) <$> l).

Definition real (s : string) : value :=
  match Ref.py_float s with
  | Some f => VReal f
  | None => VNull
  end.

Definition customer (id name email : string) : csv_row :=
  line [("customer_id", id); ("name", name); ("email", email);
        ("address", "1 Main St"); ("join_date", "2023-05-01")].

Definition order (id cust date total status : string) : csv_row :=
  line [("order_id", id); ("customer_id", cust); ("order_date", date);
        ("total", total); ("status", status)].

Definition item (id ord qty price total : string) : csv_row :=
  line [("order_item_id", id); ("order_id", ord); ("quantity", qty);
        ("unit_price", price); ("line_total", total)].

(** Two customers; Ann has two completed orders of 30.00 and 20.00 and a
    cancelled one of 100.00, Bob has none. No items, products or reviews. *)
Definition shop : data_dir := λ t,
  match t with
  | customers => Some [customer "1" "Ann" "ann@example.org";
                       customer "2" "Bob" "bob@example.org"]
  | orders => Some [order "1" "1" "2024-01-10" "30.00" "completed";
                    order "2" "1" "2024-02-20" "20.00" "completed";
                    order "3" "1" "2024-03-05" "100.00" "cancelled"]
  | _ => None
  end.

(** One order whose CSV total is 99.00 and whose two items add up to 3.75,
    the second with an unparseable quantity. *)
Definition basket : data_dir := λ t,
  match t with
  | customers => Some [customer "1" "Ann" "ann@example.org"]
  | orders => Some [order "1" "1" "2024-01-10" "99.00" "completed"]
  | order_items => Some [item "1" "1" "3.0" "0.5" "2.5";
                         item "2" "1" "abc" "1.25" "1.25"]
  | _ => None
  end.

(** As [basket], with an infinite quantity. *)
Definition basket_inf : data_dir := λ t,
  match t with
  | order_items => Some [item "1" "1" "inf" "0.5" "2.5"]
  | _ => basket t
  end.

(** An order of 10.00 and no order_items.csv. *)
Definition no_items : data_dir := λ t,
  match t with
  | customers => Some [customer "1" "Ann" "ann@example.org"]
  | orders => Some [order "1" "1" "2024-01-10" "10.00" "completed"]
  | _ => None
  end.

(** The store an earlier run of [basket] left. *)
Definition stale : store := w_db (ingest basket None false false).2.

(** A customers.csv without the customer_id column. *)
Definition anonymous : data_dir := λ t,
  match t with
  | customers => Some [line [("name", "Bob"); ("address", "1 Main St")]]
  | _ => None
  end.

(** Two customers with one email, and an order of the second. *)
Definition shared_email : data_dir := λ t,
  match t with
  | customers => Some [customer "1" "Ann" "ann@example.org";
                       customer "2" "Anna" "ann@example.org"]
  | orders => Some [order "1" "2" "2024-01-10" "10.00" "completed"]
  | _ => None
  end.

(** Orders without customers.csv. *)
Definition orphan_orders : data_dir := λ t,
  match t with
  | orders => Some [order "1" "1" "2024-01-10" "10.00" "completed"]
  | _ => None
  end.

(** A customer id that is not a number. *)
Definition bad_id : data_dir := λ t,
  match t with
  | customers => Some [customer "abc" "Ann" "ann@example.org"]
  | _ => None
  end.

Definition loaded_order (id : Z) (total : string) : row :=
  [("order_id", VInt id); ("customer_id", VInt 1);
   ("order_date", VText "2024-01-10"); ("total", real total);
   ("status", VText "completed")].

Definition stored_customer (id : Z) (name email : string) : row :=
  [("customer_id", VInt id); ("name", VText name); ("email", VText email);
   ("address", VText "1 Main St"); ("join_date", VText "2023-05-01")].

(** The runs used below. *)
Definition shop_run : result unit * world := ingest shop None false true.
Definition shop_again : result unit * world :=
  ingest shop (Some (w_db shop_run.2)) false true.
Definition basket_run : result unit * world := ingest basket None false false.
Definition basket_inf_run : result unit * world := ingest basket_inf None false false.
Definition no_items_run : result unit * world := ingest no_items None false false.
Definition no_items_stale_run : result unit * world :=
  ingest no_items (Some stale) false false.
Definition anonymous_run : result unit * world := ingest anonymous None false false.
Definition anonymous_again : result unit * world :=
  ingest anonymous (Some (w_db anonymous_run.2)) false false.
Definition shared_email_run : result unit * world :=
  ingest shared_email None false false.
Definition shared_email_again : result unit * world :=
  ingest shared_email (Some (w_db shared_email_run.2)) false false.
Definition orphan_run : result unit * world := ingest orphan_orders None false false.
Definition bad_id_run : result unit * world := ingest bad_id None false true.


(** Three customers; Bob's two completed orders add up to 55.00, Ann has one
    of 10.00, Cy a cancelled one. *)
Definition market : data_dir := λ t,
  match t with
  | customers => Some [customer "1" "Ann" "ann@example.org";
                       customer "2" "Bob" "bob@example.org";
                       customer "3" "Cy" "cy@example.org"]
  | orders => Some [order "1" "1" "2024-01-10" "10.00" "completed";
                    order "2" "2" "2024-03-01" "50.00" "completed";
                    order "3" "2" "2024-02-20" "5.00" "completed";
                    order "4" "3" "2024-04-02" "70.00" "cancelled"]
  | _ => None
  end.

(** One customer, and a file with another customer of the same email. *)
Definition lone_customer : data_dir := λ t,
  match t with
  | customers => Some [customer "1" "Ann" "ann@example.org"]
  | _ => None
  end.

Definition namesake : data_dir := λ t,
  match t with
  | customers => Some [customer "2" "Anna" "ann@example.org"]
  | _ => None
  end.

(** The rows a file of a data directory writes. *)
Definition rows_of (dir : data_dir) (t : table) : list row :=
  match loaded dir t with Ok l => l | Raise _ => [] end.

Definition market_run : result unit * world := ingest market None false true.
Definition lone_customer_run : result unit * world :=
  ingest lone_customer None false false.
Definition namesake_run : result unit * world :=
  ingest namesake (Some (w_db lone_customer_run.2)) false false.

(** An order_items.csv for a store that holds items: item 2 twice, item 3
    new. *)
Definition restock : data_dir := λ t,
  match t with
  | order_items => Some [item "2" "1" "2" "1.25" "2.50";
                         item "3" "1" "1" "4.00" "4.00";
                         item "2" "1" "4" "1.25" "5.00"]
  | _ => None
  end.

Definition restock_run : result unit * world :=
  ingest restock (Some stale) false false.
Definition shop_reload_run : result unit * world :=
  ingest shop (Some (w_db shop_run.2)) false false.

Definition stored_item (id : Z) (qty : Z) (price total : string) : row :=
  [("order_item_id", VInt id); ("order_id", VInt 1); ("product_id", VNull);
   ("quantity", VInt qty); ("unit_price", real price); ("line_total", real total)].

(** The order_items.csv of [basket], and its lines after the conversions. *)
Definition basket_items : list csv_row :=
  [item "1" "1" "3.0" "0.5" "2.5"; item "2" "1" "abc" "1.25" "1.25"].

Definition basket_items_converted : list pyrow :=
  [ {[ "order_item_id" := PyInt 1; "order_id" := PyInt 1; "quantity" := PyInt 3;
       "unit_price" := PyFloat (f64_div (f64_of_Z 1) (f64_of_Z 2));
       "line_total" := PyFloat (f64_div (f64_of_Z 5) (f64_of_Z 2)) ]};
    {[ "order_item_id" := PyInt 2; "order_id" := PyInt 1; "quantity" := PyStr "abc";
       "unit_price" := PyFloat (f64_div (f64_of_Z 5) (f64_of_Z 4));
       "line_total" := PyFloat (f64_div (f64_of_Z 5) (f64_of_Z 4)) ]} ].

Definition stored_customer_text (id name email : string) : row :=
  [("customer_id", VText id); ("name", VText name); ("email", VText email);
   ("address", VText "1 Main St"); ("join_date", VText "2023-05-01")].


(** ** A source of draws *)

(** Python's [round(x, 2)] on a float: the decimal of two places nearest to
    [x], of two equally near ones the even one, then the float nearest to
    that decimal. *)
Definition round2 (x : spec_float) : spec_float :=
  match x with
  | S754_finite s m e =>
      if Z.leb 0 e then x
      else
        let den := 2 ^ (- e) in
        let q := (Z.pos m * 100) / den in
        let r := (Z.pos m * 100) mod den in
        let k := if Z.ltb (2 * r) den then q
                 else if Z.ltb den (2 * r) then q + 1
                 else if Z.even q then q else q + 1 in
        Ref.dec_to_f64 s k (-2)
  | _ => x
  end.

(** The draws are computed from a counter; [emails] is the number of
    different emails Faker can give. *)
Definition counter (emails : nat) : Gen.Sources := {|
  Gen.state := nat;
  Gen.seeded := Z.to_nat;
  Gen.fake_name := λ n, ("Customer " +:+ pretty n, S n);
  Gen.fake_unique_email := λ n,
    (if decide (n < 5 * emails)%nat
     then Some ("user" +:+ pretty n +:+ "@example.org") else None, S n);
  Gen.fake_date_between := λ n, ("2024-01-15", S n);
  Gen.fake_address := λ n,
    (pretty n +:+ " Main Street" +:+ String "010" "Springfield", S n);
  Gen.fake_word := λ n, ("word", S n);
  Gen.fake_sentence := λ n, ("A sentence.", S n);
  Gen.fake_date_time_between := λ n, ("2024-06-01 10:00:00", S n);
  Gen.np_index := λ _ n, (11 * n + 3, S n)%nat;
  Gen.np_lognormal := λ n,
    (f64_div (f64_of_Z (137 * Z.of_nat n + 1000)) (f64_of_Z 97), S n);
  Gen.py_round2 := round2
|}.

(** The scales 1/32 (15 customers, 6 products, 78 orders, 25 reviews) and
    1/1024 (2 orders, and nothing else). *)
Definition scale_32 : spec_float := f64_div (f64_of_Z 1) (f64_of_Z 32).
Definition scale_1024 : spec_float := f64_div (f64_of_Z 1) (f64_of_Z 1024).

Definition no_rows : Gen.dataset := Gen.Dataset [] [] [] [] [].

(** What a run returned, or [a] when it raised. *)
Definition returned {E A : Type} (a : A) (r : E + A) : A :=
  match r with
  | inr x => x
  | inl _ => a
  end.

Definition generated : Gen.dataset :=
  returned no_rows (@Gen.main (counter 1000) 42 scale_32).

(** Three orders on the customers and products of [generated]. *)
Definition three_orders : list Gen.order * list Gen.item * nat :=
  returned ([], [], 0%nat)
    (@Gen.generate_orders_and_items (counter 1000) 3
       (Gen.customers_df generated) (Gen.products_df generated) 0%nat).

Definition three_products : list Gen.product * nat :=
  returned ([], 0%nat) (@Gen.generate_products (counter 1000) 3 0%nat).

(** The float a decimal text denotes. *)
Definition f64 (s : string) : spec_float := default S754_nan (Ref.py_float s).

Definition second_order : Gen.order :=
  Gen.Order 2 8 "2024-06-01 10:00:00" (f64 "1342.29") "completed".


(** Two orders whose items do not add up to hundredths: the items of order 1
    are 0.1 and 0.2, whose binary64 sum is 0.30000000000000004; the item of
    order 2 is 1.005, a binary64 just under 1.005. orders.csv gives 9.99 for
    both. *)
Definition fractions : data_dir := λ t,
  match t with
  | customers => Some [customer "1" "Ann" "ann@example.org"]
  | orders => Some [order "1" "1" "2024-01-10" "9.99" "completed";
                    order "2" "1" "2024-01-10" "9.99" "completed"]
  | order_items => Some [item "1" "1" "1" "0.1" "0.1";
                         item "2" "1" "1" "0.2" "0.2";
                         item "3" "2" "1" "1.005" "1.005"]
  | _ => None
  end.

Definition fractions_run : result unit * world :=
  ingest fractions None false false.

(** Ann's completed orders of 10.00, 10.00 and 0.01, and a cancelled one of
    5.00: 20.01 in three orders, 6.670000000000001 each. *)
Definition thirds : data_dir := λ t,
  match t with
  | customers => Some [customer "1" "Ann" "ann@example.org"]
  | orders => Some [order "1" "1" "2024-01-10" "10.00" "completed";
                    order "2" "1" "2024-02-20" "10.00" "completed";
                    order "3" "1" "2024-03-05" "0.01" "completed";
                    order "4" "1" "2024-04-01" "5.00" "cancelled"]
  | _ => None
  end.

Definition thirds_run : result unit * world := ingest thirds None false true.

Definition anonymous_row : row :=
  [("customer_id", VNull); ("name", VText "Bob"); ("email", VNull);
   ("address", VText "1 Main St"); ("join_date", VNull)].
End Ex.

(** * Properties *)

(** ** Rows and stores *)

Lemma assoc_set_field_eq c v r : assoc c (set_field c v r) = Some v.
Proof.
  induction r as [|[c' x] r IH]; simpl.
  - by rewrite decide_True.
  - destruct (decide (c = c')) as [->|Hne]; simpl.
    + by rewrite decide_True.
    + by rewrite decide_False.
Qed.

Lemma assoc_set_field_ne c c' v r :
  c' ≠ c → assoc c' (set_field c v r) = assoc c' r.
Proof.
  intros Hne. induction r as [|[c0 x] r IH]; simpl.
  - by rewrite decide_False.
  - destruct (decide (c = c0)) as [->|Hc]; simpl.
    + by rewrite !decide_False.
    + destruct (decide (c' = c0)); [done|apply IH].
Qed.

Lemma field_set_field_eq c v r : field c (set_field c v r) = v.
Proof. unfold field. by rewrite assoc_set_field_eq. Qed.

Lemma field_set_field_ne c c' v r :
  c' ≠ c → field c' (set_field c v r) = field c' r.
Proof. intros. unfold field. by rewrite assoc_set_field_ne. Qed.

Lemma set_field_idemp c v w r :
  set_field c v (set_field c w r) = set_field c v r.
Proof.
  induction r as [|[c' x] r IH]; simpl.
  - by rewrite decide_True.
  - destruct (decide (c = c')) as [->|Hne]; simpl.
    + by rewrite decide_True.
    + rewrite decide_False by done. by rewrite IH.
Qed.

Lemma tbl_set_tbl_eq db t m : tbl (set_tbl db t m) t = m.
Proof. by destruct t. Qed.

Lemma tbl_set_tbl_ne db t t' m : t' ≠ t → tbl (set_tbl db t m) t' = tbl db t'.
Proof. by destruct t, t'. Qed.

Lemma set_tbl_id db t : set_tbl db t (tbl db t) = db.
Proof. by destruct db, t. Qed.

Lemma set_tbl_set_tbl db t m m' : set_tbl (set_tbl db t m) t m' = set_tbl db t m'.
Proof. by destruct t. Qed.

Lemma store_eq (a b : store) : (∀ t, tbl a t = tbl b t) → a = b.
Proof.
  intros E. destruct a, b.
  pose proof (E customers). pose proof (E products). pose proof (E orders).
  pose proof (E order_items). pose proof (E reviews). simpl in *. congruence.
Qed.

(** ** Comparison *)

Lemma dyadic_eq_scale m1 e1 m2 e2 E :
  E ≤ e1 → E ≤ e2 →
  xnum_compare (Dyadic m1 e1) (Dyadic m2 e2) = Eq
  ↔ m1 * 2 ^ (e1 - E) = m2 * 2 ^ (e2 - E).
Proof.
  intros H1 H2. simpl. rewrite Z.compare_eq_iff.
  set (e := Z.min e1 e2).
  assert (He : E ≤ e) by (unfold e; lia).
  assert (He1 : e ≤ e1) by (unfold e; lia).
  assert (He2 : e ≤ e2) by (unfold e; lia).
  replace (e1 - E) with ((e1 - e) + (e - E)) by lia.
  replace (e2 - E) with ((e2 - e) + (e - E)) by lia.
  rewrite !Z.pow_add_r, !Z.mul_assoc by lia.
  assert (0 < 2 ^ (e - E)) by (apply Z.pow_pos_nonneg; lia).
  split; [by intros ->|]. intros Hm. by apply Z.mul_cancel_r in Hm; [|lia].
Qed.

Lemma xnum_compare_eq_sym x y : xnum_compare x y = Eq → xnum_compare y x = Eq.
Proof.
  destruct x as [|m1 e1|], y as [|m2 e2|]; try done.
  rewrite (dyadic_eq_scale m1 e1 m2 e2 (Z.min e1 e2)) by lia.
  rewrite (dyadic_eq_scale m2 e2 m1 e1 (Z.min e1 e2)) by lia. done.
Qed.

Lemma xnum_compare_eq_trans x y z :
  xnum_compare x y = Eq → xnum_compare y z = Eq → xnum_compare x z = Eq.
Proof.
  destruct x as [|m1 e1|], y as [|m2 e2|], z as [|m3 e3|]; try done.
  set (E := Z.min e1 (Z.min e2 e3)).
  rewrite (dyadic_eq_scale m1 e1 m2 e2 E), (dyadic_eq_scale m2 e2 m3 e3 E),
    (dyadic_eq_scale m1 e1 m3 e3 E) by (unfold E; lia).
  congruence.
Qed.

Lemma string_compare_eq s t : String.compare s t = Eq ↔ s = t.
Proof.
  split; [apply String.compare_eq_iff|intros <-].
  pose proof (String.compare_antisym s s) as Ha.
  by destruct (String.compare s s).
Qed.

Lemma sql_eq_true a b :
  sql_eq a b = true ↔
  match classify a, classify b with
  | CNum x, CNum y => xnum_compare x y = Eq
  | CText s, CText t => s = t
  | _, _ => False
  end.
Proof.
  unfold sql_eq, sql_compare. rewrite bool_decide_eq_true.
  destruct (classify a), (classify b); try (split; [done|tauto]).
  - split; [by intros [= ->]|by intros ->].
  - rewrite <- string_compare_eq. split; [by intros [= ->]|by intros ->].
Qed.

Lemma sql_eq_sym a b : sql_eq a b = sql_eq b a.
Proof.
  apply eq_true_iff_eq. rewrite !sql_eq_true.
  destruct (classify a), (classify b); try tauto.
  - split; apply xnum_compare_eq_sym.
  - split; congruence.
Qed.

Lemma sort_compare_eq a b :
  sort_compare a b = Eq ↔
  match classify a, classify b with
  | CNull, CNull => True
  | CNum x, CNum y => xnum_compare x y = Eq
  | CText s, CText t => s = t
  | _, _ => False
  end.
Proof.
  unfold sort_compare, sql_compare.
  destruct (classify a), (classify b); simpl; try done.
  apply string_compare_eq.
Qed.

(** Values in one class of DISTINCT are equal to the same values. *)
Lemma sql_eq_sort_compare a v w :
  sort_compare v w = Eq → sql_eq a v = sql_eq a w.
Proof.
  rewrite sort_compare_eq. intros Hvw.
  apply eq_true_iff_eq. rewrite !sql_eq_true.
  destruct (classify a), (classify v), (classify w); try tauto.
  - split; intros Hx.
    + by eapply xnum_compare_eq_trans.
    + eapply xnum_compare_eq_trans; [done|]. by apply xnum_compare_eq_sym.
  - by subst.
Qed.

Lemma existsb_filter_irrelevant {A} (f : A → bool) (P : A → Prop)
    `{!∀ x, Decision (P x)} (l : list A) :
  (∀ x, x ∈ l → ¬ P x → f x = false) →
  existsb f (filter P l) = existsb f l.
Proof.
  induction l as [|x l IH]; intros Hf; [done|].
  rewrite filter_cons. destruct (decide (P x)) as [HP|HP]; simpl.
  - rewrite IH; [done|]. intros y Hy. apply Hf. by right.
  - rewrite (Hf x) by (done || by left). apply IH.
    intros y Hy. apply Hf. by right.
Qed.

(** DISTINCT does not change what IN finds. *)
Lemma sql_in_distinct a vs : sql_in a (sql_distinct vs) = sql_in a vs.
Proof.
  unfold sql_in. induction vs as [|v vs IH]; [done|]. simpl.
  destruct (sql_eq a v) eqn:Hav; [done|]. simpl.
  rewrite <- IH. apply existsb_filter_irrelevant.
  intros w _ Hw. apply dec_stable in Hw.
  by rewrite <- (sql_eq_sort_compare a v w).
Qed.

Lemma sql_in_true a vs : sql_in a vs = true ↔ ∃ v, v ∈ vs ∧ sql_eq a v = true.
Proof.
  unfold sql_in. rewrite existsb_exists.
  setoid_rewrite <- list_elem_of_In. done.
Qed.

(** ** Table scans *)

Lemma elem_of_scan (m : gmap Z row) k r : (k, r) ∈ scan m ↔ m !! k = Some r.
Proof.
  unfold scan. rewrite merge_sort_Permutation. apply elem_of_map_to_list.
Qed.

Lemma scan_NoDup_keys (m : gmap Z row) : NoDup (scan m).*1.
Proof.
  unfold scan. rewrite merge_sort_Permutation. apply NoDup_fst_map_to_list.
Qed.

(** ** Writing rows *)

Section Writes.
Context `{Numerics}.

Lemma set_field_same c v r : assoc c r = Some v → set_field c v r = r.
Proof.
  induction r as [|[c' x] r IH]; simpl; [done|].
  destruct (decide (c = c')) as [->|Hne]; [by intros [= ->]|].
  intros Ha. by rewrite IH.
Qed.

Lemma key_of_Some t r k :
  key_of t r = Some k ↔ field (pk_col t) r = VInt k.
Proof. unfold key_of. destruct (field _ r); naive_solver. Qed.

Lemma key_of_set_field t r k :
  key_of t r = Some k → set_field (pk_col t) (VInt k) r = r.
Proof.
  rewrite key_of_Some. unfold field. intros Hf. apply set_field_same.
  by destruct (assoc _ r); simplify_eq/=.
Qed.

Lemma rowid_of_key t m r k : key_of t r = Some k → rowid_of t m r = Ok k.
Proof. rewrite key_of_Some. unfold rowid_of. by intros ->. Qed.

Lemma rowid_of_not_null t m r k :
  field (pk_col t) r ≠ VNull → rowid_of t m r = Ok k → key_of t r = Some k.
Proof.
  unfold rowid_of, key_of. destruct (field _ r); naive_solver.
Qed.

Lemma lookup_replace_into_eq t k r m : replace_into t k r m !! k = Some r.
Proof. unfold replace_into. by rewrite lookup_insert_eq. Qed.

Lemma lookup_replace_into_ne t k r m k' r' :
  k' ≠ k →
  replace_into t k r m !! k' = Some r'
  ↔ m !! k' = Some r' ∧ unique_clash t r r' = false.
Proof.
  intros Hne. unfold replace_into.
  rewrite lookup_insert_ne by done. by rewrite map_lookup_filter_Some.
Qed.

(** When only the row's own rowid conflicts, REPLACE is an overwrite. *)
Lemma replace_into_insert t k r m :
  (∀ k' r', m !! k' = Some r' → unique_clash t r r' = true → k' = k) →
  replace_into t k r m = <[k := r]> m.
Proof.
  intros Hc. apply map_eq. intros k'.
  destruct (decide (k' = k)) as [->|Hne].
  - by rewrite lookup_replace_into_eq, lookup_insert_eq.
  - rewrite lookup_insert_ne by done. apply option_eq. intros r'.
    rewrite lookup_replace_into_ne by done. split; [tauto|].
    intros Hl. split; [done|]. apply not_true_is_false. intros Hu.
    by apply Hne, (Hc k' r').
Qed.

Lemma write_row_ok db t r0 db' :
  write_row db t r0 = Ok db' →
  ∃ k, rowid_of t (tbl db t) r0 = Ok k
       ∧ db' = set_tbl db t (replace_into t k (set_field (pk_col t) (VInt k) r0)
                               (tbl db t))
       ∧ child_ok db' t k (set_field (pk_col t) (VInt k) r0) = true.
Proof.
  unfold write_row. destruct (rowid_of t (tbl db t) r0) as [k|]; simpl; [|done].
  destruct (child_ok _ _ _ _) eqn:Hc; simpl; [|done].
  destruct (parents_ok _ _ _); [|done]. intros [= <-]. eauto.
Qed.

Lemma write_rows_cons db t r l :
  write_rows db t (r :: l) = (db' ← write_row db t r; write_rows db' t l).
Proof. done. Qed.

(** Writing to a table leaves the others as they are. *)
Lemma write_row_frame db t r db' t' :
  write_row db t r = Ok db' → t' ≠ t → tbl db' t' = tbl db t'.
Proof.
  intros (k & _ & -> & _)%write_row_ok Hne. by rewrite tbl_set_tbl_ne.
Qed.

Lemma write_rows_frame db t l db' t' :
  write_rows db t l = Ok db' → t' ≠ t → tbl db' t' = tbl db t'.
Proof.
  revert db. induction l as [|r l IH]; intros db; [by intros [= ->]|].
  rewrite write_rows_cons. destruct (write_row db t r) as [db1|] eqn:Hw; [|done].
  simpl. intros Hl Hne. rewrite (IH _ Hl Hne). by eapply write_row_frame.
Qed.

(** *** The script's loop body and the rows a file writes *)

Lemma insert_rows_cons db t r rows cols :
  insert_rows db t (r :: rows) cols
  = (db' ← exec_insert db t cols (params_of cols r); insert_rows db' t rows cols).
Proof. done. Qed.

Lemma insert_rows_written db t rows l :
  rows_written t rows = Ok l →
  insert_rows db t rows (col_map t) = write_rows db t l.
Proof.
  revert db l. induction rows as [|r rows IH]; intros db l.
  - by intros [= <-].
  - rewrite insert_rows_cons. unfold exec_insert. simpl.
    destruct (insert_row _ _ _) as [r0|]; simpl; [|done].
    destruct (rows_written t rows) as [l'|]; simpl; [|done].
    intros [= <-]. rewrite write_rows_cons.
    destruct (write_row db t r0); simpl; [|done]. by apply IH.
Qed.

Lemma insert_rows_ok db t rows db' :
  insert_rows db t rows (col_map t) = Ok db' → ∃ l, rows_written t rows = Ok l.
Proof.
  revert db. induction rows as [|r rows IH]; intros db; [simpl; eauto|].
  rewrite insert_rows_cons. unfold exec_insert. simpl.
  destruct (insert_row _ _ _) as [r0|]; simpl; [|done].
  destruct (write_row db t r0) as [db1|]; simpl; [|done].
  intros (l & ->)%IH. simpl. eauto.
Qed.

Lemma load_db_loaded dir t db l :
  loaded dir t = Ok l → load_db dir t db = write_rows db t l.
Proof.
  unfold loaded, load_db. destruct (dir t) as [f|]; [|by intros [= <-]].
  destruct (read_csv_rows f) as [|r rows]; [by intros [= <-]|].
  destruct (coerce_rows (r :: rows)) as [rows'|]; simpl; [|done].
  apply insert_rows_written.
Qed.

Lemma load_db_ok_loaded dir t db db' :
  load_db dir t db = Ok db' → ∃ l, loaded dir t = Ok l.
Proof.
  unfold loaded, load_db. destruct (dir t) as [f|]; [|eauto].
  destruct (read_csv_rows f) as [|r rows]; [simpl; eauto|].
  destruct (coerce_rows (r :: rows)) as [rows'|]; simpl; [|done].
  apply insert_rows_ok.
Qed.

Lemma load_db_frame dir t db db' t' :
  load_db dir t db = Ok db' → t' ≠ t → tbl db' t' = tbl db t'.
Proof.
  intros Hl. destruct (load_db_ok_loaded _ _ _ _ Hl) as [l Hlo].
  rewrite (load_db_loaded _ _ db _ Hlo) in Hl. by eapply write_rows_frame.
Qed.

End Writes.

(** ** Loading a file, and loading it again *)

Section Reload.
Context `{Numerics}.
Variable t : table.

Lemma no_self_reference fk : fk ∈ FOREIGN_KEY t → fk.2 ≠ t.
Proof.
  destruct t; simpl; rewrite ?elem_of_cons, ?elem_of_nil;
    intros Hfk; destruct_or?; subst; done.
Qed.

Lemma child_ok_mono S T k r :
  (∀ fk, fk ∈ FOREIGN_KEY t → dom (tbl S fk.2) ⊆ dom (tbl T fk.2)) →
  child_ok S t k r = true → child_ok T t k r = true.
Proof.
  unfold child_ok. rewrite !forallb_forall. intros Hd Hc fk Hfk.
  specialize (Hc fk Hfk). apply list_elem_of_In in Hfk. specialize (Hd fk Hfk).
  unfold fk_holds in *. destruct (cell t fk.1 k r); try done.
  apply bool_decide_eq_true. apply bool_decide_eq_true in Hc.
  apply elem_of_dom. apply Hd. by apply elem_of_dom.
Qed.

Lemma child_ok_ext S T k r :
  (∀ fk, fk ∈ FOREIGN_KEY t → tbl S fk.2 = tbl T fk.2) →
  child_ok S t k r = child_ok T t k r.
Proof.
  intros E. apply eq_true_iff_eq.
  split; apply child_ok_mono; intros fk Hfk; by rewrite (E fk Hfk).
Qed.

Lemma child_ok_set_tbl S m k r :
  child_ok (set_tbl S t m) t k r = child_ok S t k r.
Proof.
  apply child_ok_ext. intros fk Hfk. apply tbl_set_tbl_ne.
  by apply no_self_reference.
Qed.

(** Writing a row that carries its rowid. *)
Lemma write_row_keyed db r db' k :
  write_row db t r = Ok db' → key_of t r = Some k →
  db' = set_tbl db t (replace_into t k r (tbl db t))
  ∧ child_ok db t k r = true.
Proof.
  intros (k' & Hk' & -> & Hc)%write_row_ok Hk.
  rewrite (rowid_of_key _ _ _ _ Hk) in Hk'. injection Hk' as <-.
  rewrite (key_of_set_field _ _ _ Hk) in *.
  by rewrite child_ok_set_tbl in Hc.
Qed.

Lemma write_rows_inv db r l db' :
  write_rows db t (r :: l) = Ok db' →
  ∃ db1, write_row db t r = Ok db1 ∧ write_rows db1 t l = Ok db'.
Proof.
  rewrite write_rows_cons. destruct (write_row db t r) as [db1|]; [|done].
  eauto.
Qed.

Lemma rows_keyed_cons r l :
  rows_keyed t (r :: l) ↔ is_Some (key_of t r) ∧ rows_keyed t l.
Proof.
  unfold rows_keyed. split.
  - intros Hk. split; [apply Hk; by left|]. intros r' Hr'. apply Hk. by right.
  - intros [Hr Hl] r' [->|Hr']%elem_of_cons; [done|by apply Hl].
Qed.

Lemma rows_unique_by_key_cons r l :
  rows_unique_by_key t (r :: l) → rows_unique_by_key t l.
Proof. unfold rows_unique_by_key. intros Hu r1 r2 ??. apply Hu; by right. Qed.

(** A run that returns wrote no row without a rowid, when none was NULL. *)
Lemma write_rows_keyed db l db' :
  write_rows db t l = Ok db' →
  (∀ r, r ∈ l → field (pk_col t) r ≠ VNull) → rows_keyed t l.
Proof.
  revert db. induction l as [|r l IH]; intros db Hw Hn; [by intros ? ?%elem_of_nil|].
  apply write_rows_inv in Hw as (db1 & Hw1 & Hw).
  apply rows_keyed_cons. split.
  - apply write_row_ok in Hw1 as (k & Hk & _). exists k.
    eapply rowid_of_not_null; [|done]. apply Hn. by left.
  - eapply IH; [done|]. intros r' Hr'. apply Hn. by right.
Qed.

(** *** The last row of a rowid *)

Lemma final_row_None k l r :
  final_row t k l = None → r ∈ l → key_of t r ≠ Some k.
Proof.
  induction l as [|r0 l IH]; simpl; [by intros _ ?%elem_of_nil|].
  destruct (final_row t k l); [done|]. case_decide; [done|].
  intros _ [->|Hr]%elem_of_cons; [done|by apply IH].
Qed.

Lemma final_row_Some k l r :
  final_row t k l = Some r → r ∈ l ∧ key_of t r = Some k.
Proof.
  induction l as [|r0 l IH]; simpl; [done|].
  destruct (final_row t k l) as [r'|].
  - intros [= <-]. destruct IH as [? ?]; [done|]. split; [by right|done].
  - case_decide; [|done]. intros [= <-]. split; [by left|done].
Qed.

Lemma final_row_is_Some k l r :
  r ∈ l → key_of t r = Some k → is_Some (final_row t k l).
Proof.
  intros Hr Hk. destruct (final_row t k l) eqn:Hf; [done|].
  by destruct (final_row_None _ _ _ Hf Hr).
Qed.

(** *** The first load *)

(** A new rowid is not in use. *)
Lemma new_rowid_fresh (m : gmap Z row) : m !! new_rowid m = None.
Proof.
  apply eq_None_not_Some. intros [r Hr].
  assert (Hin : new_rowid m ∈ (map_to_list m).*1).
  { apply list_elem_of_fmap. exists (new_rowid m, r). split; [done|].
    by apply elem_of_map_to_list. }
  unfold new_rowid in Hin. destruct ((map_to_list m).*1) as [|k ks] eqn:E;
    [by apply elem_of_nil in Hin|].
  assert (Hmax : ∀ x l a, x ∈ a :: l → x ≤ foldr Z.max a l).
  { intros x l a. induction l as [|y l IH]; simpl.
    - intros ->%list_elem_of_singleton. lia.
    - rewrite !elem_of_cons. intros [->|[->|Hx]].
      + assert (a ≤ foldr Z.max a l) by (apply IH; by left). lia.
      + lia.
      + assert (x ≤ foldr Z.max a l) by (apply IH; by right). lia. }
  apply Hmax in Hin. lia.
Qed.

Lemma unique_clash_set_pk v r r' :
  unique_clash t (set_field (pk_col t) v r) r' = unique_clash t r r'.
Proof.
  destruct t; try done.
  unfold unique_clash. simpl. by rewrite field_set_field_ne.
Qed.

(** A stored row survives the writes that neither carry its rowid nor clash
    with it. *)
Lemma write_rows_preserve db l db' k r :
  write_rows db t l = Ok db' →
  tbl db t !! k = Some r →
  (∀ r', r' ∈ l → key_of t r' ≠ Some k ∧ unique_clash t r' r = false) →
  tbl db' t !! k = Some r.
Proof.
  revert db. induction l as [|r0 l IH]; intros db Hw Hl Hno.
  { by injection Hw as <-. }
  apply write_rows_inv in Hw as (db1 & Hw1 & Hw).
  apply write_row_ok in Hw1 as (k' & Hk' & -> & _).
  destruct (Hno r0) as [Hne Hcl]; [by left|].
  eapply IH; [done| |].
  - rewrite tbl_set_tbl_eq. apply lookup_replace_into_ne.
    + intros ->. unfold rowid_of, key_of in *.
      destruct (field (pk_col t) r0); simplify_eq.
      by rewrite new_rowid_fresh in Hl.
    + by rewrite unique_clash_set_pk.
  - intros r' Hr'. apply Hno. by right.
Qed.

(** After the load every rowid of the file holds the last row that carries
    it. *)
Lemma write_rows_final db l db' k r :
  write_rows db t l = Ok db' → rows_unique_by_key t l →
  final_row t k l = Some r → tbl db' t !! k = Some r.
Proof.
  revert db. induction l as [|r0 l IH]; intros db Hw Hu Hf; [done|].
  apply write_rows_inv in Hw as (db1 & Hw1 & Hw).
  simpl in Hf. destruct (final_row t k l) as [r'|] eqn:Hfl.
  - injection Hf as <-. eapply IH; eauto using rows_unique_by_key_cons.
  - case_decide as Hk0; [|done]. injection Hf as <-.
    apply (write_row_keyed _ _ _ _ Hw1) in Hk0 as Hdb1. destruct Hdb1 as [-> _].
    eapply write_rows_preserve; [done| |].
    + by rewrite tbl_set_tbl_eq, lookup_replace_into_eq.
    + intros r' Hr'. split; [by eapply final_row_None|].
      apply not_true_is_false. intros Hcl.
      apply (final_row_None _ _ _ Hfl Hr'). rewrite <- Hk0.
      apply Hu; [by right|by left|done].
Qed.

(** The rows that clash with a row of the file stay confined to its rowid. *)
Lemma write_rows_confined db l db' r0 k0 :
  write_rows db t l = Ok db' → rows_keyed t l →
  (∀ r, r ∈ l → unique_clash t r0 r = true → key_of t r = Some k0) →
  (∀ k' r', tbl db t !! k' = Some r' → unique_clash t r0 r' = true → k' = k0) →
  ∀ k' r', tbl db' t !! k' = Some r' → unique_clash t r0 r' = true → k' = k0.
Proof.
  revert db. induction l as [|r l IH]; intros db Hw Hkd Hl Hdb.
  { by injection Hw as <-. }
  apply write_rows_inv in Hw as (db1 & Hw1 & Hw).
  apply rows_keyed_cons in Hkd as [[k Hk] Hkd].
  apply (write_row_keyed _ _ _ _ Hw1) in Hk as Hdb1. destruct Hdb1 as [-> _].
  eapply IH; [done..| |].
  - intros r' Hr'. apply Hl. by right.
  - intros k' r'. rewrite tbl_set_tbl_eq.
    destruct (decide (k' = k)) as [->|Hne].
    + rewrite lookup_replace_into_eq. intros [= <-] Hcl.
      specialize (Hl r (ltac:(by left)) Hcl). congruence.
    + rewrite lookup_replace_into_ne by done. intros [Hl' _]. by apply Hdb.
Qed.

Lemma write_rows_stable db l db' r0 k0 k' r' :
  write_rows db t l = Ok db' → rows_keyed t l → rows_unique_by_key t l →
  r0 ∈ l → key_of t r0 = Some k0 →
  tbl db' t !! k' = Some r' → unique_clash t r0 r' = true → k' = k0.
Proof.
  revert db. induction l as [|r l IH]; intros db Hw Hkd Hu Hr0 Hk0;
    [by apply elem_of_nil in Hr0|].
  apply write_rows_inv in Hw as (db1 & Hw1 & Hw).
  pose proof Hkd as Hkd0. apply rows_keyed_cons in Hkd as [[k Hk] Hkd].
  apply elem_of_cons in Hr0 as [->|Hr0].
  - assert (k = k0) as -> by congruence.
    apply (write_row_keyed _ _ _ _ Hw1) in Hk as Hdb1. destruct Hdb1 as [-> _].
    eapply write_rows_confined; [done..| |].
    + intros r1 Hr1 Hcl. rewrite <- Hk0. symmetry.
      apply Hu; [by left|by right|done].
    + intros k1 r1. rewrite tbl_set_tbl_eq.
      destruct (decide (k1 = k0)) as [->|Hne]; [done|].
      rewrite lookup_replace_into_ne by done. intros [_ Hcl] Hcl'. congruence.
  - eapply IH; eauto using rows_unique_by_key_cons.
Qed.

(** Each row written satisfied its foreign keys in the store the load started
    from. *)
Lemma write_rows_child_ok db l db' r k :
  write_rows db t l = Ok db' → rows_keyed t l →
  r ∈ l → key_of t r = Some k → child_ok db t k r = true.
Proof.
  revert db. induction l as [|r0 l IH]; intros db Hw Hkd Hr Hk;
    [by apply elem_of_nil in Hr|].
  apply write_rows_inv in Hw as (db1 & Hw1 & Hw).
  apply rows_keyed_cons in Hkd as [[k0 Hk0] Hkd].
  apply (write_row_keyed _ _ _ _ Hw1) in Hk0 as Hdb1. destruct Hdb1 as [-> Hc].
  apply elem_of_cons in Hr as [->|Hr].
  - assert (k = k0) as -> by congruence. done.
  - rewrite <- (child_ok_set_tbl db (replace_into t k0 r0 (tbl db t))).
    by eapply IH.
Qed.

(** *** The second load *)

Lemma put_row_keyed m r k : key_of t r = Some k → put_row t m r = <[k := r]> m.
Proof. unfold put_row. by intros ->. Qed.

Lemma foldl_put_lookup m l k :
  rows_keyed t l →
  foldl (put_row t) m l !! k
  = match final_row t k l with Some r => Some r | None => m !! k end.
Proof.
  revert m. induction l as [|r l IH]; intros m Hkd; [done|].
  apply rows_keyed_cons in Hkd as [[k0 Hk0] Hkd]. simpl.
  rewrite IH by done. destruct (final_row t k l); [done|].
  rewrite (put_row_keyed _ _ _ Hk0), Hk0.
  case_decide; simplify_eq.
  - by rewrite lookup_insert_eq.
  - rewrite lookup_insert_ne; [done|congruence].
Qed.

(** Over a table where every rowid of the file is present and clashes are
    confined, the load overwrites row by row. *)
Lemma rewrite_rows T l :
  rows_keyed t l → rows_unique_by_key t l →
  (∀ r k, r ∈ l → key_of t r = Some k → is_Some (tbl T t !! k)) →
  (∀ r k k' r', r ∈ l → key_of t r = Some k →
     tbl T t !! k' = Some r' → unique_clash t r r' = true → k' = k) →
  (∀ r k, r ∈ l → key_of t r = Some k → child_ok T t k r = true) →
  write_rows T t l = Ok (set_tbl T t (foldl (put_row t) (tbl T t) l)).
Proof.
  revert T. induction l as [|r0 l IH]; intros T Hkd Hu Hdom Hst Hfk.
  { simpl. by rewrite set_tbl_id. }
  pose proof Hkd as Hkd0. apply rows_keyed_cons in Hkd as [[k0 Hk0] Hkd].
  rewrite write_rows_cons. unfold write_row.
  rewrite (rowid_of_key _ _ _ _ Hk0). simpl.
  rewrite (key_of_set_field _ _ _ Hk0).
  rewrite replace_into_insert
    by (intros k' r'; apply (Hst r0 k0); [by left|done]).
  rewrite child_ok_set_tbl, (Hfk r0 k0) by (done || by left).
  assert (parents_ok T (set_tbl T t (<[k0:=r0]> (tbl T t))) t = true) as ->.
  { unfold parents_ok. apply forallb_forall. intros k Hk%list_elem_of_In.
    apply orb_true_iff. left. apply bool_decide_eq_true.
    rewrite tbl_set_tbl_eq. apply list_elem_of_fmap in Hk as ([k1 r1] & -> & Hk).
    apply elem_of_map_to_list in Hk. simpl.
    destruct (decide (k1 = k0)) as [->|Hne].
    - by rewrite lookup_insert_eq.
    - by rewrite lookup_insert_ne. }
  simpl. rewrite IH.
  - by rewrite set_tbl_set_tbl, tbl_set_tbl_eq, (put_row_keyed _ _ _ Hk0).
  - done.
  - by eapply rows_unique_by_key_cons.
  - intros r k Hr Hk. rewrite tbl_set_tbl_eq.
    destruct (decide (k = k0)) as [->|Hne].
    + by rewrite lookup_insert_eq.
    + rewrite lookup_insert_ne by done. apply (Hdom r); [by right|done].
  - intros r k k' r' Hr Hk. rewrite tbl_set_tbl_eq.
    destruct (decide (k' = k0)) as [->|Hne].
    + rewrite lookup_insert_eq. intros [= <-] Hcl.
      assert (key_of t r = key_of t r0) by (apply Hu; [by right|by left|done]).
      congruence.
    + rewrite lookup_insert_ne by done. apply (Hst r); [by right|done].
  - intros r k Hr Hk. rewrite child_ok_set_tbl. apply Hfk; [by right|done].
Qed.

(** Loading the file again into the table the first load left changes
    nothing. *)
Lemma foldl_put_fixed db l db' :
  write_rows db t l = Ok db' → rows_keyed t l → rows_unique_by_key t l →
  foldl (put_row t) (tbl db' t) l = tbl db' t.
Proof.
  intros Hw Hkd Hu. apply map_eq. intros k. rewrite foldl_put_lookup by done.
  destruct (final_row t k l) eqn:Hf; [|done].
  symmetry. by eapply write_rows_final.
Qed.

(** *** The load, rowid by rowid *)

Lemma write_rows_lookup db l db' k :
  write_rows db t l = Ok db' → rows_keyed t l →
  tbl db' t !! k = foldl (write_at t k) (tbl db t !! k) l.
Proof.
  revert db. induction l as [|r l IH]; intros db Hw Hkd.
  { by injection Hw as <-. }
  apply write_rows_inv in Hw as (db1 & Hw1 & Hw).
  apply rows_keyed_cons in Hkd as [[k0 Hk0] Hkd].
  apply (write_row_keyed _ _ _ _ Hw1) in Hk0 as Hdb1. destruct Hdb1 as [-> _].
  rewrite (IH _ Hw Hkd). simpl. f_equal.
  rewrite tbl_set_tbl_eq. unfold write_at. rewrite Hk0.
  case_decide as Hkk.
  - injection Hkk as ->. apply lookup_replace_into_eq.
  - assert (Hne : k ≠ k0) by congruence. apply option_eq. intros x.
    rewrite lookup_replace_into_ne by done.
    destruct (tbl db t !! k) as [y|]; simpl.
    + destruct (unique_clash t r y) eqn:Hc.
      * split; [|done]. intros [[= <-] Hx]. congruence.
      * split; [by intros [? _]|]. intros [= <-]. done.
    + split; [by intros [? _]|done].
Qed.

(** Under a rowid, a load leaves the row that was there when nothing
    disturbed it, and else what it leaves over nothing. *)
Lemma written_at_split k l o :
  foldl (write_at t k) o l =
  match undisturbed t k l o with
  | Some x => Some x
  | None => foldl (write_at t k) None l
  end.
Proof.
  revert o. induction l as [|r l IH]; intros o; simpl.
  { unfold undisturbed. by destruct o. }
  unfold write_at at 2 4. case_decide as Hk.
  - unfold undisturbed. destruct o as [x|]; simpl; [|done].
    by rewrite bool_decide_eq_false_2 by (by intros ?).
  - rewrite IH. unfold undisturbed. destruct o as [x|]; simpl; [|done].
    rewrite bool_decide_eq_true_2 by done. simpl.
    destruct (unique_clash t r x); simpl; [done|].
    by destruct (forallb _ l).
Qed.

Lemma undisturbed_idemp k l o x :
  undisturbed t k l o = Some x → undisturbed t k l (Some x) = Some x.
Proof.
  unfold undisturbed. destruct o as [y|]; simpl; [|done].
  destruct (forallb _ l) eqn:E; [|done]. intros [= <-]. by rewrite E.
Qed.

Lemma undisturbed_Some k l o x : undisturbed t k l o = Some x → o = Some x.
Proof.
  unfold undisturbed. destruct o as [y|]; simpl; [|done].
  by destruct (forallb _ l).
Qed.

(** Under a rowid, loading twice leaves what loading once leaves. *)
Lemma written_at_idemp k l o :
  foldl (write_at t k) (foldl (write_at t k) o l) l = foldl (write_at t k) o l.
Proof.
  rewrite (written_at_split k l o).
  destruct (undisturbed t k l o) as [x|] eqn:Eo.
  - rewrite written_at_split. by rewrite (undisturbed_idemp _ _ _ _ Eo).
  - rewrite (written_at_split k l (foldl _ None l)).
    destruct (undisturbed t k l (foldl _ None l)) as [y|] eqn:Ey; [|done].
    by apply undisturbed_Some in Ey.
Qed.

(** A second load that returns leaves the table as the first left it. *)
Lemma rewrite_rows_fixed S S1 T T1 l :
  write_rows S t l = Ok S1 → rows_keyed t l →
  write_rows T t l = Ok T1 → tbl T t = tbl S1 t → T1 = T.
Proof.
  intros Hw1 Hk Hw2 Et. apply store_eq. intros t'.
  destruct (decide (t' = t)) as [->|Hne]; [|by eapply write_rows_frame].
  apply map_eq. intros k.
  rewrite (write_rows_lookup _ _ _ k Hw2 Hk), Et.
  rewrite (write_rows_lookup _ _ _ k Hw1 Hk).
  apply written_at_idemp.
Qed.

(** A table without UNIQUE columns. *)
Lemma rows_unique_by_key_vacuous l :
  unique_cols t = [] → rows_unique_by_key t l.
Proof. intros E r1 r2 _ _. unfold unique_clash. by rewrite E. Qed.

End Reload.

(** ** The control flow of [ingest] *)

Section Flow.
Context `{Numerics}.

(** [ingest_body] is the loads, then, when none raised, the recomputation and
    the optional report. *)
Lemma ingest_body_eq dir write_ltv w0 :
  ingest_body dir write_ltv w0 =
  match for_ paths (load_table dir) w0 with
  | (Ok _, w1) => (Ok tt, after_loads w1 write_ltv)
  | (Raise e, w1) => (Raise e, w1)
  end.
Proof.
  unfold ingest_body, after_loads, mbind, M_bind.
  destruct (for_ paths (load_table dir) w0) as [[[]|e] w1]; [|done].
  unfold with_conn, emit, write_report, mret, M_ret; simpl.
  destruct write_ltv; simpl; by rewrite <- ?app_assoc.
Qed.

Lemma ingest_eq dir db_file replace write_ltv :
  ingest dir db_file replace write_ltv =
  ingest_body dir write_ltv (start db_file replace).
Proof. done. Qed.

(** A load leaves the report untouched and only appends to the log. *)
Lemma load_table_skip dir t w :
  dir t = None ∨ dir t = Some [] →
  load_table dir t w = (Ok tt, World (w_db w) (w_ltv w) (w_trace w ++ [EvSkip t])).
Proof. intros [E|E]; unfold load_table; by rewrite E. Qed.

Lemma load_table_spec dir t w :
  load_table dir t w =
  match load_db dir t (w_db w) with
  | Ok db' =>
      (Ok tt, World db' (w_ltv w)
                (w_trace w ++ [match dir t with
                               | Some f =>
                                   match read_csv_rows f with
                                   | [] => EvSkip t
                                   | rows => EvInsert t (length rows)
                                   end
                               | None => EvSkip t
                               end]))
  | Raise e => (Raise e, w)
  end.
Proof.
  unfold load_table, load_db. destruct (dir t) as [f|]; [|done].
  destruct (read_csv_rows f) as [|r rows] eqn:Er; [done|].
  unfold mbind at 1, M_bind, lift.
  assert (Hlen : ∀ l l', coerce_rows l = Ok l' → length l' = length l).
  { induction l as [|x l IH]; intros l'; simpl.
    - by intros [= <-].
    - destruct (coerce_row x); simpl; [|done].
      destruct (coerce_rows l) eqn:El; simpl; [|done].
      intros [= <-]. simpl. f_equal. by apply IH. }
  destruct (coerce_rows (r :: rows)) as [rows'|e] eqn:Ec; simpl; [|done].
  unfold mbind, M_bind, with_conn, emit.
  destruct (insert_rows (w_db w) t rows' (col_map t)); simpl; [|done].
  by rewrite (Hlen _ _ Ec).
Qed.

Lemma load_table_ok dir t w w' :
  load_table dir t w = (Ok tt, w') →
  load_db dir t (w_db w) = Ok (w_db w') ∧ w_ltv w' = w_ltv w
  ∧ ∃ ev, load_event t ev ∧ w_trace w' = w_trace w ++ [ev].
Proof.
  rewrite load_table_spec. destruct (load_db dir t (w_db w)); [|done].
  intros [= <-]. simpl. split_and!; [done..|].
  eexists. split; [|done]. unfold load_event.
  destruct (dir t); [|by left]. destruct (read_csv_rows _); [by left|right; eauto].
Qed.

Lemma load_table_raise dir t w e w' :
  load_table dir t w = (Raise e, w') →
  load_db dir t (w_db w) = Raise e ∧ w' = w.
Proof.
  rewrite load_table_spec. destruct (load_db dir t (w_db w)); [done|].
  by intros [= <- <-].
Qed.

(** The loop, on the database: [loads_db]. *)
Lemma for_loads_db dir ts w :
  (for_ ts (load_table dir) w).1 = (loads_db dir ts (w_db w)).1
  ∧ w_db (for_ ts (load_table dir) w).2 = (loads_db dir ts (w_db w)).2.
Proof.
  revert w. induction ts as [|t ts IH]; intros w; [done|].
  simpl. unfold mbind, M_bind.
  destruct (load_table dir t w) as [[[]|e] w'] eqn:El.
  - apply load_table_ok in El as (-> & _). apply IH.
  - apply load_table_raise in El as (-> & ->). done.
Qed.

(** The loop, on the log: one entry per table loaded, in order. *)
Lemma for_loads_trace dir ts w w' :
  for_ ts (load_table dir) w = (Ok tt, w') →
  w_ltv w' = w_ltv w
  ∧ ∃ evs, Forall2 load_event ts evs ∧ w_trace w' = w_trace w ++ evs.
Proof.
  revert w. induction ts as [|t ts IH]; intros w; simpl.
  - intros [= <-]. split; [done|]. exists []. by rewrite app_nil_r.
  - unfold mbind, M_bind.
    destruct (load_table dir t w) as [[[]|e] w1] eqn:El; [|done].
    intros Hr. apply load_table_ok in El as (_ & Hl & ev & Hev & Ht).
    apply IH in Hr as (Hl' & evs & Hevs & Ht').
    split; [congruence|]. exists (ev :: evs). split; [by constructor|].
    by rewrite Ht', Ht, <- app_assoc.
Qed.

(** The outcome of [ingest] and the database it leaves, from [loads_db]. *)
Lemma ingest_db dir db_file replace write_ltv :
  let run := ingest dir db_file replace write_ltv in
  let ld := loads_db dir paths (w_db (start db_file replace)) in
  run.1 = ld.1
  ∧ w_db run.2 = match ld.1 with Ok _ => update_totals ld.2 | Raise _ => ld.2 end.
Proof.
  cbv zeta. rewrite ingest_eq, ingest_body_eq.
  destruct (for_loads_db dir paths (start db_file replace)) as [E1 E2].
  destruct (for_ paths (load_table dir) (start db_file replace)) as [[[]|e] w1];
    cbn [fst snd] in *; rewrite <- E1, <- E2; done.
Qed.

Lemma ingest_ok_inv dir db_file replace write_ltv w :
  ingest dir db_file replace write_ltv = (Ok tt, w) →
  ∃ w1, for_ paths (load_table dir) (start db_file replace) = (Ok tt, w1)
        ∧ w = after_loads w1 write_ltv
        ∧ loads_db dir paths (w_db (start db_file replace)) = (Ok tt, w_db w1).
Proof.
  rewrite ingest_eq, ingest_body_eq. intros Hr.
  pose proof (for_loads_db dir paths (start db_file replace)) as [E1 E2].
  destruct (for_ paths (load_table dir) (start db_file replace)) as [[[]|e] w1];
    [|done].
  injection Hr as <-. exists w1. split_and!; [done..|].
  cbn [fst snd] in *. by destruct (loads_db _ _ _); cbn [fst snd] in *; subst.
Qed.

Lemma loads_db_cons dir t ts db S :
  loads_db dir (t :: ts) db = (Ok tt, S) →
  ∃ db1, load_db dir t db = Ok db1 ∧ loads_db dir ts db1 = (Ok tt, S).
Proof. simpl. destruct (load_db dir t db) as [db1|]; [eauto|done]. Qed.

(** The loads leave alone the tables that are not loaded. *)
Lemma loads_db_frame dir ts db S t :
  loads_db dir ts db = (Ok tt, S) → t ∉ ts → tbl S t = tbl db t.
Proof.
  revert db. induction ts as [|t0 ts IH]; intros db; [by intros [= ->]|].
  intros (db1 & Hl & Hls)%loads_db_cons [Hne Hni]%not_elem_of_cons.
  rewrite (IH _ Hls Hni). by eapply load_db_frame.
Qed.

(** A table is as its own load left it. *)
Lemma loads_db_table dir ts db S t :
  loads_db dir ts db = (Ok tt, S) → NoDup ts → t ∈ ts →
  ∃ Sa Sb, load_db dir t Sa = Ok Sb ∧ tbl S t = tbl Sb t.
Proof.
  revert db. induction ts as [|t0 ts IH]; intros db Hl Hnd Ht;
    [by apply elem_of_nil in Ht|].
  apply loads_db_cons in Hl as (db1 & Hl & Hls).
  apply NoDup_cons in Hnd as [Hni Hnd].
  destruct (decide (t = t0)) as [->|Hne].
  - exists db, db1. split; [done|]. by eapply loads_db_frame.
  - apply elem_of_cons in Ht as [?|Ht]; [done|]. by eapply IH.
Qed.

Lemma paths_NoDup : NoDup paths.
Proof.
  unfold paths.
  repeat (apply NoDup_cons; split;
          [rewrite ?elem_of_cons, elem_of_nil; intros ?; destruct_or?; done|]).
  apply NoDup_nil_2.
Qed.

(** A load whose file is missing or empty can be left out of the loop. *)
Lemma loads_db_skip dir t ts db :
  load_db dir t = Ok →
  loads_db dir ts db = loads_db dir (filter (λ t', t' ≠ t) ts) db.
Proof.
  intros Hs. revert db. induction ts as [|t' ts IH]; intros db; [done|].
  rewrite filter_cons. destruct (decide (t' ≠ t)) as [Hne|He]; simpl.
  - destruct (load_db dir t' db); [apply IH|done].
  - apply dec_stable in He as ->. rewrite Hs. apply IH.
Qed.

End Flow.

(** ** The recomputation of the totals *)

Section Update.
Context `{Numerics}.

Lemma apply_affinity_real_round v :
  apply_affinity REAL (sql_round v) = sql_round v.
Proof.
  unfold sql_round, mk_real. destruct (as_real v); [|done].
  by destruct (f64_is_nan _).
Qed.

Lemma update_totals_other db t :
  t ≠ orders → tbl (update_totals db) t = tbl db t.
Proof. intros. unfold update_totals. by rewrite tbl_set_tbl_ne. Qed.

Lemma sql_in_item_ids db k :
  sql_in (VInt k) (item_order_ids db) = true ↔ has_items db k.
Proof.
  unfold item_order_ids, has_items. rewrite sql_in_distinct, sql_in_true.
  split.
  - intros (v & Hv & Heq). apply list_elem_of_fmap in Hv as ([ik ir] & -> & Hs).
    apply elem_of_scan in Hs. exists ik, ir. by rewrite sql_eq_sym.
  - intros (ik & ir & Hl & Heq). eexists. split.
    + apply list_elem_of_fmap. exists (ik, ir). split; [done|].
      by apply elem_of_scan.
    + by rewrite sql_eq_sym.
Qed.

Lemma line_totals_ext db db' k :
  tbl db' order_items = tbl db order_items → line_totals db' k = line_totals db k.
Proof. intros E. unfold line_totals. by rewrite E. Qed.

Lemma has_items_ext db db' k :
  tbl db' order_items = tbl db order_items → has_items db' k ↔ has_items db k.
Proof. intros E. unfold has_items. by rewrite E. Qed.

(** The UPDATE, row by row. *)
Lemma update_totals_lookup db k :
  tbl (update_totals db) orders !! k =
  (λ r, if sql_in (VInt k) (item_order_ids db)
        then set_field "total" (sql_round (sql_sum (line_totals db k))) r
        else r) <$> tbl db orders !! k.
Proof.
  unfold update_totals. rewrite tbl_set_tbl_eq, map_lookup_imap.
  rewrite apply_affinity_real_round. by destruct (tbl db orders !! k).
Qed.

Lemma update_totals_with_items db k r :
  tbl (update_totals db) orders !! k = Some r → has_items db k →
  field "total" r = sql_round (sql_sum (line_totals db k)).
Proof.
  rewrite update_totals_lookup. intros Hr Hi.
  apply sql_in_item_ids in Hi. rewrite Hi in Hr.
  destruct (tbl db orders !! k); [|done]. injection Hr as <-.
  apply field_set_field_eq.
Qed.

Lemma update_totals_without_items db k :
  ¬ has_items db k → tbl (update_totals db) orders !! k = tbl db orders !! k.
Proof.
  rewrite update_totals_lookup. intros Hi.
  rewrite <- sql_in_item_ids in Hi. apply not_true_is_false in Hi. rewrite Hi.
  by destruct (tbl db orders !! k).
Qed.

(** Recomputing twice is recomputing once. *)
Lemma update_totals_idemp db : update_totals (update_totals db) = update_totals db.
Proof.
  apply store_eq. intros t. destruct (decide (t = orders)) as [->|Hne].
  - apply map_eq. intros k. rewrite (update_totals_lookup (update_totals db)).
    assert (Ei : tbl (update_totals db) order_items = tbl db order_items)
      by by apply update_totals_other.
    unfold item_order_ids. rewrite (line_totals_ext _ _ _ Ei), Ei.
    fold (item_order_ids db). rewrite update_totals_lookup.
    destruct (tbl db orders !! k); [|done]. simpl.
    destruct (sql_in _ _); [|done]. by rewrite set_field_idemp.
  - by rewrite !update_totals_other.
Qed.

End Update.

(** ** Ingesting twice *)

Section Twice.
Context `{Numerics}.
Variable dir : data_dir.
Hypothesis Hkeyed : keyed dir.

Lemma loaded_rows t S S1 :
  load_db dir t S = Ok S1 →
  ∃ l, loaded dir t = Ok l ∧ write_rows S t l = Ok S1 ∧ rows_keyed t l.
Proof.
  intros Hl. destruct (load_db_ok_loaded _ _ _ _ Hl) as [l Hlo].
  rewrite (load_db_loaded _ _ S _ Hlo) in Hl.
  exists l. split_and!; [done..|].
  eapply write_rows_keyed; [done|]. intros r Hr. by eapply Hkeyed.
Qed.

Lemma loaded_unique t l :
  table_unique_by_key dir t → loaded dir t = Ok l → rows_unique_by_key t l.
Proof.
  intros Hu Hlo r1 r2 Hr1 Hr2 Hcl. unfold key_of. by rewrite (Hu l r1 r2).
Qed.

Lemma table_unique_by_key_vacuous t :
  unique_cols t = [] → table_unique_by_key dir t.
Proof. intros E l r1 r2 _ _ _. unfold unique_clash. by rewrite E. Qed.

(** Loading a file over a table that holds the rowids its first load left. *)
Lemma reload_table t S S1 T :
  table_unique_by_key dir t →
  load_db dir t S = Ok S1 →
  dom (tbl T t) = dom (tbl S1 t) →
  (unique_cols t ≠ [] → tbl T t = tbl S1 t) →
  (∀ fk, fk ∈ FOREIGN_KEY t → dom (tbl S fk.2) ⊆ dom (tbl T fk.2)) →
  ∃ l, rows_keyed t l
       ∧ load_db dir t T = Ok (set_tbl T t (foldl (put_row t) (tbl T t) l))
       ∧ (∀ k r, final_row t k l = Some r → tbl S1 t !! k = Some r)
       ∧ foldl (put_row t) (tbl S1 t) l = tbl S1 t.
Proof.
  intros Hut Hl Hdom Huq Hpar.
  destruct (loaded_rows _ _ _ Hl) as (l & Hlo & Hw & Hk).
  pose proof (loaded_unique _ _ Hut Hlo) as Hu.
  exists l. split; [done|]. rewrite (load_db_loaded _ _ T _ Hlo).
  split_and!.
  - apply rewrite_rows; [done..| | |].
    + intros r k Hr Hkr. apply elem_of_dom. rewrite Hdom. apply elem_of_dom.
      destruct (final_row_is_Some t k l r Hr Hkr) as [r' Hf].
      exists r'. by eapply write_rows_final.
    + intros r k k' r' Hr Hkr Hl' Hcl.
      destruct (unique_cols t) eqn:Eu.
      { unfold unique_clash in Hcl. by rewrite Eu in Hcl. }
      rewrite Huq in Hl' by done. by eapply write_rows_stable.
    + intros r k Hr Hkr. eapply child_ok_mono; [done|].
      by eapply write_rows_child_ok.
  - intros k r Hf. by eapply write_rows_final.
  - by eapply foldl_put_fixed.
Qed.

Lemma foldl_put_dom t (m : gmap Z row) l :
  rows_keyed t l →
  (∀ r k, r ∈ l → key_of t r = Some k → is_Some (m !! k)) →
  dom (foldl (put_row t) m l) = dom m.
Proof.
  intros Hk Hin. apply set_eq. intros k. rewrite !elem_of_dom.
  rewrite foldl_put_lookup by done.
  destruct (final_row t k l) as [r|] eqn:Hf; [|done].
  apply final_row_Some in Hf as [Hr Hkr]. split; [|done].
  intros _. by eapply Hin.
Qed.

Lemma item_order_ids_ext db db' :
  tbl db' order_items = tbl db order_items → item_order_ids db' = item_order_ids db.
Proof. intros E. unfold item_order_ids. by rewrite E. Qed.

Lemma update_totals_dom db : dom (tbl (update_totals db) orders) = dom (tbl db orders).
Proof.
  apply set_eq. intros k. rewrite !elem_of_dom, update_totals_lookup.
  by rewrite fmap_is_Some.
Qed.

Lemma same_but_totals_refl S : same_but_totals S S.
Proof. done. Qed.

Lemma same_but_totals_update S : same_but_totals (update_totals S) S.
Proof.
  split_and!.
  - intros t Ht. by apply update_totals_other.
  - apply update_totals_dom.
  - apply update_totals_idemp.
Qed.

Lemma same_but_totals_dom T S t :
  same_but_totals T S → dom (tbl T t) = dom (tbl S t).
Proof.
  intros (Ho & Hd & _). destruct (decide (t = orders)) as [->|Hne]; [done|].
  by rewrite Ho.
Qed.

(** Reloading orders over a table with other totals leaves a table with other
    totals. *)
Lemma same_but_totals_orders T S l :
  same_but_totals T S → rows_keyed orders l →
  (∀ r k, r ∈ l → key_of orders r = Some k → is_Some (tbl T orders !! k)) →
  (∀ k r, final_row orders k l = Some r → tbl S orders !! k = Some r) →
  same_but_totals (set_tbl T orders (foldl (put_row orders) (tbl T orders) l)) S.
Proof.
  intros (Ho & Hd & Hu) Hk Hin Hf.
  set (T1 := set_tbl T orders _).
  assert (Ei : tbl T1 order_items = tbl S order_items).
  { unfold T1. rewrite tbl_set_tbl_ne by done. by apply Ho. }
  split_and!.
  - intros t Ht. unfold T1. rewrite tbl_set_tbl_ne by done. by apply Ho.
  - unfold T1. rewrite tbl_set_tbl_eq, <- Hd. by apply foldl_put_dom.
  - apply store_eq. intros t. destruct (decide (t = orders)) as [->|Hne].
    + apply map_eq. intros k. rewrite !update_totals_lookup.
      rewrite (item_order_ids_ext _ _ Ei), (line_totals_ext _ _ _ Ei).
      unfold T1. rewrite tbl_set_tbl_eq, foldl_put_lookup by done.
      destruct (final_row orders k l) as [r|] eqn:Hfk.
      * by rewrite (Hf k r).
      * assert (Ei' : tbl T order_items = tbl S order_items) by by apply Ho.
        rewrite <- (item_order_ids_ext _ _ Ei'), <- (line_totals_ext _ _ _ Ei').
        rewrite <- (update_totals_lookup T), Hu.
        rewrite update_totals_lookup.
        by rewrite (item_order_ids_ext _ _ Ei'), (line_totals_ext _ _ _ Ei').
    + rewrite !update_totals_other by done.
      unfold T1. rewrite tbl_set_tbl_ne by done. by apply Ho.
Qed.

Lemma parents_first_cons t ts :
  parents_first (t :: ts) = true →
  (∀ fk, fk ∈ FOREIGN_KEY t → fk.2 ∉ t :: ts) ∧ parents_first ts = true.
Proof.
  simpl. intros [Hp ?]%andb_true_iff. split; [|done].
  intros fk Hfk. rewrite forallb_forall in Hp.
  apply list_elem_of_In in Hfk. specialize (Hp fk Hfk).
  by apply bool_decide_eq_true in Hp.
Qed.

(** The second loop: over a store that is the first run's but for the totals,
    every load returns and leaves such a store; over the very store the first
    loop left, it leaves that store. *)
Lemma reloads ts S S_end T :
  (∀ t, t ∈ ts → table_unique_by_key dir t) →
  loads_db dir ts S = (Ok tt, S_end) → NoDup ts → parents_first ts = true →
  same_but_totals T S_end →
  ∃ T', loads_db dir ts T = (Ok tt, T') ∧ same_but_totals T' S_end
        ∧ (T = S_end → T' = S_end).
Proof.
  intros Hut. revert S T.
  induction ts as [|t ts IH]; intros S T Hl Hnd Hpf Hrel.
  { exists T. by injection Hl as <-. }
  apply loads_db_cons in Hl as Hl'. destruct Hl' as (S1 & Hl1 & Hls).
  apply NoDup_cons in Hnd as [Hni Hnd].
  apply parents_first_cons in Hpf as [Hpar Hpf].
  assert (Et : tbl S_end t = tbl S1 t) by by eapply loads_db_frame.
  assert (Hut' : ∀ t', t' ∈ ts → table_unique_by_key dir t')
    by (intros t' Ht'; apply Hut; by right).
  destruct (reload_table t S S1 T (Hut t ltac:(by left)) Hl1)
    as (l & Hk & Hld & Hfin & Hfix).
  { rewrite <- Et. by apply same_but_totals_dom. }
  { intros Hu. rewrite <- Et. apply Hrel. intros ->. by apply Hu. }
  { intros fk Hfk. rewrite (same_but_totals_dom T S_end) by done.
    by rewrite (loads_db_frame _ _ _ _ fk.2 Hl (Hpar fk Hfk)). }
  set (T1 := set_tbl T t (foldl (put_row t) (tbl T t) l)) in *.
  assert (Hrel1 : same_but_totals T1 S_end).
  { destruct (decide (t = orders)) as [->|Hne].
    - apply same_but_totals_orders; [done..| |].
      + intros r k Hr Hkr. apply elem_of_dom.
        rewrite (same_but_totals_dom T S_end) by done. rewrite Et.
        apply elem_of_dom. destruct (final_row_is_Some orders k l r Hr Hkr) as [r' Hf].
        exists r'. by apply Hfin.
      + intros k r Hf. rewrite Et. by apply Hfin.
    - assert (T1 = T) as ->; [|done].
      unfold T1. destruct Hrel as (Ho & _). rewrite (Ho t Hne), Et, Hfix.
      by rewrite <- Et, <- (Ho t Hne), set_tbl_id. }
  destruct (IH Hut' S1 T1 Hls Hnd Hpf Hrel1) as (T' & Hl' & Hrel' & Hex).
  exists T'. split_and!; [|done|].
  - simpl. by rewrite Hld.
  - intros ->. apply Hex. unfold T1. by rewrite Et, Hfix, <- Et, set_tbl_id.
Qed.

Lemma loads_db_app ts1 ts2 db :
  loads_db dir (ts1 ++ ts2) db =
  match loads_db dir ts1 db with
  | (Ok _, db1) => loads_db dir ts2 db1
  | r => r
  end.
Proof.
  revert db. induction ts1 as [|t ts1 IH]; intros db; [done|]. simpl.
  destruct (load_db dir t db); [apply IH|done].
Qed.

Lemma loads_db_raise ts db e S :
  loads_db dir ts db = (Raise e, S) →
  ∃ pre t post, ts = pre ++ t :: post
                ∧ loads_db dir pre db = (Ok tt, S) ∧ load_db dir t S = Raise e.
Proof.
  revert db. induction ts as [|t ts IH]; intros db; [done|]. simpl.
  destruct (load_db dir t db) as [db1|e'] eqn:Hl.
  - intros (pre & t' & post & -> & Hpre & Ht)%IH.
    exists (t :: pre), t', post. split_and!; [done| |done]. simpl. by rewrite Hl.
  - intros [= <- <-]. by exists [], t, ts.
Qed.

Lemma parents_first_app_l ts1 ts2 :
  parents_first (ts1 ++ ts2) = true → parents_first ts1 = true.
Proof.
  induction ts1 as [|t ts1 IH]; [done|]. simpl.
  rewrite !andb_true_iff, !forallb_forall. intros [Hp Hpf]. split; [|by apply IH].
  intros fk Hfk. specialize (Hp fk Hfk).
  apply bool_decide_eq_true. apply bool_decide_eq_true in Hp.
  rewrite !not_elem_of_cons in *. rewrite not_elem_of_app in Hp. tauto.
Qed.

Lemma NoDup_app_l (ts1 ts2 : list table) : NoDup (ts1 ++ ts2) → NoDup ts1.
Proof. by intros [? _]%NoDup_app. Qed.

(** The second run of the loop and of the recomputation, over tables whose
    files are unique by key. *)
Lemma loads_twice ts S0 :
  NoDup ts → parents_first ts = true →
  (∀ t, t ∈ ts → table_unique_by_key dir t) →
  let run1 := loads_db dir ts S0 in
  let run2 := loads_db dir ts (left_by run1) in
  run2.1 = run1.1 ∧ left_by run2 = left_by run1.
Proof.
  intros Hnd Hpf Hut. cbv zeta. unfold left_by.
  destruct (loads_db dir ts S0) as [[[]|e] S] eqn:Hl; cbn [fst snd].
  - destruct (reloads ts S0 S (update_totals S) Hut Hl Hnd Hpf)
      as (T' & Hl' & (_ & _ & Hu) & _); [apply same_but_totals_update|].
    rewrite Hl'. cbn [fst snd]. by rewrite Hu.
  - apply loads_db_raise in Hl as (pre & t & post & Hp & Hpre & Ht).
    rewrite Hp in Hnd, Hpf.
    destruct (reloads pre S0 S S) as (T' & Hl' & _ & Hex).
    + intros t' Ht'. apply Hut. rewrite Hp. apply elem_of_app. by left.
    + done.
    + by eapply NoDup_app_l.
    + by eapply parents_first_app_l.
    + apply same_but_totals_refl.
    + rewrite (Hex eq_refl) in Hl'.
      rewrite Hp, loads_db_app, Hl'. simpl. by rewrite Ht.
Qed.

(** The loop leaves alone the tables it does not load, also when it
    raises. *)
Lemma loads_db_frame_any ts db t :
  t ∉ ts → tbl (loads_db dir ts db).2 t = tbl db t.
Proof.
  revert db. induction ts as [|t0 ts IH]; intros db; [done|].
  intros [Hne Hni]%not_elem_of_cons. simpl.
  destruct (load_db dir t0 db) as [db1|] eqn:Hl; [|done].
  rewrite IH by done. by eapply load_db_frame.
Qed.

Lemma left_by_other r t : t ≠ orders → tbl (left_by r) t = tbl r.2 t.
Proof.
  intros Hne. unfold left_by. destruct r.1; [|done]. by apply update_totals_other.
Qed.

(** The second run of the whole loop: the customers first, whose reload
    either raises and leaves the store as it is, or returns and leaves the
    table as it was; then the other tables, which have no UNIQUE column. *)
Lemma ingest_twice_db S0 :
  left_by (loads_db dir paths (left_by (loads_db dir paths S0)))
  = left_by (loads_db dir paths S0).
Proof.
  set (rest := [products; orders; order_items; reviews]).
  assert (Hp : paths = customers :: rest) by done. rewrite Hp.
  assert (Hnd : NoDup rest).
  { pose proof paths_NoDup as Hn. rewrite Hp in Hn. by apply NoDup_cons in Hn as [_ ?]. }
  assert (Hut : ∀ t, t ∈ rest → table_unique_by_key dir t).
  { intros t Ht. apply table_unique_by_key_vacuous. unfold rest in Ht.
    repeat (apply elem_of_cons in Ht as [->|Ht]); try done.
    by apply elem_of_nil in Ht. }
  assert (Hni : customers ∉ rest).
  { unfold rest. rewrite !elem_of_cons, elem_of_nil. intros ?; destruct_or?; done. }
  destruct (loads_twice rest) with (S0 := default S0 (match load_db dir customers S0
                                              with Ok S1 => Some S1 | _ => None end))
    as [_ Hrest]; [done..|].
  cbn [loads_db].
  destruct (load_db dir customers S0) as [S1|e] eqn:Hl1.
  - simpl in Hrest. set (run1 := loads_db dir rest S1) in *.
    assert (Ec : tbl (left_by run1) customers = tbl S1 customers).
    { rewrite left_by_other by done. by apply loads_db_frame_any. }
    destruct (load_db dir customers (left_by run1)) as [T1|e'] eqn:Hl2.
    + destruct (loaded_rows _ _ _ Hl1) as (l & Hlo & Hw1 & Hk).
      rewrite (load_db_loaded _ _ (left_by run1) _ Hlo) in Hl2.
      rewrite (rewrite_rows_fixed customers S0 S1 (left_by run1) T1 l) by done.
      done.
    + unfold left_by at 1. done.
  - unfold left_by at 2 3. cbn [fst snd]. rewrite Hl1. done.
Qed.

End Twice.

(** ** The LTV query *)

Section Ltv.
Context `{Numerics}.

Lemma sort_compare_refl v : sort_compare v v = Eq.
Proof.
  apply sort_compare_eq. destruct (classify v) as [|x|]; try done.
  destruct x as [|m e|]; try done. simpl. apply Z.compare_refl.
Qed.

Lemma sort_compare_int a b : sort_compare (VInt a) (VInt b) = Eq ↔ a = b.
Proof.
  rewrite sort_compare_eq. simpl. rewrite Z.compare_eq_iff.
  rewrite Z.min_id, Z.sub_diag. simpl. lia.
Qed.

Lemma same_key_refl k : same_key k k = true.
Proof.
  apply bool_decide_eq_true. induction k; constructor; [|done].
  apply sort_compare_refl.
Qed.

Lemma same_key_customer co1 co2 :
  same_key (customer_key co1) (customer_key co2) = true → co1.1.1 = co2.1.1.
Proof.
  intros Hs%bool_decide_eq_true. apply Forall2_cons_1 in Hs as [Hs _].
  by apply sort_compare_int.
Qed.

Lemma filter_all {A} (P : A → Prop) `{!∀ x, Decision (P x)} (l : list A) :
  (∀ x, x ∈ l → P x) → filter P l = l.
Proof.
  induction l as [|x l IH]; intros HP; [done|].
  rewrite filter_cons_True by (apply HP; by left).
  rewrite IH; [done|]. intros y Hy. apply HP. by right.
Qed.

Lemma filter_none {A} (P : A → Prop) `{!∀ x, Decision (P x)} (l : list A) :
  (∀ x, x ∈ l → ¬ P x) → filter P l = [].
Proof.
  induction l as [|x l IH]; intros HP; [done|].
  rewrite filter_cons_False by (apply HP; by left).
  apply IH. intros y Hy. apply HP. by right.
Qed.

Section Groups.
Context {A : Type} (key : A → list value).

Lemma group_keys_subset l k : k ∈ group_keys key l → ∃ x, x ∈ l ∧ k = key x.
Proof.
  revert k. induction l as [|x l IH]; intros k; simpl; [by intros ?%elem_of_nil|].
  rewrite elem_of_cons, list_elem_of_filter. intros [->|[_ Hk]].
  - exists x. split; [by left|done].
  - destruct (IH k Hk) as (y & Hy & ->). exists y. split; [by right|done].
Qed.

(** A block of rows with one key, followed by rows with other keys, makes
    one group at the head. *)
Lemma group_keys_block kc b l :
  b ≠ [] → (∀ x, x ∈ b → key x = kc) →
  (∀ x, x ∈ l → same_key kc (key x) = false) →
  group_keys key (b ++ l) = kc :: group_keys key l.
Proof.
  intros Hne Hb Hl.
  assert (HG : ∀ b', (∀ x, x ∈ b' → key x = kc) →
    filter (λ k, same_key kc k = false) (group_keys key (b' ++ l))
    = group_keys key l).
  { induction b' as [|x b' IH]; intros Hb'; simpl.
    - apply filter_all. intros k (x & Hx & ->)%group_keys_subset. by apply Hl.
    - rewrite (Hb' x) by by left.
      rewrite filter_cons_False by by rewrite same_key_refl.
      rewrite list_filter_filter_l by done.
      apply IH. intros y Hy. apply Hb'. by right. }
  destruct b as [|x b]; [done|]. simpl.
  rewrite (Hb x) by by left. f_equal. apply HG.
  intros y Hy. apply Hb. by right.
Qed.

End Groups.

(** *** The join, customer by customer *)

Lemma left_join_cons c cs os :
  left_join (c :: cs) os = joined_block c os ++ left_join cs os.
Proof. done. Qed.

Lemma joined_block_not_nil c os : joined_block c os ≠ [].
Proof.
  unfold joined_block. by destruct (filter _ os).
Qed.

Lemma joined_block_left c os co : co ∈ joined_block c os → co.1 = c.
Proof.
  unfold joined_block. destruct (filter _ os) as [|o ms].
  - by intros ->%list_elem_of_singleton.
  - by intros (? & -> & _)%list_elem_of_fmap.
Qed.

Lemma left_join_left cs os co : co ∈ left_join cs os → co.1 ∈ cs.
Proof.
  induction cs as [|c cs IH]; [by intros ?%elem_of_nil|].
  rewrite left_join_cons, elem_of_app.
  intros [->%joined_block_left|?]; [by left|right; by apply IH].
Qed.

Lemma other_customer_key c cs os co :
  c.1 ∉ cs.*1 → co ∈ left_join cs os →
  same_key (customer_key (c, None)) (customer_key co) = false.
Proof.
  intros Hni Hco%left_join_left. apply not_true_is_false.
  intros Hs%same_key_customer. apply Hni. simpl in Hs. rewrite Hs.
  by apply list_elem_of_fmap_2.
Qed.

Lemma group_keys_left_join cs os :
  NoDup cs.*1 →
  group_keys customer_key (left_join cs os) = (λ c, customer_key (c, None)) <$> cs.
Proof.
  induction cs as [|c cs IH]; [done|]. rewrite fmap_cons.
  intros [Hni Hnd]%NoDup_cons.
  rewrite left_join_cons, fmap_cons, <- IH by done.
  apply group_keys_block.
  - apply joined_block_not_nil.
  - intros co Hco%joined_block_left. unfold customer_key. by rewrite Hco.
  - intros co. by apply other_customer_key.
Qed.

Lemma group_of_customer c cs os :
  NoDup cs.*1 → c ∈ cs →
  filter (λ co, same_key (customer_key (c, None)) (customer_key co) = true)
    (left_join cs os)
  = joined_block c os.
Proof.
  induction cs as [|c' cs IH]; [by intros _ ?%elem_of_nil|]. rewrite fmap_cons.
  intros [Hni Hnd]%NoDup_cons Hc. rewrite left_join_cons, filter_app.
  destruct (decide (c = c')) as [<-|Hne].
  - rewrite filter_all, filter_none, app_nil_r; [done| |].
    + intros co Hco. by rewrite (other_customer_key c cs os).
    + intros co Hco%joined_block_left. unfold customer_key. rewrite Hco.
      apply same_key_refl.
  - apply elem_of_cons in Hc as [?|Hc]; [done|].
    rewrite IH by done. rewrite filter_none; [done|].
    intros co Hco Hs%same_key_customer.
    apply joined_block_left in Hco. simpl in Hs.
    assert (Hcc : c.1 ≠ c'.1); [|by rewrite Hs, Hco in Hcc].
    intros E. apply Hni. rewrite <- E. by apply list_elem_of_fmap_2.
Qed.

(** *** The aggregates over a group *)

Lemma sql_distinct_ints (ks : list Z) :
  NoDup ks → sql_distinct (VInt <$> ks) = VInt <$> ks.
Proof.
  induction ks as [|k ks IH]; [done|]. intros [Hni Hnd]%NoDup_cons.
  rewrite fmap_cons. cbn [sql_distinct].
  rewrite IH by done. f_equal. apply filter_all.
  intros v (k' & -> & Hk')%list_elem_of_fmap. rewrite sort_compare_int.
  by intros ->.
Qed.

Lemma count_distinct_ids (ms : list (Z * row)) :
  NoDup ms.*1 →
  sql_count_distinct ((λ o, cell orders "order_id" o.1 o.2) <$> ms)
  = Z.of_nat (length ms).
Proof.
  intros Hnd. unfold sql_count_distinct.
  assert ((λ o : Z * row, cell orders "order_id" o.1 o.2) <$> ms = VInt <$> ms.*1)
    as -> by by rewrite <- list_fmap_compose.
  rewrite filter_all by by intros v (k & -> & _)%list_elem_of_fmap.
  by rewrite sql_distinct_ints, !length_fmap.
Qed.

Lemma NoDup_fst_filter {A B} (P : A * B → Prop) `{!∀ x, Decision (P x)}
    (l : list (A * B)) :
  NoDup l.*1 → NoDup (filter P l).*1.
Proof.
  induction l as [|x l IH]; [done|]. intros [Hni Hnd]%NoDup_cons.
  rewrite filter_cons. case_decide; [|by apply IH]. simpl.
  apply NoDup_cons. split; [|by apply IH].
  intros (y & Hy1 & [_ Hy]%list_elem_of_filter)%list_elem_of_fmap.
  apply Hni. rewrite Hy1. by apply list_elem_of_fmap_2.
Qed.

(** The select list over the group of a customer is the customer's figures
    over the completed orders. *)
Lemma ltv_row_customer db c :
  ltv_row (customer_key (c, None), joined_block c (scan (tbl db orders)))
  = customer_ltv db c.
Proof.
  unfold ltv_row, customer_ltv, completed_orders, joined_block. cbn [fst snd].
  pose proof (NoDup_fst_filter (λ o : Z * row, join_on c.1 o = true) _
                (scan_NoDup_keys (tbl db orders))) as Hnd.
  destruct (filter (λ o : Z * row, join_on c.1 o = true) (scan (tbl db orders)))
    as [|o ms]; [done|].
  set (os := o :: ms) in *.
  assert (Hc : ∀ col, o_cell col <$> ((λ o, (c, Some o)) <$> os).*2
                      = (λ o, cell orders col o.1 o.2) <$> os).
  { intros col. by rewrite <- !list_fmap_compose. }
  by rewrite !Hc, count_distinct_ids.
Qed.

(** The report is one row of figures per customer. *)
Lemma ltv_query_customers db :
  ltv_query db ≡ₚ customer_ltv db <$> scan (tbl db customers).
Proof.
  unfold ltv_query. rewrite merge_sort_Permutation.
  unfold group_by.
  rewrite group_keys_left_join by apply scan_NoDup_keys.
  rewrite <- !list_fmap_compose.
  apply eq_subrelation; [apply _|].
  apply Forall_fmap_ext, Forall_forall. intros c Hc. simpl.
  rewrite group_of_customer by (apply scan_NoDup_keys || done).
  apply ltv_row_customer.
Qed.

(** The report [ingest] writes. *)
Lemma ingest_report dir db_file replace w :
  ingest dir db_file replace true = (Ok tt, w) →
  w_ltv w = Some (ltv_headers, ltv_query (w_db w)).
Proof. by intros (w1 & _ & -> & _)%ingest_ok_inv. Qed.


End Ltv.

(** ** The numerics of the reference instance *)

Lemma Qpower2_pos e : (0 < 2 ^ e)%Q.
Proof. apply Qpower_0_lt. reflexivity. Qed.

Lemma Qpower2_add a b : (2 ^ (a + b) == 2 ^ a * 2 ^ b)%Q.
Proof. apply Qpower_plus. discriminate. Qed.

Lemma Qpower2_Z (n : Z) : 0 ≤ n → (2 ^ n == inject_Z (2 ^ n))%Q.
Proof. intros Hn. by rewrite (Zpower_Qpower 2 n Hn). Qed.

Lemma ilog2_le q : (0 < q)%Q → (2 ^ Ref.ilog2 q <= q)%Q.
Proof.
  intros Hq. unfold Ref.ilog2.
  set (e := Z.log2 (Qnum q) - Z.log2 (Z.pos (Qden q))).
  destruct (Qle_bool (2 ^ e) q) eqn:Eb; [by apply Qle_bool_iff|].
  destruct q as [n d]. unfold Qlt in Hq. cbn [Qnum Qden] in Hq, e.
  assert (Hn : 0 < n) by lia.
  pose proof (Z.log2_spec n Hn) as [Hn1 _].
  pose proof (Z.log2_spec (Z.pos d) ltac:(lia)) as [_ Hd2].
  pose proof (Z.log2_nonneg n) as Hl1.
  pose proof (Z.log2_nonneg (Z.pos d)) as Hl2.
  set (ln := Z.log2 n) in *. set (ld := Z.log2 (Z.pos d)) in *.
  assert (H1 : (inject_Z (Z.pos d) <= 2 ^ Z.succ ld)%Q).
  { rewrite Qpower2_Z by lia. rewrite <- Zle_Qle. lia. }
  assert (H2 : (2 ^ ln <= inject_Z n)%Q).
  { rewrite Qpower2_Z by lia. by rewrite <- Zle_Qle. }
  assert (H3 : (2 ^ (e - 1) * 2 ^ Z.succ ld == 2 ^ ln)%Q).
  { rewrite <- Qpower2_add. by replace (e - 1 + Z.succ ld) with ln by (unfold e; lia). }
  pose proof (Qpower2_pos (e - 1)) as H4.
  rewrite (Qmake_Qdiv n d). apply Qle_shift_div_l; [reflexivity|].
  apply Qle_trans with (2 ^ (e - 1) * 2 ^ Z.succ ld)%Q; [|by rewrite H3].
  apply Qmult_le_l; [done|done].
Qed.

(** Rounding to [p] bits moves a number by at most [2^-p] of itself. *)
Lemma round_bits_err p q :
  (0 < q)%Q → (Qabs (Ref.round_bits p q - q) <= q * 2 ^ (- p))%Q.
Proof.
  intros Hq. unfold Ref.round_bits.
  set (sh := p - 1 - Ref.ilog2 q). set (t := (q * 2 ^ sh)%Q).
  set (fl := Qfloor t).
  set (m := match (t - inject_Z fl ?= 1 # 2)%Q with
            | Lt => fl | Gt => fl + 1
            | Eq => if Z.even fl then fl else fl + 1 end).
  pose proof (Qfloor_le t) as Hfl1. pose proof (Qlt_floor t) as Hfl2.
  fold fl in Hfl1, Hfl2. rewrite inject_Z_plus in Hfl2.
  change (inject_Z 1) with 1%Q in Hfl2.
  assert (Hm : (Qabs (inject_Z m - t) <= 1 # 2)%Q).
  { apply Qabs_Qle_condition. unfold m.
    destruct (t - inject_Z fl ?= 1 # 2)%Q eqn:Ec.
    - apply Qeq_alt in Ec.
      destruct (Z.even fl); rewrite ?inject_Z_plus;
        change (inject_Z 1) with 1%Q; split; lra.
    - apply Qlt_alt in Ec. split; lra.
    - apply Qgt_alt in Ec. rewrite inject_Z_plus.
      change (inject_Z 1) with 1%Q. split; lra. }
  apply Qabs_Qle_condition in Hm as [Hm1 Hm2].
  set (u := (inject_Z m - t)%Q) in *.
  set (w := (2 ^ (- sh))%Q).
  assert (Hw : (0 < w)%Q) by apply Qpower2_pos.
  assert (E1 : (2 ^ sh * w == 1)%Q).
  { unfold w. rewrite <- Qpower2_add, Z.add_opp_diag_r. reflexivity. }
  assert (E2 : (inject_Z m * w - q == u * w)%Q).
  { unfold u, t. transitivity (inject_Z m * w - q * (2 ^ sh * w))%Q; [|ring].
    rewrite E1. ring. }
  assert (E3 : (w == 2 ^ Ref.ilog2 q * (2 * 2 ^ (- p)))%Q).
  { unfold w, sh.
    replace (- (p - 1 - Ref.ilog2 q)) with (Ref.ilog2 q + (1 + - p)) by lia.
    rewrite !Qpower2_add. reflexivity. }
  pose proof (ilog2_le q Hq) as Hl. pose proof (Qpower2_pos (- p)) as Hp.
  pose proof (Qpower2_pos (Ref.ilog2 q)) as Hl0.
  set (l := (2 ^ Ref.ilog2 q)%Q) in *. set (z := (2 ^ (- p))%Q) in *.
  assert (H5 : (w <= 2 * (q * z))%Q).
  { rewrite E3. nra. }
  rewrite E2. apply Qabs_Qle_condition. split; nra.
Qed.

Lemma round_bits_64 q :
  (0 < q)%Q →
  (q * (1 - (1 # 18446744073709551616)) <= Ref.round_bits 64 q
   ∧ Ref.round_bits 64 q <= q * (1 + (1 # 18446744073709551616)))%Q.
Proof.
  intros Hq. pose proof (round_bits_err 64 q Hq) as H.
  change (Qpower 2 (Z.opp 64)) with (1 # 18446744073709551616)%Q in H.
  apply Qabs_Qle_condition in H. lra.
Qed.

Lemma round_bits_53 q :
  (0 < q)%Q →
  (q * (1 - (1 # 9007199254740992)) <= Ref.round_bits 53 q
   ∧ Ref.round_bits 53 q <= q * (1 + (1 # 9007199254740992)))%Q.
Proof.
  intros Hq. pose proof (round_bits_err 53 q Hq) as H.
  change (Qpower 2 (Z.opp 53)) with (1 # 9007199254740992)%Q in H.
  apply Qabs_Qle_condition in H. lra.
Qed.

Lemma dyadic_pos m e : (0 < dyadic m e)%Q.
Proof.
  unfold dyadic. apply Qmult_lt_0_compat; [|apply Qpower2_pos]. reflexivity.
Qed.

Lemma rounder_bounds a :
  (0 < a)%Q →
  ((4999999999999999 # 1000000000000000000) <= Ref.rounder a
   ∧ Ref.rounder a <= (5000000000000001 # 1000000000000000000)
                    + a * (1 # 3000000000000000))%Q.
Proof.
  intros Ha. unfold Ref.rounder. destruct (Qle_bool (2 ^ 39) a).
  { unfold Ref.R0. split; lra. }
  assert (H1 : (0 < a * Ref.C3)%Q) by (unfold Ref.C3; lra).
  destruct (round_bits_64 _ H1) as [L1 U1].
  assert (H2 : (0 < Ref.R0 + Ref.round_bits 64 (a * Ref.C3))%Q)
    by (unfold Ref.R0, Ref.C3 in *; lra).
  destruct (round_bits_64 _ H2) as [L2 U2].
  assert (H3 : (0 < Ref.round_bits 64 (Ref.R0 + Ref.round_bits 64 (a * Ref.C3)))%Q)
    by (unfold Ref.R0, Ref.C3 in *; lra).
  destruct (round_bits_53 _ H3) as [L3 U3].
  unfold Ref.R0, Ref.C3 in *. split; lra.
Qed.

(** The hundredths printed lie within the unit of the last digit kept. *)
Lemma cents_bounds v :
  (0 < v)%Q →
  0 ≤ Ref.cents v
  ∧ (inject_Z (Ref.cents v) <= 100 * v)%Q
  ∧ ((100 * v < inject_Z (Ref.cents v) + 1)%Q
     ∨ (100 * v < inject_Z (Ref.cents v) * (1 + (1 # 1000000000000000)))%Q).
Proof.
  intros Hv. unfold Ref.cents. set (i := Qfloor (100 * v)).
  pose proof (Qfloor_le (100 * v)) as Hi1. pose proof (Qlt_floor (100 * v)) as Hi2.
  fold i in Hi1, Hi2. rewrite inject_Z_plus in Hi2.
  change (inject_Z 1) with 1%Q in Hi2.
  assert (Hi0 : 0 ≤ i).
  { apply (Qfloor_resp_le 0 (100 * v)). lra. }
  set (u := if 10 ^ 17 <=? i then 100 else if 10 ^ 16 <=? i then 10 else 1).
  assert (Hu : 0 < u) by (unfold u; repeat case_match; lia).
  pose proof (Z.mul_div_le i u Hu) as Hc1.
  pose proof (Z.mul_succ_div_gt i u Hu) as Hc2.
  assert (Hc0 : 0 ≤ i / u * u) by (pose proof (Z.div_pos i u Hi0 Hu); nia).
  split; [done|]. split.
  { apply Qle_trans with (inject_Z i); [|done]. rewrite <- Zle_Qle. lia. }
  unfold u in *. clear u.
  destruct (10 ^ 17 <=? i) eqn:E17; [|destruct (10 ^ 16 <=? i) eqn:E16].
  - right. apply Z.leb_le in E17.
    assert (H1 : (inject_Z i <= inject_Z (i / 100 * 100) + 99)%Q).
    { change 99%Q with (inject_Z 99). rewrite <- inject_Z_plus, <- Zle_Qle. lia. }
    assert (H2 : (100000000000000000 <= inject_Z (i / 100 * 100))%Q).
    { change 100000000000000000%Q with (inject_Z (10 ^ 17)). rewrite <- Zle_Qle.
      pose proof (Z.div_le_mono (10 ^ 17) i 100 ltac:(lia) E17) as Hd.
      change (10 ^ 17 / 100) with (10 ^ 15) in Hd. lia. }
    lra.
  - right. apply Z.leb_le in E16.
    assert (H1 : (inject_Z i <= inject_Z (i / 10 * 10) + 9)%Q).
    { change 9%Q with (inject_Z 9). rewrite <- inject_Z_plus, <- Zle_Qle. lia. }
    assert (H2 : (10000000000000000 <= inject_Z (i / 10 * 10))%Q).
    { change 10000000000000000%Q with (inject_Z (10 ^ 16)). rewrite <- Zle_Qle.
      pose proof (Z.div_le_mono (10 ^ 16) i 10 ltac:(lia) E16) as Hd.
      change (10 ^ 16 / 10) with (10 ^ 15) in Hd. lia. }
    lra.
  - left. replace (i / 1 * 1) with i by (rewrite Z.div_1_r; lia). done.
Qed.

(** The reference ROUND rounds to 2 decimals. *)
Lemma round2_rounded2 x : rounded2 x (Ref.sql_round2 x).
Proof.
  destruct x as [s'|s'| |s m e]; unfold rounded2, Ref.sql_round2; cbv zeta;
    [by eexists|done|done|].
  destruct (Qle_bool (dyadic m e) (2 ^ 52)) eqn:Eb; [|done].
  pose proof (dyadic_pos m e) as Ha. set (a := dyadic m e) in *.
  destruct (rounder_bounds a Ha) as [Lr Ur]. set (rd := Ref.rounder a) in *.
  assert (Hs : (0 < a + rd)%Q) by lra.
  destruct (round_bits_64 _ Hs) as [Lv Uv].
  set (v := Ref.round_bits 64 (a + rd)) in *.
  assert (Hv : (0 < v)%Q) by lra.
  destruct (cents_bounds v Hv) as (Hc0 & Hc1 & Hc2).
  exists (Ref.cents v). split; [done|]. split; [|split].
  - unfold slack. apply Qabs_Qle_condition.
    destruct Hc2 as [Hc2|Hc2]; split; lra.
  - intros ->. by exists s.
  - done.
Qed.

Lemma digits2_pos_size p : digits2_pos p = Pos.size p.
Proof. induction p; simpl; congruence. Qed.

(** A shift by one bit of a mantissa of at least two bits. *)
Lemma shr_1_digits mrs :
  1 < Zdigits2 (shr_m mrs) →
  Zdigits2 (shr_m (shr_1 mrs)) = Zdigits2 (shr_m mrs) - 1.
Proof.
  destruct mrs as [[|[p|p|]|[p|p|]] r s];
    cbn [shr_1 shr_m Zdigits2 digits2_pos]; rewrite ?Pos2Z.inj_succ; lia.
Qed.

Lemma iter_pos_shr_1 n mrs :
  Z.pos n < Zdigits2 (shr_m mrs) →
  Zdigits2 (shr_m (SpecFloat.iter_pos shr_1 n mrs)) = Zdigits2 (shr_m mrs) - Z.pos n.
Proof.
  revert mrs. induction n as [n IH|n IH|]; intros mrs Hn; simpl.
  - rewrite IH; rewrite ?IH, ?shr_1_digits; try lia; rewrite ?shr_1_digits; lia.
  - rewrite IH; rewrite ?IH; lia.
  - apply shr_1_digits. lia.
Qed.

Lemma shr_digits mrs e n :
  n < Zdigits2 (shr_m mrs) →
  Zdigits2 (shr_m (shr mrs e n).1) = Zdigits2 (shr_m mrs) - Z.max n 0.
Proof.
  intros Hn. destruct n as [|n|n]; simpl; [lia| |lia].
  rewrite iter_pos_shr_1 by done. lia.
Qed.

Lemma Zdigits2_pos m : 0 < Zdigits2 m ↔ m ≠ 0.
Proof. destruct m; simpl; split; intros; try done; lia. Qed.

Lemma shr_m_of_loc m l : shr_m (shr_record_of_loc m l) = m.
Proof. by destruct l as [|[]]. Qed.

Lemma shr_1_nonneg mrs : 0 ≤ shr_m mrs → 0 ≤ shr_m (shr_1 mrs).
Proof. destruct mrs as [[|[p|p|]|[p|p|]] r s]; cbn [shr_1 shr_m]; lia. Qed.

Lemma iter_pos_shr_1_nonneg n mrs :
  0 ≤ shr_m mrs → 0 ≤ shr_m (SpecFloat.iter_pos shr_1 n mrs).
Proof.
  revert mrs. induction n as [n IH|n IH|]; intros mrs Hm; simpl;
    auto using shr_1_nonneg.
Qed.

Lemma Zdigits2_log2 m : 0 < m → Zdigits2 m = Z.log2 m + 1.
Proof.
  destruct m as [|[p|p|]|]; try done; intros _; simpl;
    rewrite digits2_pos_size, Pos2Z.inj_succ; lia.
Qed.

(** What [shr_fexp] leaves of a mantissa of at least 53 bits, at an exponent
    that is not below the least one: 53 bits. *)
Lemma shr_fexp_digits m e l :
  0 < m → 53 ≤ Zdigits2 m → -1074 ≤ e →
  0 ≤ shr_m (shr_fexp 53 1024 m e l).1
  ∧ Zdigits2 (shr_m (shr_fexp 53 1024 m e l).1) = 53
  ∧ e ≤ (shr_fexp 53 1024 m e l).2.
Proof.
  intros Hm Hd He. unfold shr_fexp, fexp, emin.
  replace (Z.max (Zdigits2 m + e - 53) (3 - 1024 - 53) - e)
    with (Zdigits2 m - 53) by lia.
  pose proof (shr_digits (shr_record_of_loc m l) e (Zdigits2 m - 53)) as H.
  rewrite shr_m_of_loc in H. split; [|split].
  - unfold shr. destruct (Zdigits2 m - 53); cbn [fst]; rewrite ?shr_m_of_loc;
      [lia| |lia].
    apply iter_pos_shr_1_nonneg. rewrite shr_m_of_loc. lia.
  - rewrite H by lia. lia.
  - unfold shr. destruct (Zdigits2 m - 53); cbn [snd]; lia.
Qed.

Lemma binary_round_aux_not_zero sx mx ex lx s :
  0 < mx → 53 ≤ Zdigits2 mx → -1074 ≤ ex →
  binary_round_aux 53 1024 sx mx ex lx ≠ S754_zero s.
Proof.
  intros Hm Hd He. unfold binary_round_aux.
  destruct (shr_fexp_digits mx ex lx Hm Hd He) as (H1 & H2 & H3).
  destruct (shr_fexp 53 1024 mx ex lx) as [mrs' e']. cbn [fst snd] in *.
  set (m2 := round_nearest_even (shr_m mrs') (loc_of_shr_record mrs')).
  assert (Hm1 : 0 < shr_m mrs').
  { assert (shr_m mrs' ≠ 0) by (apply Zdigits2_pos; lia). lia. }
  assert (Hm2 : shr_m mrs' ≤ m2).
  { unfold m2, round_nearest_even.
    destruct (loc_of_shr_record mrs') as [|[]]; try lia.
    destruct (Z.even _); lia. }
  assert (Hd2 : 53 ≤ Zdigits2 m2).
  { rewrite Zdigits2_log2 by lia. rewrite Zdigits2_log2 in H2 by lia.
    pose proof (Z.log2_le_mono _ _ Hm2). lia. }
  destruct (shr_fexp_digits m2 e' loc_Exact ltac:(lia) Hd2 ltac:(lia))
    as (K1 & K2 & _).
  destruct (shr_fexp 53 1024 m2 e' loc_Exact) as [mrs'' e'']. cbn [fst] in *.
  destruct (shr_m mrs'') as [|p|p]; [done| |done].
  by destruct (e'' <=? 1024 - 53).
Qed.

Lemma digits2_pos_iter_xO p d :
  Z.pos (digits2_pos (Pos.iter xO p d)) = Z.pos (digits2_pos p) + Z.pos d.
Proof.
  induction d as [|d IH] using Pos.peano_ind.
  - simpl. lia.
  - rewrite Pos.iter_succ. simpl. lia.
Qed.

(** The binary64 of an integer other than 0 is not a zero. *)
Lemma f64_of_Z_not_zero n s : n ≠ 0 → f64_of_Z n ≠ S754_zero s.
Proof.
  intros Hn. unfold f64_of_Z, binary_normalize.
  assert (H : ∀ sx p, binary_round 53 1024 sx p 0 ≠ S754_zero s);
    [|by destruct n].
  intros sx p. unfold binary_round, shl_align, fexp, emin.
  destruct (Z.max (Z.pos (digits2_pos p) + 0 - 53) (3 - 1024 - 53) - 0)
    as [|d|d] eqn:Ed.
  - apply binary_round_aux_not_zero; simpl; lia.
  - apply binary_round_aux_not_zero; simpl; lia.
  - apply binary_round_aux_not_zero; [done| |lia].
    cbn [Zdigits2]. rewrite digits2_pos_iter_xO. lia.
Qed.

(** The reference instance is an engine of the kind the theorems on totals
    ask for. *)
Lemma ref_sum_in_scan_order : @sum_in_scan_order ref_numerics.
Proof. by intros xs. Qed.

Lemma ref_round_to_cents : @round_to_cents ref_numerics.
Proof. intros x. apply round2_rounded2. Qed.

Section Figures.
Context `{Numerics}.
Hypothesis Hsum : sum_in_scan_order.
Hypothesis Hround : round_to_cents.

Lemma f64_is_nan_eq f : f64_is_nan f = true → f = S754_nan.
Proof. by destruct f. Qed.

Lemma sql_sum_value vs : sql_sum vs = sum_value (omap as_real vs).
Proof.
  unfold sql_sum, sum_value. destruct (omap as_real vs) as [|x xs]; [done|].
  by rewrite Hsum.
Qed.

(** ROUND(v, 2) on a REAL or a NULL. *)
Lemma sql_round_real q :
  ∃ t, rounded2 q t ∧ sql_round (mk_real q) = mk_real t.
Proof.
  unfold mk_real at 1. destruct (f64_is_nan q) eqn:En.
  - apply f64_is_nan_eq in En as ->. by exists S754_nan.
  - exists (sql_round2 q). split; [apply Hround|].
    unfold sql_round, as_real. by rewrite En.
Qed.

Lemma sql_round_sum vs :
  (omap as_real vs = [] → sql_round (sql_sum vs) = VNull)
  ∧ (omap as_real vs ≠ [] →
       ∃ t, rounded2 (float_sum (omap as_real vs)) t
            ∧ sql_round (sql_sum vs) = mk_real t).
Proof.
  rewrite sql_sum_value. unfold sum_value.
  destruct (omap as_real vs) as [|x xs]; split; try done.
  intros _. apply sql_round_real.
Qed.

(** ROUND(SUM / COUNT, 2) over a group that is not empty. *)
Lemma sql_round_div_real S n :
  n ≠ 0 → f64_is_nan S = false →
  ∃ t, rounded2 (f64_div S (f64_of_Z n)) t
       ∧ sql_round (sql_div (VReal S) (VInt n)) = mk_real t.
Proof.
  intros Hn HS. unfold sql_div, as_real. rewrite HS.
  destruct (f64_of_Z n) as [s| | |] eqn:Ed;
    [by apply f64_of_Z_not_zero in Ed|..]; apply sql_round_real.
Qed.

End Figures.

Section Claims_flow.
Context `{Numerics}.

(** C8. With the replace option, ingesting against an existing database file
    is, in outcome, database, report and log, ingesting into a fresh empty
    store: nothing of the prior store remains. *)
Theorem replace_is_fresh_ingest (dir : data_dir) (db : store) (write_ltv : bool) :
  ingest dir (Some db) true write_ltv = ingest dir None false write_ltv.
Proof. done. Qed.

(** C9 (amended). In an invocation of [ingest] that returns, the log is the
    five table loads in order, then the recomputation of the totals exactly
    once, then the report when it is asked for. *)
Theorem recompute_once_after_loads dir db_file replace write_ltv w :
  ingest dir db_file replace write_ltv = (Ok tt, w) →
  ∃ loads, Forall2 load_event paths loads
           ∧ w_trace w = loads ++ [EvUpdateTotals]
                               ++ (if write_ltv then [EvWriteLtv] else []).
Proof.
  intros Hr. apply ingest_ok_inv in Hr as (w1 & Hl & -> & _).
  apply for_loads_trace in Hl as (_ & evs & Hevs & Ht).
  exists evs. split; [done|]. simpl. by rewrite Ht.
Qed.

(** C5 (amended). The load of a table whose file is missing or has no rows
    returns without changing the store; the run is then, in outcome and
    database, the run of the loads of the other tables: it returns when none of
    those raises. *)
Theorem missing_file_is_skipped dir t :
  dir t = None ∨ dir t = Some [] →
  (∀ w, load_table dir t w
        = (Ok tt, World (w_db w) (w_ltv w) (w_trace w ++ [EvSkip t])))
  ∧ ∀ db_file replace write_ltv,
      let run := ingest dir db_file replace write_ltv in
      let rest := loads_db dir (filter (λ t', t' ≠ t) paths)
                    (w_db (start db_file replace)) in
      run.1 = rest.1
      ∧ (rest.1 = Ok tt → w_db run.2 = update_totals rest.2).
Proof.
  intros Hmiss. split; [intros w; by apply load_table_skip|].
  intros db_file replace write_ltv. cbv zeta.
  destruct (ingest_db dir db_file replace write_ltv) as [E1 E2].
  rewrite E1, E2.
  rewrite (loads_db_skip dir t paths).
  - split; [done|]. by intros ->.
  - unfold load_db. by destruct Hmiss as [-> | ->].
Qed.

(** C1. After an ingestion run that returns, every order of the store that has
    at least one row in order_items has as total the sum of the line totals
    of its items, rounded to 2 decimals, whatever total its CSV row carried.
    The line totals are read as numbers (a REAL is itself, a NULL is left
    out, a text counts by its numeric prefix); the sum is the sum of binary64
    additions in scan order; the total is the binary64 of a whole number of
    hundredths that is at most half a hundredth, and the slack of the
    engine's arithmetic, away from that sum. The total is NULL when no line
    total is a number. This is what the UPDATE computes on an engine whose
    SUM adds in scan order and whose ROUND(x, 2) rounds to 2 decimals. *)
Theorem total_reconciliation dir db_file replace write_ltv w k r :
  sum_in_scan_order → round_to_cents →
  ingest dir db_file replace write_ltv = (Ok tt, w) →
  tbl (w_db w) orders !! k = Some r →
  has_items (w_db w) k →
  let xs := omap as_real (line_totals (w_db w) k) in
  (xs = [] → cell orders "total" k r = VNull)
  ∧ (xs ≠ [] →
       ∃ t, rounded2 (float_sum xs) t ∧ cell orders "total" k r = mk_real t).
Proof.
  intros Hsum Hround Hr Hk Hi. cbv zeta.
  apply ingest_ok_inv in Hr as (w1 & _ & -> & _).
  unfold after_loads in *. cbn [w_db] in *.
  assert (Ei : tbl (update_totals (w_db w1)) order_items = tbl (w_db w1) order_items)
    by by apply update_totals_other.
  rewrite (line_totals_ext _ _ _ Ei). rewrite (has_items_ext _ _ _ Ei) in Hi.
  unfold cell. rewrite decide_False by done.
  rewrite (update_totals_with_items _ _ _ Hk Hi).
  by apply sql_round_sum.
Qed.

(** C2 (amended). The recomputation changes only orders that have an item
    in the store: an order of orders.csv that has no row in the order_items
    table after the load keeps the row the file loaded for it, its total and
    every other column. *)
Theorem orders_without_items_keep_row dir db_file replace write_ltv w l k r :
  ingest dir db_file replace write_ltv = (Ok tt, w) →
  loaded dir orders = Ok l →
  final_row orders k l = Some r →
  ¬ has_items (w_db w) k →
  tbl (w_db w) orders !! k = Some r.
Proof.
  intros Hr Hlo Hf Hi. apply ingest_ok_inv in Hr as (w1 & _ & -> & Hl).
  unfold after_loads in *. cbn [w_db] in *.
  assert (Ei : tbl (update_totals (w_db w1)) order_items = tbl (w_db w1) order_items)
    by by apply update_totals_other.
  rewrite (has_items_ext _ _ _ Ei) in Hi.
  rewrite update_totals_without_items by done.
  destruct (loads_db_table _ _ _ _ orders Hl paths_NoDup) as (Sa & Sb & Hld & ->).
  { unfold paths. rewrite !elem_of_cons. tauto. }
  rewrite (load_db_loaded _ _ Sa _ Hlo) in Hld.
  eapply write_rows_final; [done| |done].
  by apply rows_unique_by_key_vacuous.
Qed.

(** C3 (amended). When no row of the files is written with a NULL primary
    key, ingesting the same files a second time into the store the first run
    left leaves the tables as they were: no row added, none removed, each
    rewritten with the same values. When moreover no two customers with
    different ids share an email, the second run ends as the first did,
    returning or raising the same exception. *)
Theorem reingest_idempotent dir db_file replace write_ltv :
  keyed dir →
  let run1 := ingest dir db_file replace write_ltv in
  let run2 := ingest dir (Some (w_db run1.2)) replace write_ltv in
  w_db run2.2 = w_db run1.2
  ∧ (unique_by_key dir → run2.1 = run1.1).
Proof.
  intros Hk. cbv zeta. destruct replace.
  { assert (ingest dir (Some (w_db (ingest dir db_file true write_ltv).2)) true write_ltv
            = ingest dir db_file true write_ltv) as ->; [|done].
    by destruct db_file. }
  destruct (ingest_db dir db_file false write_ltv) as [E1 E2].
  destruct (ingest_db dir (Some (w_db (ingest dir db_file false write_ltv).2))
              false write_ltv) as [F1 F2].
  cbv zeta in *. rewrite F1, F2, E1.
  assert (Es : ∀ d, w_db (start (Some d) false) = d) by done.
  rewrite !Es, E2.
  fold (left_by (loads_db dir paths (w_db (start db_file false)))).
  split.
  - apply (ingest_twice_db dir Hk).
  - intros Hu. apply (loads_twice dir Hk paths); [apply paths_NoDup|done|].
    intros t _. apply Hu.
Qed.

End Claims_flow.

Section Claims_ltv.
Context `{Numerics}.

Lemma report_rows dir db_file replace w k c :
  ingest dir db_file replace true = (Ok tt, w) →
  tbl (w_db w) customers !! k = Some c →
  ∃ rows, w_ltv w = Some (ltv_headers, rows)
          ∧ rows ≡ₚ customer_ltv (w_db w) <$> scan (tbl (w_db w) customers)
          ∧ customer_ltv (w_db w) (k, c) ∈ rows.
Proof.
  intros Hr Hc. exists (ltv_query (w_db w)).
  split; [by eapply ingest_report|]. split; [apply ltv_query_customers|].
  rewrite ltv_query_customers. apply list_elem_of_fmap_2. by apply elem_of_scan.
Qed.

(** C6. The LTV report has exactly one row per customer of the store: its
    customer_id column lists the customers, each once. A customer without a
    completed order is there too, with lifetime_spend 0, orders_count 0 and
    avg_order_value 0. *)
Theorem ltv_one_row_per_customer dir db_file replace w :
  ingest dir db_file replace true = (Ok tt, w) →
  ∃ rows, w_ltv w = Some (ltv_headers, rows)
    ∧ (λ r, default VNull (r !! 0%nat)) <$> rows
      ≡ₚ VInt <$> (map_to_list (tbl (w_db w) customers)).*1
    ∧ ∀ k c, tbl (w_db w) customers !! k = Some c →
        completed_orders (w_db w) k = [] →
        [VInt k; cell customers "name" k c; VInt 0; VInt 0; VInt 0; VNull] ∈ rows.
Proof.
  intros Hr. exists (ltv_query (w_db w)).
  split; [by eapply ingest_report|]. split.
  - rewrite ltv_query_customers. unfold scan.
    rewrite <- !list_fmap_compose. by rewrite merge_sort_Permutation.
  - intros k c Hc Hno. rewrite ltv_query_customers.
    apply list_elem_of_fmap. exists (k, c). split; [|by apply elem_of_scan].
    unfold customer_ltv. simpl. by rewrite Hno.
Qed.

(** C7. For every customer the report has a row with the figures of the
    customer's completed orders: the orders of the customer with status
    'completed', and no other order. Its lifetime_spend is the sum of their
    totals (binary64 additions in scan order of the totals read as numbers),
    and 0 when there is none; its orders_count is their number; its
    avg_order_value is 0 when there is none, and else the binary64 quotient of
    the sum by the count, rounded to 2 decimals: the binary64 of a whole
    number of hundredths at most half a hundredth, and the slack of the
    engine's arithmetic, away from the quotient. This is what the query
    computes on an engine whose SUM adds in scan order and whose ROUND(x, 2)
    rounds to 2 decimals. *)
Theorem ltv_completed_orders_only dir db_file replace w k c :
  sum_in_scan_order → round_to_cents →
  ingest dir db_file replace true = (Ok tt, w) →
  tbl (w_db w) customers !! k = Some c →
  let os := completed_orders (w_db w) k in
  let xs := omap as_real ((λ o, cell orders "total" o.1 o.2) <$> os) in
  let n := Z.of_nat (length os) in
  (∀ ok o, (ok, o) ∈ os ↔
     tbl (w_db w) orders !! ok = Some o
     ∧ sql_eq (cell orders "customer_id" ok o) (VInt k) = true
     ∧ sql_eq (cell orders "status" ok o) (VText "completed") = true)
  ∧ ∃ rows name spend avg last,
      w_ltv w = Some (ltv_headers, rows)
      ∧ [VInt k; name; spend; VInt n; avg; last] ∈ rows
      ∧ spend = coalesce (sum_value xs) (VInt 0)
      ∧ (n = 0 → avg = VInt 0)
      ∧ (n ≠ 0 → sum_value xs = VNull → avg = VNull)
      ∧ (n ≠ 0 → ∀ S, sum_value xs = VReal S →
           ∃ t, rounded2 (f64_div S (f64_of_Z n)) t ∧ avg = mk_real t).
Proof.
  intros Hsum Hround Hr Hc. cbv zeta. split.
  - intros ok o. unfold completed_orders, join_on.
    rewrite list_elem_of_filter, elem_of_scan, andb_true_iff. simpl. tauto.
  - destruct (report_rows _ _ _ _ _ _ Hr Hc) as (rows & Hrows & _ & Hin).
    unfold customer_ltv in Hin. cbv zeta in Hin. cbn [fst snd] in Hin.
    rewrite (sql_sum_value Hsum) in Hin.
    set (os := completed_orders (w_db w) k) in *.
    set (xs := omap as_real ((λ o, cell orders "total" o.1 o.2) <$> os)) in *.
    set (n := Z.of_nat (length os)) in *.
    eexists rows, _, _, _, _. split; [done|]. split; [exact Hin|].
    split; [done|]. split; [|split].
    + intros ->. done.
    + intros Hn ->. apply Z.eqb_neq in Hn. rewrite Hn. done.
    + intros Hn S HS. apply Z.eqb_neq in Hn as Hn'. rewrite Hn', HS.
      apply (sql_round_div_real Hround); [done|].
      unfold sum_value in HS. destruct xs; [done|]. unfold mk_real in HS.
      destruct (f64_is_nan (float_sum _)) eqn:En; [done|]. by injection HS as <-.
Qed.

(** C10. In the report a customer without a completed order has a NULL
    last_order_date (the sixth column), written as an empty field, while the
    three figures before it are 0. *)
Theorem ltv_no_order_null_date dir db_file replace w rows r k :
  ingest dir db_file replace true = (Ok tt, w) →
  w_ltv w = Some (ltv_headers, rows) →
  r ∈ rows → r !! 0%nat = Some (VInt k) →
  completed_orders (w_db w) k = [] →
  ltv_headers !! 5%nat = Some "last_order_date"
  ∧ r !! 5%nat = Some VNull
  ∧ r !! 2%nat = Some (VInt 0) ∧ r !! 3%nat = Some (VInt 0)
  ∧ r !! 4%nat = Some (VInt 0).
Proof.
  intros Hr Hrows Hin Hk Hno.
  rewrite (ingest_report _ _ _ _ Hr) in Hrows. injection Hrows as <-.
  rewrite ltv_query_customers in Hin.
  apply list_elem_of_fmap in Hin as ([k' c] & -> & _).
  unfold customer_ltv in *. simpl in Hk. injection Hk as ->.
  simpl. by rewrite Hno.
Qed.

End Claims_ltv.

(** ** The coercion of one field *)

Section Coercion.
Context `{Numerics}.

(** The first inner loop on a field that holds a non-empty text: the integer
    the text truncates to; the text itself when it is not a number or is a
    NaN; an uncaught [OverflowError] when it is an infinity. *)
Lemma coerce_int_text (r : pyrow) col s :
  r !! col = Some (PyStr s) → s ≠ EmptyString →
  coerce_int r col =
  match py_float s with
  | None => Ok r
  | Some f =>
      match int_ f with
      | Ok z => Ok (<[col := PyInt z]> r)
      | Raise ValueError => Ok r
      | Raise e => Raise e
      end
  end.
Proof.
  intros Hr Hs. unfold coerce_int. rewrite Hr. simpl.
  rewrite bool_decide_eq_false_2 by done. simpl.
  destruct (py_float s) as [f|]; simpl; [|done].
  by destruct (int_ f).
Qed.

(** A text that reads as an infinity leaves the loop with [OverflowError]. *)
Lemma coerce_int_infinity (r : pyrow) col s b :
  r !! col = Some (PyStr s) → s ≠ EmptyString →
  py_float s = Some (S754_infinity b) →
  coerce_int r col = Raise OverflowError.
Proof. intros Hr Hs Hf. by rewrite (coerce_int_text r col s), Hf. Qed.

End Coercion.

(** ** The order of values *)

Lemma xnum_compare_scale m1 e1 m2 e2 E :
  E ≤ e1 → E ≤ e2 →
  xnum_compare (Dyadic m1 e1) (Dyadic m2 e2)
  = Z.compare (m1 * 2 ^ (e1 - E)) (m2 * 2 ^ (e2 - E)).
Proof.
  intros H1 H2. simpl. set (e := Z.min e1 e2).
  assert (He : E ≤ e) by (unfold e; lia).
  assert (He1 : e ≤ e1) by (unfold e; lia).
  assert (He2 : e ≤ e2) by (unfold e; lia).
  replace (e1 - E) with ((e1 - e) + (e - E)) by lia.
  replace (e2 - E) with ((e2 - e) + (e - E)) by lia.
  rewrite !Z.pow_add_r, !Z.mul_assoc by lia.
  assert (Hp : 0 < 2 ^ (e - E)) by (apply Z.pow_pos_nonneg; lia).
  generalize (m1 * 2 ^ (e1 - e)) (m2 * 2 ^ (e2 - e)) (2 ^ (e - E)) Hp.
  intros a b p Hp'.
  destruct (Z.compare_spec a b), (Z.compare_spec (a * p) (b * p)); try done; nia.
Qed.

Lemma xnum_compare_antisym x y : xnum_compare x y = CompOpp (xnum_compare y x).
Proof.
  destruct x as [|m1 e1|], y as [|m2 e2|]; try done.
  rewrite (xnum_compare_scale m1 e1 m2 e2 (Z.min e1 e2)) by lia.
  rewrite (xnum_compare_scale m2 e2 m1 e1 (Z.min e1 e2)) by lia.
  apply Z.compare_antisym.
Qed.

Lemma xnum_compare_lt_trans x y z :
  xnum_compare x y = Lt → xnum_compare y z = Lt → xnum_compare x z = Lt.
Proof.
  destruct x as [|m1 e1|], y as [|m2 e2|], z as [|m3 e3|]; try done.
  set (E := Z.min e1 (Z.min e2 e3)).
  rewrite (xnum_compare_scale m1 e1 m2 e2 E), (xnum_compare_scale m2 e2 m3 e3 E),
    (xnum_compare_scale m1 e1 m3 e3 E) by (unfold E; lia).
  rewrite !Z.compare_lt_iff. lia.
Qed.

Lemma xnum_compare_eq_l x y z :
  xnum_compare x y = Eq → xnum_compare x z = xnum_compare y z.
Proof.
  destruct x as [|m1 e1|], y as [|m2 e2|], z as [|m3 e3|]; try done.
  set (E := Z.min e1 (Z.min e2 e3)).
  rewrite (xnum_compare_scale m1 e1 m2 e2 E), (xnum_compare_scale m2 e2 m3 e3 E),
    (xnum_compare_scale m1 e1 m3 e3 E) by (unfold E; lia).
  rewrite Z.compare_eq_iff. by intros ->.
Qed.

Lemma ascii_compare_lt_trans a b c :
  Ascii.compare a b = Lt → Ascii.compare b c = Lt → Ascii.compare a c = Lt.
Proof. unfold Ascii.compare. rewrite !N.compare_lt_iff. lia. Qed.

Lemma string_compare_lt_trans s t u :
  String.compare s t = Lt → String.compare t u = Lt → String.compare s u = Lt.
Proof.
  revert t u. induction s as [|a s IH]; intros [|b t] [|c u]; simpl; try done.
  destruct (Ascii.compare a b) eqn:Hab; try done.
  - apply Ascii.compare_eq_iff in Hab as ->.
    destruct (Ascii.compare b c); try done. apply IH.
  - destruct (Ascii.compare b c) eqn:Hbc; try done.
    + apply Ascii.compare_eq_iff in Hbc as <-. by rewrite Hab.
    + by rewrite (ascii_compare_lt_trans a b c).
Qed.

Lemma sort_compare_antisym a b : sort_compare a b = CompOpp (sort_compare b a).
Proof.
  unfold sort_compare, sql_compare.
  destruct (classify a), (classify b); simpl; try done.
  - apply xnum_compare_antisym.
  - apply String.compare_antisym.
Qed.

Lemma sort_compare_lt_trans a b c :
  sort_compare a b = Lt → sort_compare b c = Lt → sort_compare a c = Lt.
Proof.
  unfold sort_compare, sql_compare.
  destruct (classify a), (classify b), (classify c); simpl; try done.
  - apply xnum_compare_lt_trans.
  - apply string_compare_lt_trans.
Qed.

Lemma sort_compare_eq_l a b c :
  sort_compare a b = Eq → sort_compare a c = sort_compare b c.
Proof.
  unfold sort_compare, sql_compare.
  destruct (classify a), (classify b), (classify c); simpl; try done.
  - apply xnum_compare_eq_l.
  - by intros ->%string_compare_eq.
Qed.

(** "Not below" is a total preorder. *)
Lemma sort_compare_ge_trans a b c :
  sort_compare a b ≠ Lt → sort_compare b c ≠ Lt → sort_compare a c ≠ Lt.
Proof.
  intros Hab Hbc Hac.
  destruct (sort_compare a b) eqn:E1; [|done|].
  - rewrite (sort_compare_eq_l _ _ _ E1) in Hac. done.
  - destruct (sort_compare b c) eqn:E2; [|done|].
    + rewrite sort_compare_antisym in E2. destruct (sort_compare c b) eqn:E3; try done.
      rewrite sort_compare_antisym, (sort_compare_eq_l _ _ _ E3) in Hac.
      rewrite sort_compare_antisym, Hac in E1. done.
    + rewrite sort_compare_antisym in E1, E2.
      destruct (sort_compare b a) eqn:E3; try done.
      destruct (sort_compare c b) eqn:E4; try done.
      rewrite sort_compare_antisym in Hac.
      by rewrite (sort_compare_lt_trans c b a) in Hac.
Qed.

#[global] Instance spend_ge_trans : Transitive spend_ge.
Proof. intros x y z. unfold spend_ge. apply sort_compare_ge_trans. Qed.

#[global] Instance spend_ge_total : Total spend_ge.
Proof.
  intros x y. unfold spend_ge.
  rewrite (sort_compare_antisym (default VNull (y !! 2%nat))).
  destruct (sort_compare _ _); simpl; auto.
Qed.

Lemma StronglySorted_lookup {A} (R : relation A) l i j x y :
  StronglySorted R l → (i < j)%nat → l !! i = Some x → l !! j = Some y → R x y.
Proof.
  intros Hs. revert i j. induction Hs as [|a l Hs IH Ha]; intros i j Hij Hi Hj.
  { by rewrite lookup_nil in Hi. }
  destruct j as [|j]; [lia|]. simpl in Hj.
  destruct i as [|i]; simpl in Hi.
  - injection Hi as <-. rewrite Forall_forall in Ha. apply Ha.
    by eapply list_elem_of_lookup_2.
  - eapply (IH i j); [lia|done..].
Qed.

(** ** The maximum of a column *)

Lemma sql_max_cons v vs :
  sql_max (v :: vs) =
  if is_null v then sql_max vs
  else if is_null (sql_max vs) then v
  else if decide (sort_compare v (sql_max vs) = Gt) then v else sql_max vs.
Proof.
  unfold is_null. simpl. by destruct (classify v), (classify (sql_max vs)).
Qed.

Lemma is_null_classify v : is_null v = true ↔ classify v = CNull.
Proof. unfold is_null. by destruct (classify v). Qed.

Lemma sort_compare_null_l v w : is_null v = true → sort_compare v w ≠ Gt.
Proof.
  intros Hv%is_null_classify. unfold sort_compare. rewrite Hv.
  by destruct (classify w).
Qed.

Lemma sort_compare_le_ge a b : sort_compare a b ≠ Gt ↔ sort_compare b a ≠ Lt.
Proof. rewrite (sort_compare_antisym a b). by destruct (sort_compare b a). Qed.

(** The maximum is NULL or an element that is not NULL. *)
Lemma sql_max_elem vs :
  sql_max vs = VNull ∨ (sql_max vs ∈ vs ∧ is_null (sql_max vs) = false).
Proof.
  induction vs as [|v vs IH]; [by left|]. rewrite sql_max_cons.
  destruct (is_null v) eqn:Ev.
  { destruct IH as [?|[? ?]]; [by left|right]. split; [by right|done]. }
  right. destruct (is_null (sql_max vs)) eqn:Em; [split; [by left|done]|].
  case_decide; [split; [by left|done]|].
  destruct IH as [E|[? ?]]; [by rewrite E in Em|]. split; [by right|done].
Qed.

(** No element is above the maximum, and the maximum is not NULL as soon as
    one element is not. *)
Lemma sql_max_upper vs d :
  d ∈ vs →
  sort_compare d (sql_max vs) ≠ Gt
  ∧ (is_null d = false → is_null (sql_max vs) = false).
Proof.
  induction vs as [|v vs IH]; [by intros ?%elem_of_nil|].
  rewrite sql_max_cons. intros Hd.
  destruct (is_null v) eqn:Ev.
  { apply elem_of_cons in Hd as [->|Hd]; [|by apply IH].
    split; [by apply sort_compare_null_l|by rewrite Ev]. }
  destruct (is_null (sql_max vs)) eqn:Em.
  { split; [|done]. apply elem_of_cons in Hd as [->|Hd].
    - by rewrite sort_compare_refl.
    - destruct (IH Hd) as [_ Hn]. apply sort_compare_null_l.
      apply not_false_is_true. intros Hdn. by pose proof (Hn Hdn). }
  case_decide as Hgt.
  - split; [|done]. apply elem_of_cons in Hd as [->|Hd].
    + by rewrite sort_compare_refl.
    + destruct (IH Hd) as [Hle' _]. apply sort_compare_le_ge.
      apply (sort_compare_ge_trans _ (sql_max vs)); [|by apply sort_compare_le_ge].
      by rewrite Hgt.
  - split; [|done]. apply elem_of_cons in Hd as [->|Hd]; [done|]. by apply IH.
Qed.

Section Flow_raise.
Context `{Numerics}.

(** A loop that raises: the loads before the one that raised returned and are
    in the log; the load that raised left the store as it found it. *)
Lemma for_loads_raise dir ts w e w' :
  for_ ts (load_table dir) w = (Raise e, w') →
  w_ltv w' = w_ltv w
  ∧ ∃ pre t post evs,
      ts = pre ++ t :: post
      ∧ loads_db dir pre (w_db w) = (Ok tt, w_db w')
      ∧ load_db dir t (w_db w') = Raise e
      ∧ Forall2 load_event pre evs ∧ w_trace w' = w_trace w ++ evs.
Proof.
  revert w. induction ts as [|t ts IH]; intros w; simpl; [done|].
  unfold mbind, M_bind.
  destruct (load_table dir t w) as [[[]|e0] w1] eqn:El.
  - intros Hr. apply load_table_ok in El as (Hdb & Hl & ev & Hev & Ht).
    apply IH in Hr as (Hl' & pre & t' & post & evs & -> & Hpre & Hf & Hevs & Ht').
    split; [congruence|]. exists (t :: pre), t', post, (ev :: evs).
    split_and!; [done| |done| |].
    + simpl. by rewrite Hdb.
    + by constructor.
    + by rewrite Ht', Ht, <- app_assoc.
  - intros [= <- <-]. apply load_table_raise in El as (Hdb & ->).
    split; [done|]. exists [], t, ts, []. split_and!; try done.
    by rewrite app_nil_r.
Qed.

End Flow_raise.

Section Report.
Context `{Numerics}.

Lemma coalesce_sum_number vs :
  ∃ x, classify (coalesce (sql_sum vs) (VInt 0)) = CNum x.
Proof.
  unfold coalesce, is_null.
  destruct (classify (sql_sum vs)) as [|x|s] eqn:Es; [by eexists|by eexists|].
  unfold sql_sum, mk_real in Es. destruct (omap as_real vs); [done|].
  destruct (f64_is_nan _); [done|]. by destruct (sql_real_sum _).
Qed.

(** X: the rows of the report are in descending order of lifetime_spend,
    which in every row is a number. *)
Theorem ltv_rows_descend_by_spend dir db_file replace w :
  ingest dir db_file replace true = (Ok tt, w) →
  ∃ rows, w_ltv w = Some (ltv_headers, rows)
    ∧ ltv_headers !! 2%nat = Some "lifetime_spend"
    ∧ (∀ r, r ∈ rows → ∃ x, classify (default VNull (r !! 2%nat)) = CNum x)
    ∧ ∀ i j r1 r2, (i < j)%nat → rows !! i = Some r1 → rows !! j = Some r2 →
        sort_compare (default VNull (r1 !! 2%nat)) (default VNull (r2 !! 2%nat)) ≠ Lt.
Proof.
  intros Hr. exists (ltv_query (w_db w)).
  split; [by eapply ingest_report|]. split; [done|]. split.
  - intros r. rewrite ltv_query_customers.
    intros (c & -> & _)%list_elem_of_fmap. apply coalesce_sum_number.
  - intros i j r1 r2 Hij H1 H2.
    apply (StronglySorted_lookup spend_ge (ltv_query (w_db w)) i j); [|done..].
    apply StronglySorted_merge_sort; apply _.
Qed.

(** X: last_order_date is the greatest order_date of the customer's completed
    orders: none of them is above it, it is one of them as soon as one is not
    NULL, and NULL otherwise. *)
Theorem ltv_last_order_date_is_latest dir db_file replace w k c :
  ingest dir db_file replace true = (Ok tt, w) →
  tbl (w_db w) customers !! k = Some c →
  let dates := (λ o, cell orders "order_date" o.1 o.2)
                 <$> completed_orders (w_db w) k in
  ∃ rows r last,
    w_ltv w = Some (ltv_headers, rows) ∧ r ∈ rows
    ∧ r !! 0%nat = Some (VInt k) ∧ r !! 5%nat = Some last
    ∧ ltv_headers !! 5%nat = Some "last_order_date"
    ∧ (∀ d, d ∈ dates → sort_compare d last ≠ Gt)
    ∧ ((∃ d, d ∈ dates ∧ is_null d = false) → last ∈ dates ∧ is_null last = false)
    ∧ ((∀ d, d ∈ dates → is_null d = true) → last = VNull).
Proof.
  intros Hr Hc dates.
  exists (ltv_query (w_db w)), (customer_ltv (w_db w) (k, c)), (sql_max dates).
  split; [by eapply ingest_report|]. split.
  { rewrite ltv_query_customers. apply list_elem_of_fmap_2. by apply elem_of_scan. }
  split; [done|]. split; [done|]. split; [done|]. split_and!.
  - intros d Hd. by apply sql_max_upper.
  - intros (d & Hd & Hn). destruct (sql_max_upper dates d Hd) as [_ Hm].
    specialize (Hm Hn). split; [|done].
    destruct (sql_max_elem dates) as [E|[? _]]; [|done]. by rewrite E in Hm.
  - intros Hall. destruct (sql_max_elem dates) as [E|[Hin Hn]]; [done|].
    by rewrite (Hall _ Hin) in Hn.
Qed.

(** X: the report option changes neither the outcome of the run nor the
    database; the report is written exactly when it is asked for and the run
    returns, from the database the run leaves. *)
Theorem report_only_on_request dir db_file replace :
  let quiet := ingest dir db_file replace false in
  let run := ingest dir db_file replace true in
  run.1 = quiet.1 ∧ w_db run.2 = w_db quiet.2
  ∧ w_trace run.2 = w_trace quiet.2 ++ match run.1 with Ok _ => [EvWriteLtv] | Raise _ => [] end
  ∧ w_ltv quiet.2 = None
  ∧ w_ltv run.2 = match run.1 with
                  | Ok _ => Some (ltv_headers, ltv_query (w_db run.2))
                  | Raise _ => None
                  end.
Proof.
  cbv zeta. rewrite !ingest_eq, !ingest_body_eq.
  destruct (for_ paths (load_table dir) (start db_file replace)) as [[[]|e] w1] eqn:E.
  - cbn [fst snd]. apply for_loads_trace in E as [Hl _].
    unfold after_loads. cbn [w_db w_ltv w_trace]. rewrite Hl.
    split_and!; try done. by rewrite <- !app_assoc.
  - cbn [fst snd]. rewrite app_nil_r. apply for_loads_raise in E as [Hl _].
    by rewrite Hl.
Qed.

End Report.

Section Rollback.
Context `{Numerics}.

(** X: a run that raises was aborted by the load of one table: the tables
    before it in the loop are loaded and committed, that table and the ones
    after it are as the run found them, the log holds the loads that returned
    and nothing else (no recomputation), and no report is written. *)
Theorem failed_load_is_rolled_back dir db_file replace write_ltv e w :
  ingest dir db_file replace write_ltv = (Raise e, w) →
  ∃ pre t post evs,
    paths = pre ++ t :: post
    ∧ loads_db dir pre (w_db (start db_file replace)) = (Ok tt, w_db w)
    ∧ load_db dir t (w_db w) = Raise e
    ∧ (∀ t', t' ∈ t :: post →
         tbl (w_db w) t' = tbl (w_db (start db_file replace)) t')
    ∧ Forall2 load_event pre evs ∧ w_trace w = evs
    ∧ w_ltv w = None.
Proof.
  rewrite ingest_eq, ingest_body_eq.
  destruct (for_ paths (load_table dir) (start db_file replace))
    as [[[]|e'] w1] eqn:E; [done|].
  intros [= <- <-].
  apply for_loads_raise in E as (Hl & pre & t & post & evs & Hp & Hpre & Ht & Hevs & Htr).
  exists pre, t, post, evs. split_and!; try done.
  intros t' Ht'. eapply loads_db_frame; [done|].
  pose proof paths_NoDup as Hnd. rewrite Hp in Hnd.
  apply NoDup_app in Hnd as (_ & Hd & _). intros Hin. by apply (Hd t').
Qed.

End Rollback.

Section Upsert.
Context `{Numerics}.

(** Under a rowid, a load whose rows clash with the stored row only when
    they carry its rowid leaves the last row of the file that carries the
    rowid, or the stored row. *)
Lemma written_at_final t k l o :
  rows_keyed t l → rows_unique_by_key t l →
  (∀ x r, o = Some x → r ∈ l → unique_clash t r x = true → key_of t r = Some k) →
  foldl (write_at t k) o l
  = match final_row t k l with Some r => Some r | None => o end.
Proof.
  revert o. induction l as [|r l IH]; intros o Hk Hu Ho; [done|].
  apply rows_keyed_cons in Hk as [[k0 Hk0] Hk].
  simpl. rewrite IH; [|done|by eapply rows_unique_by_key_cons|].
  - destruct (final_row t k l); [done|].
    unfold write_at. case_decide as Hkr; [done|].
    destruct o as [x|]; [|done]. simpl.
    destruct (unique_clash t r x) eqn:Hc; [|done].
    destruct Hkr. apply (Ho x); [done|by left|done].
  - intros x r' Hx Hr' Hc. unfold write_at in Hx. case_decide as Hkr.
    + injection Hx as <-. rewrite <- Hkr. apply Hu; [by right|by left|done].
    + destruct o as [y|]; [|done]. simpl in Hx.
      destruct (unique_clash t r y); [done|]. injection Hx as <-.
      apply (Ho y); [done|by right|done].
Qed.

(** A table is as its own load left it, and was until then as the loop found
    it. *)
Lemma loads_db_own dir ts db S t :
  loads_db dir ts db = (Ok tt, S) → NoDup ts → t ∈ ts →
  ∃ Sa Sb, load_db dir t Sa = Ok Sb ∧ tbl S t = tbl Sb t ∧ tbl Sa t = tbl db t.
Proof.
  revert db. induction ts as [|t0 ts IH]; intros db Hl Hnd Ht;
    [by apply elem_of_nil in Ht|].
  apply loads_db_cons in Hl as (db1 & Hl & Hls).
  apply NoDup_cons in Hnd as [Hni Hnd].
  destruct (decide (t = t0)) as [->|Hne].
  - exists db, db1. split_and!; [done| |done]. by eapply loads_db_frame.
  - apply elem_of_cons in Ht as [?|Ht]; [done|].
    destruct (IH _ Hls Hnd Ht) as (Sa & Sb & ? & ? & Ea).
    exists Sa, Sb. split_and!; [done..|]. rewrite Ea. by eapply load_db_frame.
Qed.

Lemma elem_of_paths t : t ∈ paths.
Proof. unfold paths. rewrite !elem_of_cons. destruct t; tauto. Qed.

(** The table a run that returns leaves, before the recomputation: under
    each rowid, the last row of the file that carries it, else the row the run
    found. *)
Lemma loads_db_lookup dir db S t l k :
  loads_db dir paths db = (Ok tt, S) →
  loaded dir t = Ok l → rows_keyed t l → rows_unique_by_key t l →
  (∀ x r, tbl db t !! k = Some x → r ∈ l → unique_clash t r x = true →
     key_of t r = Some k) →
  tbl S t !! k
  = match final_row t k l with Some r => Some r | None => tbl db t !! k end.
Proof.
  intros Hl Hlo Hk Hu Hcl.
  destruct (loads_db_own _ _ _ _ t Hl paths_NoDup (elem_of_paths t))
    as (Sa & Sb & Hld & -> & Ea).
  rewrite (load_db_loaded _ _ Sa _ Hlo) in Hld.
  rewrite (write_rows_lookup t _ _ _ k Hld Hk), Ea.
  by apply written_at_final.
Qed.

(** X: products, order_items and reviews after a run that returns: under
    each primary key the last row of the file that carries it, and the row the
    run found when the file has none (upsert; rows are neither duplicated nor
    dropped). *)
Theorem upsert_last_row_wins dir db_file replace write_ltv w t l k :
  ingest dir db_file replace write_ltv = (Ok tt, w) →
  t ∈ [products; order_items; reviews] →
  loaded dir t = Ok l → rows_keyed t l →
  tbl (w_db w) t !! k
  = match final_row t k l with
    | Some r => Some r
    | None => tbl (w_db (start db_file replace)) t !! k
    end.
Proof.
  intros Hr Ht Hlo Hk. apply ingest_ok_inv in Hr as (w1 & _ & -> & Hl).
  unfold after_loads. cbn [w_db].
  assert (Hu : unique_cols t = []).
  { repeat (apply elem_of_cons in Ht as [->|Ht]); try done.
    by apply elem_of_nil in Ht. }
  rewrite update_totals_other.
  - eapply loads_db_lookup; [done..|by apply rows_unique_by_key_vacuous|].
    intros x r _ _. unfold unique_clash. by rewrite Hu.
  - intros ->. repeat (apply elem_of_cons in Ht as [?|Ht]); try done.
    by apply elem_of_nil in Ht.
Qed.

(** X: the customers table after a run that returns, when the file's rows
    carry their ids, share an email only with rows of the same id, and clash
    on the email with no stored customer of another id. *)
Theorem customers_last_row_wins dir db_file replace write_ltv w l k :
  ingest dir db_file replace write_ltv = (Ok tt, w) →
  loaded dir customers = Ok l →
  rows_keyed customers l → rows_unique_by_key customers l →
  (∀ k0 x r, tbl (w_db (start db_file replace)) customers !! k0 = Some x → r ∈ l →
     unique_clash customers r x = true → key_of customers r = Some k0) →
  tbl (w_db w) customers !! k
  = match final_row customers k l with
    | Some r => Some r
    | None => tbl (w_db (start db_file replace)) customers !! k
    end.
Proof.
  intros Hr Hlo Hk Hu Hcl. apply ingest_ok_inv in Hr as (w1 & _ & -> & Hl).
  unfold after_loads. cbn [w_db]. rewrite update_totals_other by done.
  eapply loads_db_lookup; [done..|]. intros x r. apply Hcl.
Qed.

(** X: the orders table after a run that returns: under each order_id the
    last row of the file that carries it, else the row the run found, in both
    cases with every column but the total as it was. *)
Theorem orders_change_only_in_total dir db_file replace write_ltv w l k :
  ingest dir db_file replace write_ltv = (Ok tt, w) →
  loaded dir orders = Ok l → rows_keyed orders l →
  match (match final_row orders k l with
         | Some r => Some r
         | None => tbl (w_db (start db_file replace)) orders !! k
         end) with
  | Some r =>
      ∃ r', tbl (w_db w) orders !! k = Some r'
            ∧ ∀ c, c ≠ "total" → cell orders c k r' = cell orders c k r
  | None => tbl (w_db w) orders !! k = None
  end.
Proof.
  intros Hr Hlo Hk. apply ingest_ok_inv in Hr as (w1 & _ & -> & Hl).
  unfold after_loads. cbn [w_db]. rewrite update_totals_lookup.
  rewrite (loads_db_lookup dir _ _ orders l k Hl Hlo Hk);
    [|by apply rows_unique_by_key_vacuous|by intros x r _ _].
  destruct (match final_row orders k l with
            | Some r => Some r
            | None => tbl (w_db (start db_file replace)) orders !! k
            end) as [r|]; [|done].
  simpl. eexists. split; [done|]. intros c Hc.
  destruct (sql_in _ _); [|done]. unfold cell.
  case_decide; [done|]. by apply field_set_field_ne.
Qed.

(** The rows of a table without UNIQUE column stay where they are. *)
Lemma write_rows_keeps t db l db' k :
  unique_cols t = [] → write_rows db t l = Ok db' →
  is_Some (tbl db t !! k) → is_Some (tbl db' t !! k).
Proof.
  intros Hu. revert db. induction l as [|r l IH]; intros db Hw Hk.
  { by injection Hw as <-. }
  apply write_rows_inv in Hw as (db1 & Hw1 & Hw).
  apply (IH _ Hw). apply write_row_ok in Hw1 as (k' & _ & -> & _).
  rewrite tbl_set_tbl_eq. unfold replace_into.
  destruct (decide (k = k')) as [->|Hne]; [by rewrite lookup_insert_eq|].
  rewrite lookup_insert_ne by done. destruct Hk as [x Hx]. exists x.
  apply map_lookup_filter_Some. split; [done|]. unfold unique_clash. by rewrite Hu.
Qed.

Lemma load_db_keeps dir t t' db db' k :
  t' ≠ customers → load_db dir t db = Ok db' →
  is_Some (tbl db t' !! k) → is_Some (tbl db' t' !! k).
Proof.
  intros Hc Hl Hk. destruct (decide (t' = t)) as [->|Hne].
  - destruct (load_db_ok_loaded _ _ _ _ Hl) as [l Hlo].
    rewrite (load_db_loaded _ _ db _ Hlo) in Hl.
    eapply write_rows_keeps; [|done..]. by destruct t.
  - by rewrite (load_db_frame _ _ _ _ t' Hl Hne).
Qed.

Lemma loads_db_keeps dir ts t' db k :
  t' ≠ customers →
  is_Some (tbl db t' !! k) → is_Some (tbl (loads_db dir ts db).2 t' !! k).
Proof.
  intros Hc. revert db. induction ts as [|t ts IH]; intros db Hk; [done|].
  simpl. destruct (load_db dir t db) as [db1|] eqn:Hl; [|done].
  apply IH. by eapply load_db_keeps.
Qed.

(** X: whatever the files hold and however the run ends, no row of products,
    orders, order_items or reviews is removed from the store. *)
Theorem rows_are_never_removed dir db_file replace write_ltv t k :
  t ≠ customers →
  is_Some (tbl (w_db (start db_file replace)) t !! k) →
  is_Some (tbl (w_db (ingest dir db_file replace write_ltv).2) t !! k).
Proof.
  intros Hc Hk. destruct (ingest_db dir db_file replace write_ltv) as [_ E].
  cbv zeta in E. rewrite E.
  pose proof (loads_db_keeps dir paths t _ k Hc Hk) as Hk'.
  destruct (loads_db dir paths _).1; [|done].
  destruct (decide (t = orders)) as [->|Hne].
  - apply elem_of_dom. rewrite update_totals_dom. by apply elem_of_dom.
  - by rewrite update_totals_other.
Qed.

End Upsert.

(** ** The integrity of the store *)

Lemma elem_of_all_tables t : t ∈ all_tables.
Proof. unfold all_tables. rewrite !elem_of_cons. destruct t; tauto. Qed.

Lemma child_ok_spec db t k r :
  child_ok db t k r = true ↔
  ∀ c p, (c, p) ∈ FOREIGN_KEY t →
    cell t c k r = VNull ∨ ∃ q, cell t c k r = VInt q ∧ is_Some (tbl db p !! q).
Proof.
  unfold child_ok. rewrite forallb_forall. split.
  - intros Hc c p Hfk. apply list_elem_of_In in Hfk. specialize (Hc _ Hfk).
    unfold fk_holds in Hc. simpl in Hc. destruct (cell t c k r); try done.
    + by left.
    + right. eexists. split; [done|]. by apply bool_decide_eq_true in Hc.
  - intros Hc [c p] Hfk%list_elem_of_In. unfold fk_holds. simpl.
    destruct (Hc c p Hfk) as [->|(q & -> & Hq)]; [done|].
    by apply bool_decide_eq_true.
Qed.

Lemma fk_consistent_child_ok db :
  fk_consistent db ↔ ∀ t k r, tbl db t !! k = Some r → child_ok db t k r = true.
Proof.
  unfold fk_consistent. split.
  - intros Hc t k r Hl. apply child_ok_spec. intros c p. by apply Hc.
  - intros Hc t k r c p Hl. by apply child_ok_spec, Hc.
Qed.

Lemma fk_check_consistent db : fk_check db = true ↔ fk_consistent db.
Proof.
  rewrite fk_consistent_child_ok. unfold fk_check. rewrite forallb_forall. split.
  - intros Hc t k r Hl. specialize (Hc t). rewrite forallb_forall in Hc.
    apply (Hc (proj1 (list_elem_of_In _ _) (elem_of_all_tables t)) (k, r)).
    apply list_elem_of_In. by apply elem_of_map_to_list.
  - intros Hc t _. apply forallb_forall. intros [k r] Hl%list_elem_of_In.
    apply Hc. by apply elem_of_map_to_list.
Qed.

Lemma emails_check_unique db : emails_check db = true ↔ emails_unique db.
Proof.
  unfold emails_check, emails_unique. rewrite forallb_forall. split.
  - intros Hc k1 r1 k2 r2 H1 H2 He.
    specialize (Hc (k1, r1)). rewrite forallb_forall in Hc.
    assert (Hin : ∀ k r, tbl db customers !! k = Some r →
                         In (k, r) (map_to_list (tbl db customers))).
    { intros k r Hl. apply list_elem_of_In. by apply elem_of_map_to_list. }
    specialize (Hc (Hin _ _ H1) (k2, r2) (Hin _ _ H2)). simpl in Hc.
    rewrite He in Hc. simpl in Hc. by apply bool_decide_eq_true in Hc.
  - intros Hu [k1 r1] H1%list_elem_of_In%elem_of_map_to_list.
    apply forallb_forall. intros [k2 r2] H2%list_elem_of_In%elem_of_map_to_list.
    simpl. destruct (sql_eq _ _) eqn:He; [|done]. simpl.
    apply bool_decide_eq_true. by eapply Hu.
Qed.

(** A foreign key names its child among the referencing columns of its
    parent. *)
Lemma referencing_child t c p : (c, p) ∈ FOREIGN_KEY t → (t, c) ∈ referencing p.
Proof.
  destruct t; simpl; rewrite ?elem_of_cons, ?elem_of_nil;
    intros Hfk; destruct_or?; simplify_eq; try done;
    vm_compute; repeat constructor.
Qed.

Lemma referenced_by db t k ct c k' r' :
  (ct, c) ∈ referencing t → tbl db ct !! k' = Some r' →
  cell ct c k' r' = VInt k → referenced db t k = true.
Proof.
  intros Hr Hl Hc. unfold referenced. apply existsb_exists.
  exists (ct, c). split; [by apply list_elem_of_In|]. apply existsb_exists.
  exists (k', r'). split; [by apply list_elem_of_In, elem_of_map_to_list|].
  by apply bool_decide_eq_true.
Qed.

Section Integrity.
Context `{Numerics}.

Lemma write_row_fk db t r0 db' :
  fk_consistent db → write_row db t r0 = Ok db' → fk_consistent db'.
Proof.
  rewrite !fk_consistent_child_ok. intros Hdb Hw.
  assert (Hp : parents_ok db db' t = true).
  { unfold write_row in Hw. destruct (rowid_of _ _ _); simpl in Hw; [|done].
    destruct (child_ok _ _ _ _); simpl in Hw; [|done].
    by destruct (parents_ok _ _ _) eqn:Hp; simplify_eq. }
  apply write_row_ok in Hw as (k & _ & Edb & Hc).
  intros t1 k1 r1 Hl1. destruct (decide (t1 = t)) as [->|Hne].
  - rewrite Edb, tbl_set_tbl_eq in Hl1.
    destruct (decide (k1 = k)) as [->|Hk].
    + rewrite lookup_replace_into_eq in Hl1. by injection Hl1 as <-.
    + apply lookup_replace_into_ne in Hl1 as [Hl1 _]; [|done].
      rewrite Edb, child_ok_set_tbl. by apply Hdb.
  - assert (Hl1' : tbl db t1 !! k1 = Some r1).
    { by rewrite Edb, tbl_set_tbl_ne in Hl1. }
    apply child_ok_spec. intros c p Hfk.
    destruct (proj1 (child_ok_spec _ _ _ _) (Hdb _ _ _ Hl1') c p Hfk)
      as [?|(q & Hq & Hin)]; [by left|].
    right. exists q. split; [done|].
    destruct (decide (p = t)) as [->|Hpt];
      [|by rewrite Edb, tbl_set_tbl_ne].
    unfold parents_ok in Hp. rewrite forallb_forall in Hp.
    destruct Hin as [x Hx]. specialize (Hp q).
    destruct (orb_prop _ _ (Hp ltac:(apply list_elem_of_In, list_elem_of_fmap;
      exists (q, x); split; [done|]; by apply elem_of_map_to_list))) as [Hy|Hn].
    + by apply bool_decide_eq_true in Hy.
    + rewrite (referenced_by db' t q t1 c k1 r1) in Hn; [done| |done..].
      by apply referencing_child.
Qed.

Lemma write_rows_fk db t l db' :
  fk_consistent db → write_rows db t l = Ok db' → fk_consistent db'.
Proof.
  revert db. induction l as [|r l IH]; intros db Hdb Hw.
  { by injection Hw as <-. }
  apply write_rows_inv in Hw as (db1 & Hw1 & Hw).
  eapply IH; [|done]. by eapply write_row_fk.
Qed.

Lemma load_db_fk dir t db db' :
  fk_consistent db → load_db dir t db = Ok db' → fk_consistent db'.
Proof.
  intros Hdb Hl. destruct (load_db_ok_loaded _ _ _ _ Hl) as [l Hlo].
  rewrite (load_db_loaded _ _ db _ Hlo) in Hl. by eapply write_rows_fk.
Qed.

Lemma loads_db_fk dir ts db :
  fk_consistent db → fk_consistent (loads_db dir ts db).2.
Proof.
  revert db. induction ts as [|t ts IH]; intros db Hdb; [done|]. simpl.
  destruct (load_db dir t db) as [db1|] eqn:Hl; [|done].
  apply IH. by eapply load_db_fk.
Qed.

Lemma update_totals_fk db : fk_consistent db → fk_consistent (update_totals db).
Proof.
  intros Hdb t k r c p Hl Hfk.
  assert (Hdom : ∀ p q, is_Some (tbl db p !! q) →
                        is_Some (tbl (update_totals db) p !! q)).
  { intros p' q. destruct (decide (p' = orders)) as [->|Hne].
    - rewrite <- !elem_of_dom. by rewrite update_totals_dom.
    - by rewrite update_totals_other. }
  destruct (decide (t = orders)) as [->|Hne].
  - rewrite update_totals_lookup in Hl.
    destruct (tbl db orders !! k) as [r0|] eqn:Hl0; [|done].
    injection Hl as <-.
    assert (Hcell : cell orders c k
                      (if sql_in (VInt k) (item_order_ids db)
                       then set_field "total"
                              (sql_round (sql_sum (line_totals db k))) r0
                       else r0) = cell orders c k r0).
    { destruct (sql_in _ _); [|done]. unfold cell. case_decide; [done|].
      apply field_set_field_ne. simpl in Hfk.
      apply list_elem_of_singleton in Hfk. by injection Hfk as -> _. }
    rewrite Hcell.
    destruct (Hdb orders k r0 c p Hl0 Hfk) as [?|(q & ? & ?)]; [by left|].
    right. exists q. split; [done|]. by apply Hdom.
  - rewrite update_totals_other in Hl by done.
    destruct (Hdb t k r c p Hl Hfk) as [?|(q & ? & ?)]; [by left|].
    right. exists q. split; [done|]. by apply Hdom.
Qed.

(** X: a run keeps the foreign keys of the store: when they hold in the
    database the run opens (as in a new one), they hold in the database it
    leaves, whether it returns or raises. *)
Theorem foreign_keys_are_kept dir db_file replace write_ltv :
  fk_consistent (w_db (start db_file replace)) →
  fk_consistent (w_db (ingest dir db_file replace write_ltv).2).
Proof.
  intros Hdb. destruct (ingest_db dir db_file replace write_ltv) as [_ E].
  cbv zeta in E. rewrite E.
  pose proof (loads_db_fk dir paths _ Hdb) as Hl.
  destruct (loads_db dir paths _).1; [|done]. by apply update_totals_fk.
Qed.

Lemma unique_clash_customers r1 r2 :
  unique_clash customers r1 r2 = sql_eq (field "email" r1) (field "email" r2).
Proof. unfold unique_clash. simpl. apply orb_false_r. Qed.

Lemma write_row_emails db t r0 db' :
  emails_unique db → write_row db t r0 = Ok db' → emails_unique db'.
Proof.
  intros Hdb (k & _ & -> & _)%write_row_ok.
  destruct (decide (t = customers)) as [->|Hne];
    [|unfold emails_unique; by rewrite tbl_set_tbl_ne].
  set (r := set_field _ _ r0).
  intros k1 r1 k2 r2. rewrite tbl_set_tbl_eq.
  destruct (decide (k1 = k)) as [->|H1], (decide (k2 = k)) as [->|H2]; [done|..].
  - rewrite lookup_replace_into_eq, lookup_replace_into_ne by done.
    intros [= <-] [_ Hc]. by rewrite <- unique_clash_customers, Hc.
  - rewrite lookup_replace_into_eq, lookup_replace_into_ne by done.
    intros [_ Hc] [= <-]. by rewrite sql_eq_sym, <- unique_clash_customers, Hc.
  - rewrite !lookup_replace_into_ne by done. intros [? _] [? _]. by eapply Hdb.
Qed.

Lemma write_rows_emails db t l db' :
  emails_unique db → write_rows db t l = Ok db' → emails_unique db'.
Proof.
  revert db. induction l as [|r l IH]; intros db Hdb Hw.
  { by injection Hw as <-. }
  apply write_rows_inv in Hw as (db1 & Hw1 & Hw).
  eapply IH; [|done]. by eapply write_row_emails.
Qed.

Lemma loads_db_emails dir ts db :
  emails_unique db → emails_unique (loads_db dir ts db).2.
Proof.
  revert db. induction ts as [|t ts IH]; intros db Hdb; [done|]. simpl.
  destruct (load_db dir t db) as [db1|] eqn:Hl; [|done].
  apply IH. destruct (load_db_ok_loaded _ _ _ _ Hl) as [l Hlo].
  rewrite (load_db_loaded _ _ db _ Hlo) in Hl. by eapply write_rows_emails.
Qed.

(** X: a run keeps the emails of the customers distinct: when no two
    customers of the database it opens share an email, none do in the database
    it leaves, whatever the files hold. *)
Theorem emails_stay_unique dir db_file replace write_ltv :
  emails_unique (w_db (start db_file replace)) →
  emails_unique (w_db (ingest dir db_file replace write_ltv).2).
Proof.
  intros Hdb. destruct (ingest_db dir db_file replace write_ltv) as [_ E].
  cbv zeta in E. rewrite E.
  pose proof (loads_db_emails dir paths _ Hdb) as Hl.
  destruct (loads_db dir paths _).1; [|done].
  unfold emails_unique. by rewrite update_totals_other.
Qed.

End Integrity.

(** ** The conversions, field by field *)

Section Conversion.
Context `{Numerics}.

Lemma coerce_int_field p c :
  coerce_int p c = match p !! c with
                   | Some v => v' ← int_field v; Ok (<[c := v']> p)
                   | None => Ok p
                   end.
Proof.
  unfold coerce_int, int_field. destruct (p !! c) as [v|] eqn:Hp; [|done].
  destruct (truthy v); simpl; [|by rewrite insert_id].
  destruct (float_ v) as [f|[]]; simpl; try done; [|by rewrite insert_id].
  destruct (int_ f) as [z|[]]; simpl; try done. by rewrite insert_id.
Qed.

Lemma coerce_float_field p c :
  coerce_float p c = match p !! c with
                     | Some v => v' ← float_field v; Ok (<[c := v']> p)
                     | None => Ok p
                     end.
Proof.
  unfold coerce_float, float_field. destruct (p !! c) as [v|] eqn:Hp; [|done].
  destruct (truthy v); simpl; [|by rewrite insert_id].
  destruct (float_ v) as [f|[]]; simpl; try done. by rewrite insert_id.
Qed.

(** A loop that rewrites the fields of distinct columns one by one. *)
Lemma for_each_fields (g : pyval → result pyval)
    (step : pyrow → string → result pyrow) cols (p : pyrow) :
  (∀ p c, step p c = match p !! c with
                     | Some v => v' ← g v; Ok (<[c := v']> p)
                     | None => Ok p
                     end) →
  NoDup cols →
  match for_each step cols p with
  | Ok p' =>
      ∀ c, match p !! c with
           | Some v => if decide (c ∈ cols)
                       then ∃ v', g v = Ok v' ∧ p' !! c = Some v'
                       else p' !! c = Some v
           | None => p' !! c = None
           end
  | Raise e => ∃ c v, c ∈ cols ∧ p !! c = Some v ∧ g v = Raise e
  end.
Proof.
  intros Hstep. revert p. induction cols as [|c0 cols IH]; intros p Hnd.
  { simpl. intros c. by destruct (p !! c). }
  apply NoDup_cons in Hnd as [Hni Hnd]. simpl. rewrite Hstep.
  destruct (p !! c0) as [v0|] eqn:Hp0; simpl.
  - destruct (g v0) as [v0'|e0] eqn:Hg; simpl.
    + specialize (IH (<[c0 := v0']> p) Hnd).
      destruct (for_each step cols (<[c0:=v0']> p)) as [p'|e].
      * intros c. specialize (IH c). destruct (decide (c = c0)) as [->|Hne].
        -- rewrite Hp0. rewrite lookup_insert_eq in IH.
           rewrite decide_False in IH by done.
           rewrite decide_True by by left. eauto.
        -- rewrite lookup_insert_ne in IH by done.
           destruct (p !! c); [|done].
           destruct (decide (c ∈ cols)).
           ++ rewrite decide_True by by right. done.
           ++ rewrite decide_False; [done|]. by intros [?|?]%elem_of_cons.
      * destruct IH as (c & v & Hc & Hl & Hgv). exists c, v.
        split; [by right|]. split; [|done].
        rewrite lookup_insert_ne in Hl; [done|]. by intros <-.
    + exists c0, v0. split; [by left|done].
  - specialize (IH p Hnd). destruct (for_each step cols p) as [p'|e].
    + intros c. specialize (IH c). destruct (p !! c) eqn:Hpc; [|done].
      destruct (decide (c ∈ cols)).
      * rewrite decide_True by by right. done.
      * rewrite decide_False; [done|]. intros [->|?]%elem_of_cons; [|done]. congruence.
    + destruct IH as (c & v & Hc & Hl & Hgv). exists c, v. split; [by right|done].
Qed.

Lemma int_cols_NoDup : NoDup int_cols.
Proof.
  unfold int_cols.
  repeat (apply NoDup_cons; split;
          [rewrite ?elem_of_cons, elem_of_nil; intros ?; destruct_or?; done|]).
  apply NoDup_nil_2.
Qed.

Lemma float_cols_NoDup : NoDup float_cols.
Proof.
  unfold float_cols.
  repeat (apply NoDup_cons; split;
          [rewrite ?elem_of_cons, elem_of_nil; intros ?; destruct_or?; done|]).
  apply NoDup_nil_2.
Qed.

Lemma float_not_int c : c ∈ float_cols → c ∉ int_cols.
Proof.
  unfold float_cols, int_cols. rewrite !elem_of_cons, !elem_of_nil.
  intros ? ?; destruct_or?; simplify_eq.
Qed.

Lemma read_csv_rows_fmap f : read_csv_rows f = (λ r : csv_row, field_read <$> r) <$> f.
Proof. done. Qed.

Lemma int_raises f e : int_ f = Raise e →
  (e = ValueError ∧ f = S754_nan) ∨ (e = OverflowError ∧ ∃ b, f = S754_infinity b).
Proof. destruct f; simpl; intros; simplify_eq; eauto. Qed.

Lemma int_field_read c o :
  c ∈ int_cols →
  match int_field (field_read o) with
  | Ok v => v = converted c o
  | Raise e => e = OverflowError
               ∧ ∃ s b, o = Some s ∧ s ≠ EmptyString
                        ∧ py_float s = Some (S754_infinity b)
  end.
Proof.
  intros Hc. unfold int_field, converted. destruct o as [s|]; simpl; [|done].
  case_decide as Hs.
  { subst. done. }
  rewrite bool_decide_eq_false_2 by done. simpl.
  rewrite decide_True by done.
  destruct (py_float s) as [f|] eqn:Hf; simpl; [|done].
  destruct (int_ f) as [z|e] eqn:Hi; simpl; [done|].
  apply int_raises in Hi as [[-> ->]|[-> [b ->]]]; [done|]. eauto 6.
Qed.

Lemma float_field_read c o :
  c ∈ float_cols → float_field (field_read o) = Ok (converted c o).
Proof.
  intros Hc. unfold float_field, converted. destruct o as [s|]; simpl; [|done].
  case_decide as Hs.
  { subst. done. }
  rewrite bool_decide_eq_false_2 by done. simpl.
  rewrite decide_False by by apply float_not_int.
  rewrite decide_True by done.
  by destruct (py_float s) as [f|] eqn:Hf.
Qed.

(** The two loops on one line of the file. *)
Lemma coerce_row_line (r : csv_row) :
  match coerce_row (field_read <$> r) with
  | Ok p => p = map_imap (λ c o, Some (converted c o)) r ∧ ¬ infinite_int_field r
  | Raise e => e = OverflowError ∧ infinite_int_field r
  end.
Proof.
  unfold coerce_row, mbind, result_bind.
  pose proof (for_each_fields int_field coerce_int int_cols (field_read <$> r)
                coerce_int_field int_cols_NoDup) as H1.
  destruct (for_each coerce_int int_cols (field_read <$> r)) as [p1|e1]; cbv beta iota.
  - pose proof (for_each_fields float_field coerce_float float_cols p1
                  coerce_float_field float_cols_NoDup) as H2.
    destruct (for_each coerce_float float_cols p1) as [p2|e2].
    + split.
      * apply map_eq. intros c. rewrite map_lookup_imap.
        specialize (H1 c). specialize (H2 c). rewrite lookup_fmap in H1.
        destruct (r !! c) as [o|] eqn:Hr; simpl in *.
        -- destruct (decide (c ∈ int_cols)) as [Hi|Hi].
           ++ destruct H1 as (v' & Hg & Hp1). rewrite Hp1 in H2.
              rewrite decide_False in H2 by (intros ?; by eapply float_not_int).
              rewrite H2. f_equal.
              pose proof (int_field_read c o Hi) as Hraw. by rewrite Hg in Hraw.
           ++ rewrite H1 in H2. destruct (decide (c ∈ float_cols)) as [Hf|Hf].
              ** destruct H2 as (v' & Hg & ->). f_equal.
                 rewrite (float_field_read c o Hf) in Hg. by injection Hg.
              ** rewrite H2. f_equal. unfold converted, field_read.
                 destruct o as [s|]; [|done]. by repeat case_decide.
        -- by rewrite H1 in H2.
      * intros (c & s & b & Hc & Hr & Hs & Hf).
        specialize (H1 c). rewrite lookup_fmap, Hr in H1. simpl in H1.
        rewrite decide_True in H1 by done. destruct H1 as (v' & Hg & _).
        unfold int_field in Hg. simpl in Hg.
        rewrite bool_decide_eq_false_2 in Hg by done. simpl in Hg.
        by rewrite Hf in Hg.
    + destruct H2 as (c & v & Hc & Hl & Hg).
      specialize (H1 c). rewrite lookup_fmap in H1.
      destruct (r !! c) as [o|] eqn:Hr; simpl in H1; [|congruence].
      rewrite decide_False in H1 by by apply float_not_int.
      rewrite H1 in Hl. injection Hl as <-.
      by rewrite (float_field_read c o Hc) in Hg.
  - destruct H1 as (c & v & Hc & Hl & Hg). rewrite lookup_fmap in Hl.
    destruct (r !! c) as [o|] eqn:Hr; [|done]. injection Hl as <-.
    pose proof (int_field_read c o Hc) as Hraw. rewrite Hg in Hraw.
    destruct Hraw as (-> & s & b & -> & Hs & Hf). split; [done|].
    by exists c, s, b.
Qed.

(** X: the type conversions abort exactly on a field of an integer column
    whose text reads as an infinity, and then with [OverflowError]; the
    currency columns never abort them. *)
Theorem conversion_aborts_on_infinity_only (f : list csv_row) :
  (∀ e, coerce_rows (read_csv_rows f) = Raise e → e = OverflowError)
  ∧ ((∃ e, coerce_rows (read_csv_rows f) = Raise e)
     ↔ ∃ r, r ∈ f ∧ infinite_int_field r).
Proof.
  rewrite read_csv_rows_fmap. induction f as [|r f [IH1 IH2]].
  { split; [done|]. split; [by intros [? ?]|]. by intros (? & ?%elem_of_nil & _). }
  rewrite fmap_cons. simpl. pose proof (coerce_row_line r) as Hr.
  destruct (coerce_row (field_read <$> r)) as [p|e]; simpl.
  - destruct Hr as [_ Hni].
    destruct (coerce_rows _) as [ps|e'] eqn:Hc; simpl.
    + split; [done|]. split; [by intros [? ?]|].
      intros (r' & [->|Hr']%elem_of_cons & Hinf); [done|].
      destruct (proj2 IH2) as [? ?]; [by exists r'|done].
    + split; [intros e [= <-]; by apply IH1|].
      split; [|by eauto]. intros _.
      destruct (proj1 IH2) as (r' & Hr' & Hinf); [by eauto|].
      exists r'. split; [by right|done].
  - destruct Hr as [-> Hinf]. split; [by intros ? [= <-]|].
    split; [|by eauto]. intros _. exists r. split; [by left|done].
Qed.

(** X: when the conversions return, each field holds what [converted] says,
    column by column: an integer column the truncated number its text reads
    as, a currency column the number, and the text itself when it is empty or
    reads as no number (or, in an integer column, as a NaN); every other field
    is as read. *)
Theorem conversion_field_by_field (f : list csv_row) rows :
  coerce_rows (read_csv_rows f) = Ok rows →
  rows = (λ r : csv_row, map_imap (λ c o, Some (converted c o)) r) <$> f.
Proof.
  rewrite read_csv_rows_fmap. revert rows. induction f as [|r f IH]; intros rows.
  { by intros [= <-]. }
  rewrite !fmap_cons. simpl. pose proof (coerce_row_line r) as Hr.
  destruct (coerce_row (field_read <$> r)) as [p|e]; simpl; [|done].
  destruct (coerce_rows _) as [ps|e'] eqn:Hc; simpl; [|done].
  intros [= <-]. destruct Hr as [-> _]. by rewrite (IH ps).
Qed.

End Conversion.

Section Stored.
Context `{Numerics}.

(** The loops on a whole file. *)
Lemma coerce_rows_file (f : list csv_row) :
  match coerce_rows (read_csv_rows f) with
  | Ok rows =>
      rows = (λ r : csv_row, map_imap (λ c o, Some (converted c o)) r) <$> f
      ∧ ∀ r, r ∈ f → ¬ infinite_int_field r
  | Raise e => e = OverflowError ∧ ∃ r, r ∈ f ∧ infinite_int_field r
  end.
Proof.
  rewrite read_csv_rows_fmap. induction f as [|r f IH].
  { split; [done|]. by intros ? ?%elem_of_nil. }
  rewrite !fmap_cons. simpl. pose proof (coerce_row_line r) as Hr.
  destruct (coerce_row (field_read <$> r)) as [p|e]; simpl.
  - destruct Hr as [-> Hni].
    destruct (coerce_rows _) as [ps|e'] eqn:Hc; simpl.
    + destruct IH as [-> Hf]. split; [done|].
      intros r' [->|Hr']%elem_of_cons; [done|by apply Hf].
    + destruct IH as (-> & r' & Hr' & Hinf). split; [done|].
      exists r'. split; [by right|done].
  - destruct Hr as [-> Hinf]. split; [done|]. exists r. split; [by left|done].
Qed.

Lemma get_converted (r : csv_row) c :
  default PyNone (map_imap (λ c o, Some (converted c o)) r !! c)
  = converted c (r !! c ≫= id).
Proof. rewrite map_lookup_imap. by destruct (r !! c). Qed.

(** One line through [insert_rows]: the parameters bound in the order of
    [col_map], each value placed in its column of the table. *)
Lemma insert_row_stored t (r : csv_row) :
  insert_row t (col_map t)
    (params_of (col_map t) (map_imap (λ c o, Some (converted c o)) r))
  = stored_row (SQL_CREATE t) r.
Proof.
  unfold insert_row, params_of, stored_value.
  destruct t; cbn [col_map SQL_CREATE fmap list_fmap stored_row col_name col_type];
    rewrite !get_converted; unfold stored_value; cbn [col_name col_type];
    cbn [bind_params mbind result_bind];
    repeat (match goal with
            | |- context [bind_param ?v] => destruct (bind_param v); [|done]
            end);
    reflexivity.
Qed.

Lemma rows_written_stored t (f : list csv_row) l :
  rows_written t ((λ r : csv_row, map_imap (λ c o, Some (converted c o)) r) <$> f)
  = Ok l
  ↔ Forall2 (λ r row, stored_row (SQL_CREATE t) r = Ok row) f l.
Proof.
  revert l. induction f as [|r f IH]; intros l; simpl.
  - split; [intros [= <-]; constructor|by intros ->%Forall2_nil_inv_l].
  - rewrite insert_row_stored.
    destruct (stored_row (SQL_CREATE t) r) as [row|e] eqn:Hr; simpl.
    + destruct (rows_written t _) as [l'|e'] eqn:Hw; simpl.
      * split.
        -- intros [= <-]. constructor; [done|]. by apply IH.
        -- intros (row' & l'' & Hrow & Hl & ->)%Forall2_cons_inv_l.
           apply IH in Hl. congruence.
      * split; [done|].
        intros (row' & l'' & Hrow & Hl & ->)%Forall2_cons_inv_l.
        by apply IH in Hl.
    + split; [done|].
      intros (row' & l'' & Hrow & Hl & ->)%Forall2_cons_inv_l. congruence.
Qed.

(** X: what a file writes, line by line and column by column: the rows are
    written when no integer field reads as an infinity and every value can be
    bound, and each row then holds in every column of the table the converted
    field of that name, bound and placed under the column's affinity. *)
Theorem loaded_line_by_line dir t f l :
  dir t = Some f →
  loaded dir t = Ok l
  ↔ (∀ r, r ∈ f → ¬ infinite_int_field r)
    ∧ Forall2 (λ r row, stored_row (SQL_CREATE t) r = Ok row) f l.
Proof.
  intros Hd. unfold loaded. rewrite Hd.
  pose proof (coerce_rows_file f) as Hc.
  destruct (coerce_rows (read_csv_rows f)) as [rows|e]; simpl.
  - destruct Hc as [-> Hni]. rewrite rows_written_stored. tauto.
  - destruct Hc as (_ & r & Hr & Hinf). split; [done|].
    intros [Hni _]. by destruct (Hni r).
Qed.

Lemma SQL_CREATE_names t : col_name <$> SQL_CREATE t = col_map t.
Proof. by destruct t. Qed.

Lemma col_map_NoDup t : NoDup (col_map t).
Proof.
  destruct t; unfold col_map;
    repeat (apply NoDup_cons; split;
            [rewrite ?elem_of_cons, elem_of_nil; intros ?; destruct_or?; done|]);
    apply NoDup_nil_2.
Qed.

Lemma stored_row_field cols (r : csv_row) row col :
  stored_row cols r = Ok row → NoDup (col_name <$> cols) → col ∈ cols →
  stored_value col r = Ok (field (col_name col) row).
Proof.
  revert row. induction cols as [|c0 cols IH]; intros row; simpl;
    [by intros _ _ ?%elem_of_nil|].
  destruct (stored_value c0 r) as [v|] eqn:Hv; simpl; [|done].
  destruct (stored_row cols r) as [row'|] eqn:Hr; simpl; [|done].
  intros [= <-] [Hni Hnd]%NoDup_cons [->|Hc]%elem_of_cons.
  - unfold field. simpl. by rewrite decide_True.
  - unfold field. simpl. rewrite decide_False.
    + by apply IH.
    + intros E. apply Hni. rewrite <- E. by apply list_elem_of_fmap_2.
Qed.

Lemma loaded_stored dir t f l :
  dir t = Some f → loaded dir t = Ok l →
  Forall2 (λ r row, stored_row (SQL_CREATE t) r = Ok row) f l.
Proof.
  intros Hd. unfold loaded. rewrite Hd.
  pose proof (coerce_rows_file f) as Hc.
  destruct (coerce_rows (read_csv_rows f)) as [rows|e]; simpl; [|done].
  destruct Hc as [-> _]. by rewrite rows_written_stored.
Qed.

Lemma SQL_CREATE_NoDup t : NoDup (col_name <$> SQL_CREATE t).
Proof. rewrite SQL_CREATE_names. apply col_map_NoDup. Qed.

(** X: a field the file does not have (its column is not in the header) or
    that its line is too short to hold reaches the INSERT as NULL, in every
    column of the table. The row the INSERT then stores has the values of
    that row in every column but the primary key, so NULL in the column of
    the absent field, and in the primary key its rowid: when the absent
    field is the primary key, a rowid the table did not hold. *)
Theorem absent_field_is_null dir t f l i r row c :
  dir t = Some f → loaded dir t = Ok l →
  f !! i = Some r → l !! i = Some row →
  c ∈ col_map t → r !! c = None ∨ r !! c = Some None →
  field c row = VNull
  ∧ ∀ db db', write_row db t row = Ok db' →
      ∃ k r', tbl db' t !! k = Some r'
        ∧ field (pk_col t) r' = VInt k
        ∧ (∀ c', c' ≠ pk_col t → field c' r' = field c' row)
        ∧ (c ≠ pk_col t → field c r' = VNull)
        ∧ (c = pk_col t → tbl db t !! k = None).
Proof.
  intros Hd Hl Hr Hrow Hc Habs.
  assert (Hnull : field c row = VNull).
  { pose proof (loaded_stored _ _ _ _ Hd Hl) as Hf.
    destruct (Forall2_lookup_l _ _ _ _ _ Hf Hr) as (row' & Hrow' & Hs).
    assert (row' = row) as -> by congruence.
    rewrite <- SQL_CREATE_names in Hc.
    apply list_elem_of_fmap in Hc as (col & -> & Hcol).
    pose proof (stored_row_field _ _ _ _ Hs (SQL_CREATE_NoDup t) Hcol) as Hv.
    unfold stored_value in Hv.
    assert (E : r !! col_name col ≫= id = None) by (by destruct Habs as [-> | ->]).
    rewrite E in Hv. simpl in Hv. injection Hv as <-. by destruct (col_type col). }
  split; [done|]. intros db db' (k & Hk & -> & _)%write_row_ok.
  exists k, (set_field (pk_col t) (VInt k) row).
  rewrite tbl_set_tbl_eq, lookup_replace_into_eq. split_and!; [done|..].
  - apply field_set_field_eq.
  - intros c' Hc'. by apply field_set_field_ne.
  - intros Hne. by rewrite field_set_field_ne.
  - intros ->. unfold rowid_of in Hk. rewrite Hnull in Hk. injection Hk as <-.
    apply new_rowid_fresh.
Qed.


Lemma write_row_raises db t r e :
  write_row db t r = Raise e → ∃ msg, e = IntegrityError msg.
Proof.
  unfold write_row, rowid_of.
  destruct (field (pk_col t) r); simpl; try (intros [= <-]; eauto);
    destruct (_ && _); intros; simplify_eq; eauto.
Qed.

Lemma write_rows_raises db t l e :
  write_rows db t l = Raise e → ∃ msg, e = IntegrityError msg.
Proof.
  revert db. induction l as [|r l IH]; intros db; [done|].
  rewrite write_rows_cons.
  destruct (write_row db t r) as [db1|e1] eqn:Hw; simpl.
  - apply IH.
  - intros [= <-]. by eapply write_row_raises.
Qed.

Lemma write_rows_bad_key db t l r :
  r ∈ l → key_of t r = None → field (pk_col t) r ≠ VNull →
  ∃ e, write_rows db t l = Raise e.
Proof.
  intros Hr Hk Hn. revert db. induction l as [|r0 l IH]; intros db;
    [by apply elem_of_nil in Hr|].
  rewrite write_rows_cons.
  destruct (write_row db t r0) as [db1|e1] eqn:Hw; simpl; [|eauto].
  apply elem_of_cons in Hr as [->|Hr]; [|by apply IH].
  apply write_row_ok in Hw as (k & Hk' & _). unfold rowid_of, key_of in *.
  by destruct (field (pk_col t) r0).
Qed.

(** X: a row whose primary key is, once stored, neither an integer nor NULL
    (a text that is no integer, an empty field, a number with a fraction)
    makes the load of its table raise [IntegrityError], so that [ingest]
    raises. *)
Theorem non_integer_key_aborts dir db_file replace write_ltv t l r :
  loaded dir t = Ok l → r ∈ l →
  key_of t r = None → field (pk_col t) r ≠ VNull →
  (∀ db, ∃ msg, load_db dir t db = Raise (IntegrityError msg))
  ∧ ∃ e, (ingest dir db_file replace write_ltv).1 = Raise e.
Proof.
  intros Hl Hr Hk Hn.
  assert (Hld : ∀ db, ∃ msg, load_db dir t db = Raise (IntegrityError msg)).
  { intros db. rewrite (load_db_loaded _ _ db _ Hl).
    destruct (write_rows_bad_key db t l r Hr Hk Hn) as [e He].
    destruct (write_rows_raises _ _ _ _ He) as [msg ->]. eauto. }
  split; [done|].
  destruct (ingest_db dir db_file replace write_ltv) as [E _]. cbv zeta in E.
  rewrite E. destruct (loads_db dir paths _) as [[[]|e] S] eqn:Hls; [|by eauto].
  destruct (loads_db_own _ _ _ _ t Hls paths_NoDup (elem_of_paths t))
    as (Sa & Sb & Hld' & _).
  destruct (Hld Sa) as [msg Hm]. congruence.
Qed.

End Stored.

Section Success.
Context `{Numerics}.

Lemma fk_col_not_key t c p : (c, p) ∈ FOREIGN_KEY t → c ≠ pk_col t.
Proof.
  destruct t; simpl; rewrite ?elem_of_cons, ?elem_of_nil;
    intros Hfk; destruct_or?; simplify_eq; done.
Qed.

Lemma referencing_parent t ct c : (ct, c) ∈ referencing t → (c, t) ∈ FOREIGN_KEY ct.
Proof.
  destruct t;
    match goal with
    | |- _ ∈ ?l → _ => let l' := eval vm_compute in l in change l with l'
    end;
    rewrite ?elem_of_cons, ?elem_of_nil; intros Hr; destruct_or?; simplify_eq;
    try done; simpl; rewrite ?elem_of_cons; tauto.
Qed.

(** No row of a table with no row in its child tables is referenced. *)
Lemma unreferenced db t k :
  (∀ ct c, (ct, c) ∈ referencing t → tbl db ct = ∅) → referenced db t k = false.
Proof.
  intros He. unfold referenced. apply not_true_is_false.
  intros ([ct c] & Hin%list_elem_of_In & Hex)%existsb_exists.
  simpl in Hex. rewrite (He ct c Hin), map_to_list_empty in Hex. done.
Qed.

(** A row with a usable key whose parents are stored is written, when the
    table has no UNIQUE column or no child row exists. *)
Lemma write_row_succeeds db t r :
  field (pk_col t) r = VNull ∨ is_Some (key_of t r) →
  (∀ c p, (c, p) ∈ FOREIGN_KEY t →
     field c r = VNull ∨ ∃ q, field c r = VInt q ∧ is_Some (tbl db p !! q)) →
  unique_cols t = [] ∨ (∀ ct c, (ct, c) ∈ referencing t → tbl db ct = ∅) →
  ∃ db', write_row db t r = Ok db'.
Proof.
  intros Hk Hfk Hch. unfold write_row.
  assert (∃ k, rowid_of t (tbl db t) r = Ok k) as [k ->].
  { unfold rowid_of. destruct Hk as [->|[k Hk]]; [eauto|].
    apply key_of_Some in Hk. rewrite Hk. eauto. }
  simpl. set (r' := set_field (pk_col t) (VInt k) r).
  set (db' := set_tbl db t _).
  assert (child_ok db' t k r' = true) as ->.
  { unfold db'. rewrite child_ok_set_tbl. apply child_ok_spec. intros c p Hcp.
    unfold cell. rewrite decide_False by by eapply fk_col_not_key.
    unfold r'. rewrite field_set_field_ne by by eapply fk_col_not_key.
    by apply Hfk. }
  assert (parents_ok db db' t = true) as ->; [|simpl; eauto].
  unfold parents_ok. apply forallb_forall.
  intros k0 ([k1 r1] & -> & Hin%elem_of_map_to_list)%list_elem_of_In%list_elem_of_fmap.
  simpl. apply orb_true_iff. destruct Hch as [Hu|He].
  - left. apply bool_decide_eq_true. unfold db'. rewrite tbl_set_tbl_eq.
    unfold replace_into. destruct (decide (k1 = k)) as [->|Hne];
      [by rewrite lookup_insert_eq|].
    rewrite lookup_insert_ne by done. exists r1.
    apply map_lookup_filter_Some. split; [done|]. unfold unique_clash.
    by rewrite Hu.
  - right. rewrite unreferenced; [done|]. intros ct c Hr. unfold db'.
    rewrite tbl_set_tbl_ne; [by eapply He|].
    intros ->. apply referencing_parent in Hr. by apply no_self_reference in Hr.
Qed.

Lemma write_rows_succeed db t l :
  (∀ r, r ∈ l → field (pk_col t) r = VNull ∨ is_Some (key_of t r)) →
  (∀ r c p, r ∈ l → (c, p) ∈ FOREIGN_KEY t →
     field c r = VNull ∨ ∃ q, field c r = VInt q ∧ is_Some (tbl db p !! q)) →
  unique_cols t = [] ∨ (∀ ct c, (ct, c) ∈ referencing t → tbl db ct = ∅) →
  ∃ db', write_rows db t l = Ok db'.
Proof.
  revert db. induction l as [|r l IH]; intros db Hk Hfk Hch; [by exists db|].
  rewrite write_rows_cons.
  destruct (write_row_succeeds db t r) as [db1 Hw];
    [apply Hk; by left|intros c p; apply Hfk; by left|done|].
  rewrite Hw. simpl. apply IH.
  - intros r' Hr'. apply Hk. by right.
  - intros r' c p Hr' Hcp.
    rewrite (write_row_frame _ _ _ _ p Hw) by by apply (no_self_reference t (c, p)).
    apply Hfk; [by right|done].
  - destruct Hch as [?|He]; [by left|right]. intros ct c Hr.
    rewrite (write_row_frame _ _ _ _ ct Hw); [by eapply He|].
    intros ->. apply referencing_parent in Hr. by apply no_self_reference in Hr.
Qed.

(** After its load a table holds every rowid its file carries. *)
Lemma write_rows_present db t l db' r q :
  write_rows db t l = Ok db' → rows_unique_by_key t l →
  r ∈ l → key_of t r = Some q → is_Some (tbl db' t !! q).
Proof.
  intros Hw Hu Hr Hq. destruct (final_row_is_Some t q l r Hr Hq) as [r' Hf].
  exists r'. by eapply write_rows_final.
Qed.

Variable dir : data_dir.
Variable l : table → list row.
Hypothesis Hloaded : ∀ t, loaded dir t = Ok (l t).
Hypothesis Hkeys : ∀ t r, r ∈ l t → field (pk_col t) r = VNull ∨ is_Some (key_of t r).
Hypothesis Huniq : rows_unique_by_key customers (l customers).
Hypothesis Hrefs : ∀ t r c p, r ∈ l t → (c, p) ∈ FOREIGN_KEY t →
  field c r = VNull ∨ ∃ q r', field c r = VInt q ∧ r' ∈ l p ∧ key_of p r' = Some q.

(** The loads of a list of tables whose parents are loaded. *)
Lemma loads_succeed ts db :
  parents_first ts = true → NoDup ts →
  (∀ t, t ∈ ts → unique_cols t = [] ∨ ∀ ct c, (ct, c) ∈ referencing t → tbl db ct = ∅) →
  (∀ t, t ∈ ts → rows_unique_by_key t (l t)) →
  (∀ p r q, p ∉ ts → r ∈ l p → key_of p r = Some q → is_Some (tbl db p !! q)) →
  ∃ S, loads_db dir ts db = (Ok tt, S).
Proof.
  revert db. induction ts as [|t ts IH]; intros db Hpf Hnd Hch Hu Hdone;
    [by exists db|].
  apply parents_first_cons in Hpf as [Hpar Hpf].
  apply NoDup_cons in Hnd as [Hni Hnd].
  simpl. rewrite (load_db_loaded _ _ db _ (Hloaded t)).
  destruct (write_rows_succeed db t (l t)) as [db1 Hw].
  - apply Hkeys.
  - intros r c p Hr Hcp.
    destruct (Hrefs t r c p Hr Hcp) as [?|(q & r' & ? & Hr' & Hq)]; [by left|].
    right. exists q. split; [done|]. eapply Hdone; [|done..].
    by apply (Hpar (c, p)).
  - apply Hch. by left.
  - rewrite Hw. apply IH; [done..| | |].
    + intros t' Ht'. destruct (Hch t' ltac:(by right)) as [?|He]; [by left|].
      right. intros ct c Hr. destruct (decide (ct = t)) as [->|Hne].
      * exfalso. apply referencing_parent in Hr.
        apply (Hpar (c, t')); [done|]. by right.
      * rewrite (write_rows_frame _ _ _ _ ct Hw) by done. by eapply He.
    + intros t' Ht'. apply Hu. by right.
    + intros p r q Hp Hr Hq. destruct (decide (p = t)) as [->|Hne].
      * eapply write_rows_present; [done| |done..]. apply Hu. by left.
      * rewrite (write_rows_frame _ _ _ _ p Hw) by done.
        eapply Hdone; [|done..]. by intros [?|?]%elem_of_cons.
Qed.

Lemma files_load : ∃ S, loads_db dir paths empty_store = (Ok tt, S).
Proof.
  apply loads_succeed; [done|apply paths_NoDup| | |].
  - intros t _. right. intros ct c _. by destruct ct.
  - intros t _. destruct (decide (t = customers)) as [->|Hne]; [done|].
    apply rows_unique_by_key_vacuous. by destruct t.
  - intros p r q Hp. destruct Hp. apply elem_of_paths.
Qed.

End Success.

Section Success_claim.
Context `{Numerics}.

(** X: files that fit the schema are loaded. When the conversions and the
    bindings of every file succeed, every row carries an integer primary key
    or none, two customers share an email only with the same id, and every
    foreign key is empty or the key of a row of the file of the table it
    references, a run on a new database returns. *)
Theorem consistent_files_are_loaded dir db_file replace write_ltv
    (l : table → list row) :
  w_db (start db_file replace) = empty_store →
  (∀ t, loaded dir t = Ok (l t)) →
  (∀ t r, r ∈ l t → field (pk_col t) r = VNull ∨ is_Some (key_of t r)) →
  rows_unique_by_key customers (l customers) →
  (∀ t r c p, r ∈ l t → (c, p) ∈ FOREIGN_KEY t →
     field c r = VNull
     ∨ ∃ q r', field c r = VInt q ∧ r' ∈ l p ∧ key_of p r' = Some q) →
  (ingest dir db_file replace write_ltv).1 = Ok tt.
Proof.
  intros Hs Hl Hk Hu Hr.
  destruct (ingest_db dir db_file replace write_ltv) as [E _]. cbv zeta in E.
  rewrite E, Hs. by destruct (files_load dir l Hl Hk Hu Hr) as [S ->].
Qed.

End Success_claim.


(** * The data generator *)

Section Generated.
Context `{Gen.Sources}.
Import Gen.

Lemma G_bind_inr {A B} (m : G state A) (k : A → G state B) s r :
  (x ← m; k x) s = inr r ↔ ∃ a s1, m s = inr (a, s1) ∧ k a s1 = inr r.
Proof.
  unfold mbind, G_bind. destruct (m s) as [e|[a s1]]; split.
  - done.
  - by intros (? & ? & ? & _).
  - eauto.
  - by intros (? & ? & [= <- <-] & ?).
Qed.

Lemma G_bind_inl {A B} (m : G state A) (k : A → G state B) s e :
  (x ← m; k x) s = inl e ↔
  m s = inl e ∨ ∃ a s1, m s = inr (a, s1) ∧ k a s1 = inl e.
Proof.
  unfold mbind, G_bind. destruct (m s) as [e'|[a s1]]; split.
  - intros [= <-]. by left.
  - intros [[= <-]|(? & ? & ? & _)]; done.
  - intros Hk. right. eauto.
  - intros [?|(? & ? & [= <- <-] & ?)]; done.
Qed.

Lemma draw_inr {A} (f : state → A * state) s r :
  draw f s = inr r ↔ r = f s.
Proof. unfold draw. split; [by intros [= <-]|by intros ->]. Qed.

(** A loop keeps what each turn keeps. *)
Lemma for_acc_inv {A B} (body : B → A → G state B) (P : list A → B → Prop)
    l acc s acc' s' :
  P [] acc →
  (∀ pre x b s b' s', P pre b → body b x s = inr (b', s') → P (pre ++ [x]) b') →
  for_acc body l acc s = inr (acc', s') → P l acc'.
Proof.
  intros H0 Hstep.
  enough (Hg : ∀ pre, P pre acc → for_acc body l acc s = inr (acc', s') →
                      P (pre ++ l) acc') by by apply (Hg []).
  clear H0. revert acc s. induction l as [|x l IH]; intros acc s pre Hp; simpl.
  - intros [= <- <-]. by rewrite app_nil_r.
  - intros (b & s1 & Hb & Hl)%G_bind_inr.
    rewrite (assoc_L _ pre [x] l : pre ++ x :: l = (pre ++ [x]) ++ l).
    eapply IH; [|done]. by eapply Hstep.
Qed.

(** A loop whose turns all return returns. *)
Lemma for_acc_returns {A B} (body : B → A → G state B) (P : B → Prop) l acc s :
  P acc →
  (∀ x b s, P b → ∃ b' s', body b x s = inr (b', s') ∧ P b') →
  ∃ acc' s', for_acc body l acc s = inr (acc', s').
Proof.
  intros H0 Hstep. revert acc s H0. induction l as [|x l IH]; intros acc s H0;
    simpl; [by eexists _, _|].
  destruct (Hstep x acc s H0) as (b' & s1 & Hb & Hp).
  destruct (IH b' s1 Hp) as (acc' & s' & Hl). exists acc', s'.
  apply G_bind_inr. eauto.
Qed.

Lemma choice_elem {A} (a : list A) s x s' :
  choice a s = inr (x, s') → x ∈ a.
Proof.
  unfold choice. intros (i & s1 & _ & Hx)%G_bind_inr.
  destruct (a !! _) eqn:Ha; [|done]. injection Hx as <- <-.
  by eapply list_elem_of_lookup_2.
Qed.

Lemma choice_returns {A} (a : list A) s :
  a ≠ [] → ∃ x s', choice a s = inr (x, s').
Proof.
  intros Ha. unfold choice, mbind, G_bind, draw.
  destruct (np_index (length a) s) as [i s1].
  destruct (lookup_lt_is_Some_2 a (i mod length a)%nat) as [x Hx].
  { apply Nat.mod_upper_bound. by destruct a. }
  rewrite Hx. by eexists _, _.
Qed.

Lemma column_inr {A B} c (get : A → B) (df : list A) s r :
  column c get df s = inr r → r = (get <$> df, s) ∧ df ≠ [].
Proof. unfold column. destruct df; [done|]. by intros [= <-]. Qed.

Lemma randint_range low high s n s' :
  randint low high s = inr (n, s') → low ≤ n < high.
Proof.
  unfold randint. case_decide as Hlt; [|done].
  intros (i & s1 & _ & [= <- <-])%G_bind_inr.
  assert (i mod Z.to_nat (high - low) < Z.to_nat (high - low))%nat
    by (apply Nat.mod_upper_bound; lia).
  lia.
Qed.

Lemma randint_returns low high s :
  low < high → ∃ n s', randint low high s = inr (n, s').
Proof.
  intros Hlt. unfold randint. rewrite decide_True by done.
  unfold mbind, G_bind, draw. destruct (np_index _ s). by eexists _, _.
Qed.

(** A sample is a list of rows of the frame, at distinct positions. *)
Lemma take_sample_sublist {A} n (df : list A) s xs s' :
  take_sample n df s = inr (xs, s') → length xs = n ∧ xs ⊆+ df.
Proof.
  revert df s xs. induction n as [|n IH]; intros df s xs; simpl.
  { intros [= <- <-]. split; [done|]. apply submseteq_nil_l. }
  intros (i & s1 & _ & Hx)%G_bind_inr.
  destruct (df !! _) as [x|] eqn:Hi; [|done].
  apply G_bind_inr in Hx as (ys & s2 & Hys & [= <- <-]).
  apply IH in Hys as [<- Hsub]. split; [done|].
  rewrite (delete_Permutation df _ x Hi). by apply submseteq_skip.
Qed.

Lemma take_sample_returns {A} n (df : list A) s :
  (n ≤ length df)%nat → ∃ xs s', take_sample n df s = inr (xs, s').
Proof.
  revert df s. induction n as [|n IH]; intros df s Hn; simpl; [by eexists _, _|].
  unfold mbind at 1, G_bind, draw. destruct (np_index (length df) s) as [i s1].
  destruct (lookup_lt_is_Some_2 df (i mod length df)%nat) as [x Hx].
  { apply Nat.mod_upper_bound. lia. }
  rewrite Hx.
  destruct (IH (delete (i mod length df)%nat df) s1) as (xs & s' & Hxs).
  { rewrite length_delete by eauto. lia. }
  exists (x :: xs), s'. apply G_bind_inr. eauto.
Qed.

Lemma sample_inr {A} n (df : list A) s xs s' :
  sample n df s = inr (xs, s') → Z.of_nat (length xs) = n ∧ xs ⊆+ df.
Proof.
  unfold sample. case_decide as Hn; [done|].
  intros [Hl Hs]%take_sample_sublist. split; [lia|done].
Qed.

Lemma sample_returns {A} n (df : list A) s :
  0 ≤ n ≤ Z.of_nat (length df) → ∃ xs s', sample n df s = inr (xs, s').
Proof.
  intros Hn. unfold sample. rewrite decide_False by lia.
  apply take_sample_returns. lia.
Qed.

Lemma for_acc_raises {A B} (body : B → A → G state B) l acc s e :
  for_acc body l acc s = inl e → ∃ b x s1, x ∈ l ∧ body b x s1 = inl e.
Proof.
  revert acc s. induction l as [|x l IH]; intros acc s; simpl; [done|].
  intros [Hb|(b & s1 & _ & Hl)]%G_bind_inl.
  - exists acc, x, s. split; [by left|done].
  - destruct (IH _ _ Hl) as (b' & x' & s' & Hx & Hb). exists b', x', s'.
    split; [by right|done].
Qed.

Ltac g_step H :=
  let a := fresh "a" in
  let s := fresh "s" in
  let Ha := fresh "Ha" in
  apply G_bind_inr in H as (a & s & Ha & H).

Ltac g_ret H := unfold mret, G_ret in H; injection H as <- <-.

(** ** The ids *)

Lemma generate_customers_ids n s cs s' :
  generate_customers n s = inr (cs, s') → customer_id <$> cs = seqZ 1 n.
Proof.
  apply (for_acc_inv _ (λ pre acc, customer_id <$> acc = pre)); [done|].
  intros pre x b s0 b' s0' Hp Hb. do 4 g_step Hb. g_ret Hb.
  by rewrite fmap_app, Hp.
Qed.

Lemma generate_products_ids n s ps s' :
  generate_products n s = inr (ps, s') → product_id <$> ps = seqZ 1 n.
Proof.
  apply (for_acc_inv _ (λ pre acc, product_id <$> acc = pre)); [done|].
  intros pre x b s0 b' s0' Hp Hb. do 4 g_step Hb. g_ret Hb.
  by rewrite fmap_app, Hp.
Qed.

Lemma generate_reviews_ids cs ps n s rs s' :
  generate_reviews cs ps n s = inr (rs, s') → review_id <$> rs = seqZ 1 n.
Proof.
  apply (for_acc_inv _ (λ pre acc, review_id <$> acc = pre)); [done|].
  intros pre x b s0 b' s0' Hp Hb. do 7 g_step Hb. g_ret Hb.
  by rewrite fmap_app, Hp.
Qed.

Lemma generate_reviews_refs cs ps n s rs s' :
  generate_reviews cs ps n s = inr (rs, s') →
  ∀ r, r ∈ rs →
    r_product_id r ∈ product_id <$> ps ∧ r_customer_id r ∈ customer_id <$> cs
    ∧ rating r ∈ [1; 2; 3; 4; 5].
Proof.
  apply (for_acc_inv _ (λ (_ : list Z) acc, ∀ r, r ∈ acc →
    r_product_id r ∈ product_id <$> ps ∧ r_customer_id r ∈ customer_id <$> cs
    ∧ rating r ∈ [1; 2; 3; 4; 5])); [by intros ? ?%elem_of_nil|].
  intros pre x b s0 b' s0' Hp Hb. do 7 g_step Hb. g_ret Hb.
  apply column_inr in Ha as [[= -> ->] _]. apply choice_elem in Ha0.
  apply column_inr in Ha1 as [[= -> ->] _]. apply choice_elem in Ha2.
  apply choice_elem in Ha3.
  intros r [Hr|Hr%list_elem_of_singleton]%elem_of_app; [by apply Hp|by subst r].
Qed.

(** ** Orders and their items *)

Lemma order_lines_inr oid chosen its0 s its tot s' :
  order_lines oid chosen its0 s = inr ((its, tot), s') →
  ∃ b, its = its0 ++ b ∧ Forall2 (line_of oid) chosen b
     ∧ tot = foldl f64_add (S754_zero false) (line_total <$> b)
     ∧ order_item_id <$> b = seqZ (Z.of_nat (length its0) + 1) (Z.of_nat (length b)).
Proof.
  apply (for_acc_inv _ (λ pre '(its, tot),
    ∃ b, its = its0 ++ b ∧ Forall2 (line_of oid) pre b
       ∧ tot = foldl f64_add (S754_zero false) (line_total <$> b)
       ∧ order_item_id <$> b = seqZ (Z.of_nat (length its0) + 1) (Z.of_nat (length b)))
    chosen (its0, S754_zero false) s (its, tot) s').
  { exists []. by rewrite app_nil_r. }
  intros pre p [its1 tot1] s0 [its2 tot2] s0' (b & -> & Hf & -> & Hid) Hb.
  g_step Hb. g_ret Hb. apply choice_elem in Ha.
  eexists (b ++ [_]). split; [by rewrite (assoc_L (++))|]. split; [|split].
  - apply Forall2_app; [done|]. constructor; [|constructor].
    unfold line_of. simpl. split_and!; try done.
    revert Ha. rewrite !elem_of_cons, !elem_of_nil. tauto.
  - by rewrite fmap_app, foldl_app.
  - rewrite fmap_app, Hid, !length_app. simpl.
    rewrite (Nat2Z.inj_add (length b) 1), seqZ_app by lia.
    f_equal. change (seqZ ?m (Z.of_nat 1)) with [0 + m]. f_equal. lia.
Qed.

Lemma order_lines_returns oid chosen its0 s :
  ∃ r s', order_lines oid chosen its0 s = inr (r, s').
Proof.
  apply (for_acc_returns _ (λ _, True)); [done|].
  intros p [its tot] s0 _.
  destruct (choice_returns [1; 1; 1; 2; 3] s0) as (q & s1 & Hq); [done|].
  eexists _, s1. split; [|done]. apply G_bind_inr. by exists q, s1.
Qed.

Lemma seqZ_of_length m n : seqZ m (Z.of_nat (Z.to_nat n)) = seqZ m n.
Proof. unfold seqZ. by rewrite Nat2Z.id. Qed.

Lemma generate_orders_blocks n cs ps s os its s' :
  generate_orders_and_items n cs ps s = inr ((os, its), s') →
  order_id <$> os = seqZ 1 n
  ∧ order_item_id <$> its = seqZ 1 (Z.of_nat (length its))
  ∧ ∃ blocks, Forall2 (order_block cs ps) os blocks ∧ its = concat blocks.
Proof.
  unfold generate_orders_and_items. intros Hg. g_step Hg.
  destruct a as [[os1 its1] oid]. g_ret Hg.
  rewrite <- (seqZ_of_length 1 n), <- (length_seqZ 0 n).
  enough (Hp : oid = Z.of_nat (length (seqZ 0 n)) + 1
    ∧ order_id <$> os1 = seqZ 1 (Z.of_nat (length (seqZ 0 n)))
    ∧ order_item_id <$> its1 = seqZ 1 (Z.of_nat (length its1))
    ∧ ∃ blocks, Forall2 (order_block cs ps) os1 blocks ∧ its1 = concat blocks)
    by tauto.
  revert Ha.
  apply (for_acc_inv _ (λ pre '(os, its, oid),
    oid = Z.of_nat (length pre) + 1
    ∧ order_id <$> os = seqZ 1 (Z.of_nat (length pre))
    ∧ order_item_id <$> its = seqZ 1 (Z.of_nat (length its))
    ∧ ∃ blocks, Forall2 (order_block cs ps) os blocks ∧ its = concat blocks)
    (seqZ 0 n) ([], [], 1) s (os1, its1, oid) s0).
  { repeat split. by exists []. }
  clear. intros pre x [[os its] oid] s [[os' its'] oid'] s'
    (-> & Hos & Hits & blocks & Hbl & ->) Hb.
  do 6 g_step Hb. destruct a4 as [its2 tot]. g_step Hb. g_ret Hb.
  apply column_inr in Ha as [[= -> ->] _]. apply choice_elem in Ha0.
  pose proof (randint_range _ _ _ _ _ Ha2) as Hn.
  apply sample_inr in Ha3 as [Hlen Hsub].
  apply order_lines_inr in Ha4 as (b & -> & Hl & -> & Hid).
  apply choice_elem in Ha5.
  rewrite length_app. simpl. repeat split.
  - lia.
  - rewrite fmap_app, Hos, (Nat2Z.inj_add (length pre) 1), seqZ_app by lia.
    f_equal. change (seqZ ?m (Z.of_nat 1)) with [0 + m]. simpl. f_equal. lia.
  - rewrite fmap_app, Hits, Hid, length_app, Nat2Z.inj_add, seqZ_app by lia.
    do 2 f_equal. lia.
  - exists (blocks ++ [b]). split; [|by rewrite concat_app; simpl; rewrite app_nil_r].
    apply Forall2_app; [done|]. constructor; [|constructor].
    unfold order_block. simpl. split_and!; try done.
    exists a3. split; [done|]. split; [lia|done].
Qed.

Lemma elem_of_concat {A} (x : A) (ls : list (list A)) :
  x ∈ concat ls ↔ ∃ l, l ∈ ls ∧ x ∈ l.
Proof.
  induction ls as [|l ls IH]; simpl.
  - split; [by intros ?%elem_of_nil|by intros (? & ?%elem_of_nil & _)].
  - rewrite elem_of_app, IH. split.
    + intros [Hx|(l' & Hl' & Hx)]; [exists l; split; [by left|done]|].
      exists l'. split; [by right|done].
    + intros (l' & [->|Hl']%elem_of_cons & Hx); [by left|right; eauto].
Qed.

(** The items of an order are its block. *)
Lemma lines_of_block os blocks i o b :
  Forall2 (λ o b, ∀ it, it ∈ b → i_order_id it = order_id o) os blocks →
  NoDup (order_id <$> os) →
  os !! i = Some o → blocks !! i = Some b →
  lines_of o (concat blocks) = b.
Proof.
  unfold lines_of. intros Hf. revert i.
  induction Hf as [|o0 b0 os blocks Hb0 Hf IH]; intros i Hnd Ho Hb; [done|].
  rewrite fmap_cons in Hnd. apply NoDup_cons in Hnd as [Hni Hnd].
  simpl. rewrite filter_app. destruct i as [|i]; simpl in Ho, Hb.
  - injection Ho as ->. injection Hb as ->.
    rewrite filter_all by done. rewrite filter_none; [by rewrite app_nil_r|].
    intros it (b' & Hb' & Hit)%elem_of_concat Hid.
    apply list_elem_of_lookup in Hb' as [j Hj].
    destruct (Forall2_lookup_r _ _ _ _ _ Hf Hj) as (o' & Ho' & Hall).
    apply Hni. rewrite <- Hid, (Hall it Hit).
    apply list_elem_of_fmap_2. by eapply list_elem_of_lookup_2.
  - rewrite filter_none; [by eapply IH|].
    intros it Hit Hid. apply Hni. rewrite <- (Hb0 it Hit), Hid.
    apply list_elem_of_fmap_2. by eapply list_elem_of_lookup_2.
Qed.

Lemma order_block_ids cs ps os blocks :
  Forall2 (order_block cs ps) os blocks →
  Forall2 (λ o b, ∀ it, it ∈ b → i_order_id it = order_id o) os blocks.
Proof.
  intros Hf. eapply Forall2_impl; [done|].
  intros o b (_ & _ & (ch & _ & _ & Hl) & _) it Hit.
  apply list_elem_of_lookup in Hit as [j Hj].
  destruct (Forall2_lookup_r _ _ _ _ _ Hl Hj) as (p & _ & Hp). apply Hp.
Qed.

Lemma NoDup_seqZ m n : NoDup (seqZ m n).
Proof.
  unfold seqZ. apply NoDup_fmap_2; [|apply NoDup_seq]. intros i j ?. lia.
Qed.

Lemma generate_orders_lines n cs ps s os its s' o :
  generate_orders_and_items n cs ps s = inr ((os, its), s') → o ∈ os →
  order_block cs ps o (lines_of o its).
Proof.
  intros (Hos & _ & blocks & Hbl & ->)%generate_orders_blocks
         [i Hi]%list_elem_of_lookup.
  destruct (Forall2_lookup_l _ _ _ _ _ Hbl Hi) as (b & Hb & Hob).
  rewrite (lines_of_block os blocks i o b); [done| | |done..].
  - by eapply order_block_ids.
  - rewrite Hos. apply NoDup_seqZ.
Qed.

Lemma submseteq_NoDup {A} (l k : list A) : l ⊆+ k → NoDup k → NoDup l.
Proof.
  intros [k' Hk]%submseteq_Permutation. rewrite Hk.
  by intros (? & _ & _)%NoDup_app.
Qed.

Lemma line_of_products oid chosen b :
  Forall2 (line_of oid) chosen b → i_product_id <$> b = product_id <$> chosen.
Proof.
  induction 1 as [|p it chosen b (_ & Hp & _) _ IH]; [done|].
  by rewrite !fmap_cons, Hp, IH.
Qed.

(** ** When the generators return *)

Lemma returns_bind {A B} (m : G state A) (k : A → G state B) s :
  returns m s → (∀ a s1, m s = inr (a, s1) → returns (k a) s1) →
  returns (x ← m; k x) s.
Proof.
  intros (a & s1 & Hm) Hk. destruct (Hk a s1 Hm) as (b & s' & Hb).
  exists b, s'. apply G_bind_inr. eauto.
Qed.

Lemma returns_draw {A} (f : state → A * state) s : returns (draw f) s.
Proof. unfold returns, draw. destruct (f s). eauto. Qed.

Lemma returns_ret {A} (a : A) s : returns (mret a) s.
Proof. by exists a, s. Qed.

Lemma returns_for_acc {A B} (body : B → A → G state B) l acc s :
  (∀ x b s, returns (body b x) s) → returns (for_acc body l acc) s.
Proof.
  intros Hb. apply (for_acc_returns _ (λ _, True)); [done|].
  intros x b s0 _. destruct (Hb x b s0) as (b' & s' & E). eauto.
Qed.

Lemma generate_products_returns n s : returns (generate_products n) s.
Proof.
  apply returns_for_acc. intros x b s0.
  apply returns_bind; [by apply choice_returns|intros].
  repeat (apply returns_bind; [apply returns_draw|intros]).
  apply returns_ret.
Qed.

Lemma generate_customers_raises n s e :
  generate_customers n s = inl e → e = UniquenessException.
Proof.
  intros (b & x & s1 & _ & Hb)%for_acc_raises.
  apply G_bind_inl in Hb as [Hb|(a & s2 & _ & Hb)]; [done|].
  apply G_bind_inl in Hb as [Hb|(a' & s3 & _ & Hb)].
  { unfold unique_email in Hb. destruct (fake_unique_email s2) as [[?|] ?]; congruence. }
  apply G_bind_inl in Hb as [Hb|(a2 & s4 & _ & Hb)]; [done|].
  apply G_bind_inl in Hb as [Hb|(a3 & s5 & _ & Hb)]; done.
Qed.

Lemma generate_orders_returns n cs ps s :
  cs ≠ [] → (5 ≤ length ps)%nat → returns (generate_orders_and_items n cs ps) s.
Proof.
  intros Hcs Hps. unfold generate_orders_and_items.
  apply returns_bind; [|intros [[os its] oid] s1 _; apply returns_ret].
  apply returns_for_acc. intros _ [[os its] oid] s0.
  apply returns_bind; [destruct cs; [done|by eexists _, _]|].
  intros ids s1 [[= -> ->] _]%column_inr.
  apply returns_bind; [apply choice_returns; by destruct cs|intros cid s2 _].
  apply returns_bind; [apply returns_draw|intros dt s3 _].
  apply returns_bind; [by apply randint_returns|intros k s4 Hk%randint_range].
  apply returns_bind; [apply sample_returns; lia|intros ch s5 _].
  apply returns_bind; [apply order_lines_returns|intros [its' tot] s6 _].
  apply returns_bind; [by apply choice_returns|intros].
  apply returns_ret.
Qed.

Lemma generate_reviews_returns cs ps n s :
  cs ≠ [] → ps ≠ [] → returns (generate_reviews cs ps n) s.
Proof.
  intros Hcs Hps. apply returns_for_acc. intros x b s0.
  apply returns_bind; [destruct ps; [done|by eexists _, _]|].
  intros ids s1 [[= -> ->] _]%column_inr.
  apply returns_bind; [apply choice_returns; by destruct ps|intros pid s2 _].
  apply returns_bind; [destruct cs; [done|by eexists _, _]|].
  intros ids s3 [[= -> ->] _]%column_inr.
  apply returns_bind; [apply choice_returns; by destruct cs|intros cid s4 _].
  apply returns_bind; [by apply choice_returns|intros].
  repeat (apply returns_bind; [apply returns_draw|intros]).
  apply returns_ret.
Qed.

(** ** The script *)

Lemma main_inr seed scale d :
  main seed scale = inr d ↔
  0 ≤ seed < 2 ^ 32
  ∧ ∃ nc np no nr s',
      scaled 500 scale = inr nc ∧ scaled 200 scale = inr np
      ∧ scaled 2500 scale = inr no ∧ scaled 800 scale = inr nr
      ∧ generate_all nc np no nr (seeded seed) = inr (d, s').
Proof.
  unfold main. case_decide as Hs; [|split; [done|tauto]].
  destruct (scaled 500 scale) as [|nc]; [split; [done|by intros (_ & ? & ? & ? & ? & ? & ? & _)]|].
  destruct (scaled 200 scale) as [|np]; [split; [done|by intros (_ & ? & ? & ? & ? & ? & _ & ? & _)]|].
  destruct (scaled 2500 scale) as [|no]; [split; [done|by intros (_ & ? & ? & ? & ? & ? & _ & _ & ? & _)]|].
  destruct (scaled 800 scale) as [|nr]; [split; [done|by intros (_ & ? & ? & ? & ? & ? & _ & _ & _ & ? & _)]|].
  destruct (generate_all nc np no nr (seeded seed)) as [e|[d' s']] eqn:Hg; split.
  - done.
  - intros (_ & ? & ? & ? & ? & ? & [= <-] & [= <-] & [= <-] & [= <-] & ?). congruence.
  - intros [= <-]. split; [done|]. by exists nc, np, no, nr, s'.
  - intros (_ & ? & ? & ? & ? & ? & [= <-] & [= <-] & [= <-] & [= <-] & ?). congruence.
Qed.

Lemma generate_all_inr nc np no nr s d s' :
  generate_all nc np no nr s = inr (d, s') ↔
  ∃ s1 s2 s3,
    generate_customers nc s = inr (customers_df d, s1)
    ∧ generate_products np s1 = inr (products_df d, s2)
    ∧ generate_orders_and_items no (customers_df d) (products_df d) s2
      = inr ((orders_df d, items_df d), s3)
    ∧ generate_reviews (customers_df d) (products_df d) nr s3
      = inr (reviews_df d, s').
Proof.
  unfold generate_all. split.
  - intros Hg. do 3 g_step Hg. destruct a1 as [os its]. g_step Hg. g_ret Hg.
    simpl. by exists s0, s1, s2.
  - intros (s1 & s2 & s3 & Hc & Hp & Ho & Hr). destruct d as [cs ps os its rs].
    simpl in *. apply G_bind_inr. exists cs, s1. split; [done|].
    apply G_bind_inr. exists ps, s2. split; [done|].
    apply G_bind_inr. exists (os, its), s3. split; [done|].
    apply G_bind_inr. exists rs, s'. split; [done|]. done.
Qed.

Lemma generate_orders_refs n cs ps s os its s' :
  generate_orders_and_items n cs ps s = inr ((os, its), s') →
  (∀ o, o ∈ os → ∃ c, c ∈ cs ∧ customer_id c = o_customer_id o)
  ∧ (∀ it, it ∈ its →
       (∃ o, o ∈ os ∧ order_id o = i_order_id it)
       ∧ ∃ p, p ∈ ps ∧ product_id p = i_product_id it ∧ price p = unit_price it).
Proof.
  intros (_ & _ & blocks & Hbl & ->)%generate_orders_blocks. split.
  - intros o [i Hi]%list_elem_of_lookup.
    destruct (Forall2_lookup_l _ _ _ _ _ Hbl Hi) as (b & _ & Hc & _).
    apply list_elem_of_fmap in Hc as (c & -> & Hc). eauto.
  - intros it (b & [j Hj]%list_elem_of_lookup & [k Hk]%list_elem_of_lookup)%elem_of_concat.
    destruct (Forall2_lookup_r _ _ _ _ _ Hbl Hj)
      as (o & Ho & _ & _ & (ch & Hsub & _ & Hl) & _).
    destruct (Forall2_lookup_r _ _ _ _ _ Hl Hk) as (p & Hp & Hio & Hip & Hup & _).
    split.
    + exists o. split; [by eapply list_elem_of_lookup_2|done].
    + exists p. split; [|done].
      eapply elem_of_submseteq; [by eapply list_elem_of_lookup_2|done].
Qed.

Lemma seqZ_nonpos m n : n ≤ 0 → seqZ m n = [].
Proof. intros Hn. unfold seqZ. by replace (Z.to_nat n) with 0%nat by lia. Qed.

Lemma ids_length {A} (get : A → Z) (l : list A) m n :
  get <$> l = seqZ m n → length l = Z.to_nat n.
Proof. intros E. by rewrite <- (length_fmap get), E, length_seqZ. Qed.

(** ** The SKU of a product *)

Lemma digits_value_char acc x s :
  (x < 10)%N →
  digits_value acc (String (pretty_N_char x) s) = digits_value (acc * 10 + x) s.
Proof.
  intros Hx.
  assert (x = 0 ∨ x = 1 ∨ x = 2 ∨ x = 3 ∨ x = 4 ∨ x = 5 ∨ x = 6 ∨ x = 7
          ∨ x = 8 ∨ x = 9)%N as Hc by lia.
  destruct_or!; subst x; reflexivity.
Qed.

Lemma digits_value_go x :
  ∃ k, ∀ acc s,
    digits_value acc (pretty_N_go x s) = digits_value (acc * 10 ^ k + x) s.
Proof.
  induction (N.lt_wf_0 x) as [x _ IH].
  destruct (decide (x = 0%N)) as [->|Hx].
  - exists 0%N. intros acc s. rewrite pretty_N_go_0. f_equal. lia.
  - destruct (IH (x `div` 10)%N) as [k Hk]; [apply N.div_lt; lia|].
    exists (k + 1)%N. intros acc s.
    rewrite pretty_N_go_step by lia.
    rewrite Hk, digits_value_char by (apply N.mod_lt; lia).
    f_equal. rewrite N.pow_add_r, N.pow_1_r.
    pose proof (N.div_mod x 10 ltac:(lia)). lia.
Qed.

Lemma digits_value_pretty (x : N) : digits_value 0 (pretty x) = x.
Proof.
  unfold pretty, pretty_N. case_decide as Hx; [by subst|].
  destruct (digits_value_go x) as [k Hk]. by rewrite Hk.
Qed.

Lemma digits_value_zeros w d :
  digits_value 0 (String.concat EmptyString (replicate w "0") +:+ d)
  = digits_value 0 d.
Proof.
  induction w as [|w IH]; [done|].
  replace (String.concat EmptyString (replicate (S w) "0") +:+ d)
    with (String "0" (String.concat EmptyString (replicate w "0") +:+ d))
    by (by destruct w).
  apply IH.
Qed.

Lemma sku_number_format n :
  0 ≤ n → sku_number ("SKU-" +:+ format_06d n) = Some n.
Proof.
  intros Hn. unfold format_06d. rewrite (proj2 (Z.ltb_ge n 0)) by done.
  change (sku_number ("SKU-" +:+ EmptyString +:+ ?x))
    with (Some (Z.of_N (digits_value 0 x))).
  rewrite digits_value_zeros. f_equal.
  destruct n as [|p|p]; [done| |lia].
  change (pretty (Z.abs (Z.pos p))) with (pretty (N.pos p)).
  by rewrite digits_value_pretty.
Qed.

Lemma generate_products_skus n s ps s' :
  generate_products n s = inr (ps, s') →
  ∀ p, p ∈ ps → sku p = "SKU-" +:+ format_06d (product_id p)
                ∧ category p ∈ categories.
Proof.
  apply (for_acc_inv _ (λ (_ : list Z) acc, ∀ p, p ∈ acc →
    sku p = "SKU-" +:+ format_06d (product_id p) ∧ category p ∈ categories));
    [by intros ? ?%elem_of_nil|].
  intros pre x b s0 b' s0' Hp Hb. do 4 g_step Hb. g_ret Hb.
  apply choice_elem in Ha.
  intros p [Hin|Hin%list_elem_of_singleton]%elem_of_app; [by apply Hp|by subst p].
Qed.

(** ** The values of the columns *)

Lemma replace_newlines_line s :
  "010"%char ∉ list_ascii_of_string (replace_newlines s).
Proof.
  induction s as [|a s IH]; simpl; [by intros ?%elem_of_nil|].
  destruct (Ascii.eqb a "010") eqn:Ea; simpl.
  - rewrite !not_elem_of_cons. done.
  - rewrite not_elem_of_cons. split; [|done].
    intros <-. by rewrite Ascii.eqb_refl in Ea.
Qed.

Lemma generate_customers_addresses n s cs s' :
  generate_customers n s = inr (cs, s') →
  ∀ c, c ∈ cs → "010"%char ∉ list_ascii_of_string (address c).
Proof.
  apply (for_acc_inv _ (λ (_ : list Z) acc, ∀ c, c ∈ acc →
    "010"%char ∉ list_ascii_of_string (address c)));
    [by intros ? ?%elem_of_nil|].
  intros pre x b s0 b' s0' Hp Hb. do 4 g_step Hb. g_ret Hb.
  intros c [Hin|Hin%list_elem_of_singleton]%elem_of_app; [by apply Hp|].
  subst c. apply replace_newlines_line.
Qed.

Lemma generate_orders_values n cs ps s os its s' :
  generate_orders_and_items n cs ps s = inr ((os, its), s') →
  (∀ o, o ∈ os → status o ∈ statuses)
  ∧ (∀ it, it ∈ its → quantity it ∈ [1; 2; 3]).
Proof.
  intros (_ & _ & blocks & Hbl & ->)%generate_orders_blocks. split.
  - intros o [i Hi]%list_elem_of_lookup.
    by destruct (Forall2_lookup_l _ _ _ _ _ Hbl Hi) as (b & _ & _ & Hs & _).
  - intros it (b & [j Hj]%list_elem_of_lookup & [k Hk]%list_elem_of_lookup)%elem_of_concat.
    destruct (Forall2_lookup_r _ _ _ _ _ Hbl Hj)
      as (o & Ho & _ & _ & (ch & Hsub & _ & Hl) & _).
    by destruct (Forall2_lookup_r _ _ _ _ _ Hl Hk) as (p & Hp & _ & _ & _ & Hq & _).
Qed.

End Generated.

Section Generator_claims.
Context `{Gen.Sources}.
Import Gen.

(** X: the keys of the generated frames. When [main] returns, the ids of the
    customers, products, orders and reviews are 1, 2, ... up to the size
    computed for the frame ([int(base * scale)]), in the order of the rows,
    and the items are numbered 1, 2, ... in the order of the rows. *)
Theorem generated_keys_count_from_one seed scale d :
  main seed scale = inr d →
  ∃ n_customers n_products n_orders n_reviews,
    scaled 500 scale = inr n_customers ∧ scaled 200 scale = inr n_products
    ∧ scaled 2500 scale = inr n_orders ∧ scaled 800 scale = inr n_reviews
    ∧ customer_id <$> customers_df d = seqZ 1 n_customers
    ∧ product_id <$> products_df d = seqZ 1 n_products
    ∧ order_id <$> orders_df d = seqZ 1 n_orders
    ∧ order_item_id <$> items_df d = seqZ 1 (Z.of_nat (length (items_df d)))
    ∧ review_id <$> reviews_df d = seqZ 1 n_reviews.
Proof.
  intros (_ & nc & np & no & nr & s' & Hc & Hp & Ho & Hr & Hg)%main_inr.
  apply generate_all_inr in Hg as (s1 & s2 & s3 & Gc & Gp & Go & Gr).
  exists nc, np, no, nr. split_and!; try done.
  - by eapply generate_customers_ids.
  - by eapply generate_products_ids.
  - by eapply generate_orders_blocks.
  - by eapply generate_orders_blocks.
  - by eapply generate_reviews_ids.
Qed.

(** X: the references of the generated frames. When [main] returns, every
    order names a generated customer, every item names a generated order and
    a generated product whose price is the item's unit price, and every
    review names a generated product and a generated customer. *)
Theorem generated_references_exist seed scale d :
  main seed scale = inr d →
  (∀ o, o ∈ orders_df d →
     ∃ c, c ∈ customers_df d ∧ customer_id c = o_customer_id o)
  ∧ (∀ it, it ∈ items_df d →
       (∃ o, o ∈ orders_df d ∧ order_id o = i_order_id it)
       ∧ ∃ p, p ∈ products_df d ∧ product_id p = i_product_id it
              ∧ price p = unit_price it)
  ∧ (∀ r, r ∈ reviews_df d →
       (∃ p, p ∈ products_df d ∧ product_id p = r_product_id r)
       ∧ ∃ c, c ∈ customers_df d ∧ customer_id c = r_customer_id r).
Proof.
  intros (_ & nc & np & no & nr & s' & _ & _ & _ & _ & Hg)%main_inr.
  apply generate_all_inr in Hg as (s1 & s2 & s3 & _ & _ & Go & Gr).
  apply generate_orders_refs in Go as [Hos Hits]. split_and!; [done..|].
  intros r Hr. destruct (generate_reviews_refs _ _ _ _ _ _ Gr r Hr) as (Hp & Hc & _).
  apply list_elem_of_fmap in Hp as (p & -> & Hp).
  apply list_elem_of_fmap in Hc as (c & -> & Hc). split; eauto.
Qed.

(** X: an order and its items. In the frames [generate_orders_and_items]
    returns, the items are grouped by order, in the order of the orders, and
    each order has between one and five items, made from rows at distinct
    positions of the products frame: an item carries the id and the price of
    its product, a quantity of 1, 2 or 3 and the rounded product of price and
    quantity, and the total of the order is the rounded sum of the line
    totals of its items. *)
Theorem order_total_sums_its_lines n cs ps s os its s' :
  generate_orders_and_items n cs ps s = inr ((os, its), s') →
  its = concat ((λ o, lines_of o its) <$> os)
  ∧ ∀ o, o ∈ os → order_block cs ps o (lines_of o its).
Proof.
  intros Hg. split; [|intros o Ho; by eapply generate_orders_lines].
  apply generate_orders_blocks in Hg as (Hos & _ & blocks & Hbl & ->).
  f_equal. apply list_eq. intros i. rewrite list_lookup_fmap.
  destruct (os !! i) as [o|] eqn:Ho; simpl.
  - destruct (Forall2_lookup_l _ _ _ _ _ Hbl Ho) as (b & Hb & _).
    rewrite Hb. f_equal. symmetry. eapply lines_of_block; [|  |done..].
    + by eapply order_block_ids.
    + rewrite Hos. apply NoDup_seqZ.
  - apply lookup_ge_None. rewrite <- (Forall2_length _ _ _ Hbl).
    by apply lookup_ge_None.
Qed.

(** X: no product twice in an order. When [main] returns, the items of an
    order are items of different products. *)
Theorem order_lists_a_product_once seed scale d o :
  main seed scale = inr d → o ∈ orders_df d →
  NoDup (i_product_id <$> lines_of o (items_df d)).
Proof.
  intros (_ & nc & np & no & nr & s' & _ & _ & _ & _ & Hg)%main_inr Ho.
  apply generate_all_inr in Hg as (s1 & s2 & s3 & _ & Gp & Go & _).
  destruct (generate_orders_lines _ _ _ _ _ _ _ o Go Ho)
    as (_ & _ & (ch & Hsub & _ & Hl) & _).
  rewrite (line_of_products _ _ _ Hl).
  apply (submseteq_NoDup _ (product_id <$> products_df d)).
  - by apply fmap_submseteq.
  - rewrite (generate_products_ids _ _ _ _ Gp). apply NoDup_seqZ.
Qed.

(** X: orders need customers and five products. With a customers frame that
    has a row and a products frame of at least five rows,
    [generate_orders_and_items] returns, whatever is drawn. *)
Theorem orders_are_generated_from_five_products n cs ps s :
  cs ≠ [] → (5 ≤ length ps)%nat →
  ∃ os its s', generate_orders_and_items n cs ps s = inr ((os, its), s').
Proof.
  intros Hcs Hps.
  destruct (generate_orders_returns n cs ps s Hcs Hps) as ([os its] & s' & E).
  by exists os, its, s'.
Qed.

(** X: a run stops only for want of a new email. With a seed that numpy
    accepts and a scale that asks for a customer and for five products,
    [main] returns, or raises Faker's [UniquenessException]. *)
Theorem main_fails_only_on_emails seed scale nc np no nr :
  0 ≤ seed < 2 ^ 32 →
  scaled 500 scale = inr nc → scaled 200 scale = inr np →
  scaled 2500 scale = inr no → scaled 800 scale = inr nr →
  1 ≤ nc → 5 ≤ np →
  (∃ d, main seed scale = inr d) ∨ main seed scale = inl UniquenessException.
Proof.
  intros Hs Hc Hp Ho Hr Hnc Hnp. unfold main.
  rewrite decide_True, Hc, Hp, Ho, Hr by done.
  destruct (generate_all nc np no nr (seeded seed)) as [e|[d s']] eqn:Hg;
    [right|left; by exists d].
  f_equal. unfold generate_all in Hg.
  apply G_bind_inl in Hg as [Gc|(cs & s1 & Gc & Hg)];
    [by eapply generate_customers_raises|].
  destruct (generate_products_returns np s1) as (ps' & s2' & Gp').
  apply G_bind_inl in Hg as [Gp|(ps & s2 & Gp & Hg)]; [congruence|].
  pose proof (ids_length _ _ _ _ (generate_customers_ids _ _ _ _ Gc)) as Lc.
  pose proof (ids_length _ _ _ _ (generate_products_ids _ _ _ _ Gp)) as Lp.
  assert (Hcs : cs ≠ []) by (intros ->; simpl in Lc; lia).
  assert (Hps : ps ≠ []) by (intros ->; simpl in Lp; lia).
  destruct (generate_orders_returns no cs ps s2 Hcs ltac:(lia))
    as ([os' its'] & s3' & Go').
  apply G_bind_inl in Hg as [Go|([os its] & s3 & Go & Hg)]; [congruence|].
  destruct (generate_reviews_returns cs ps nr s3 Hcs Hps) as (rs' & s4' & Gr').
  apply G_bind_inl in Hg as [Gr|(rs & s4 & Gr & Hg)]; [congruence|done].
Qed.

(** X: a scale too small for a customer. With a seed that numpy accepts and
    a scale that asks for no customer but for an order, [main] raises
    [KeyError] on the column [customer_id] of the customers frame. *)
Theorem orders_without_customers_raise seed scale nc np no nr :
  0 ≤ seed < 2 ^ 32 →
  scaled 500 scale = inr nc → scaled 200 scale = inr np →
  scaled 2500 scale = inr no → scaled 800 scale = inr nr →
  nc ≤ 0 → 1 ≤ no →
  main seed scale = inl (KeyError "customer_id").
Proof.
  intros Hs Hc Hp Ho Hr Hnc Hno. unfold main.
  rewrite decide_True, Hc, Hp, Ho, Hr by done.
  enough (Hg : generate_all nc np no nr (seeded seed)
               = inl (KeyError "customer_id")) by by rewrite Hg.
  destruct (generate_products_returns np (seeded seed)) as (ps & s2 & Gp).
  apply G_bind_inl. right. exists [], (seeded seed). split.
  { unfold generate_customers. by rewrite seqZ_nonpos. }
  apply G_bind_inl. right. exists ps, s2. split; [done|].
  apply G_bind_inl. left. unfold generate_orders_and_items.
  apply G_bind_inl. left.
  replace no with (1 + (no - 1)) by lia. by rewrite seqZ_cons by lia.
Qed.

(** X: a scale that asks for nothing. With a seed that numpy accepts and a
    scale for which no size is positive (zero, or a negative number), [main]
    returns five frames without rows. *)
Theorem scale_without_rows_gives_empty_frames seed scale nc np no nr :
  0 ≤ seed < 2 ^ 32 →
  scaled 500 scale = inr nc → scaled 200 scale = inr np →
  scaled 2500 scale = inr no → scaled 800 scale = inr nr →
  nc ≤ 0 → np ≤ 0 → no ≤ 0 → nr ≤ 0 →
  main seed scale = inr (Dataset [] [] [] [] []).
Proof.
  intros Hs Hc Hp Ho Hr Hnc Hnp Hno Hnr. unfold main.
  rewrite decide_True, Hc, Hp, Ho, Hr by done.
  unfold generate_all, generate_customers, generate_products,
    generate_orders_and_items, generate_reviews.
  by rewrite !seqZ_nonpos by done.
Qed.

(** X: the SKU of a product. A product [generate_products] returns has
    the SKU [SKU-] followed by its id, padded with zeros to six digits; the
    number read back from the SKU is the id, and no two products of the frame
    have the same SKU. *)
Theorem sku_names_the_product n s ps s' :
  generate_products n s = inr (ps, s') →
  (∀ p, p ∈ ps → sku p = "SKU-" +:+ format_06d (product_id p)
                 ∧ sku_number (sku p) = Some (product_id p))
  ∧ NoDup (sku <$> ps).
Proof.
  intros Hg. pose proof (generate_products_ids _ _ _ _ Hg) as Hids.
  assert (Hn : ∀ p, p ∈ ps → sku_number (sku p) = Some (product_id p)).
  { intros p Hp. destruct (generate_products_skus _ _ _ _ Hg p Hp) as [-> _].
    apply sku_number_format.
    assert (Hi : product_id p ∈ seqZ 1 n)
      by (rewrite <- Hids; by apply list_elem_of_fmap_2).
    apply elem_of_seqZ in Hi. lia. }
  split.
  - intros p Hp. split; [by apply (generate_products_skus _ _ _ _ Hg)|by apply Hn].
  - apply (NoDup_fmap_1 sku_number). rewrite <- list_fmap_compose.
    rewrite (list_fmap_ext (sku_number ∘ sku) (Some ∘ product_id) ps).
    + rewrite list_fmap_compose, Hids. apply NoDup_fmap_2; [apply _|apply NoDup_seqZ].
    + intros i p Hp. apply Hn. by eapply list_elem_of_lookup_2.
Qed.

(** X: the values of the generated columns. When [main] returns, every
    product has one of the seven categories, every order one of the four
    statuses, every item a quantity of 1, 2 or 3, every review a rating from
    1 to 5, and no address of a customer holds a line break. *)
Theorem generated_values_are_in_range seed scale d :
  main seed scale = inr d →
  (∀ p, p ∈ products_df d → category p ∈ categories)
  ∧ (∀ o, o ∈ orders_df d → status o ∈ statuses)
  ∧ (∀ it, it ∈ items_df d → quantity it ∈ [1; 2; 3])
  ∧ (∀ r, r ∈ reviews_df d → rating r ∈ [1; 2; 3; 4; 5])
  ∧ (∀ c, c ∈ customers_df d → "010"%char ∉ list_ascii_of_string (address c)).
Proof.
  intros (_ & nc & np & no & nr & s' & _ & _ & _ & _ & Hg)%main_inr.
  apply generate_all_inr in Hg as (s1 & s2 & s3 & Gc & Gp & Go & Gr).
  apply generate_orders_values in Go as [Hos Hits]. split_and!; [|done..| |].
  - intros p Hp. by apply (generate_products_skus _ _ _ _ Gp).
  - intros r Hr. by apply (generate_reviews_refs _ _ _ _ _ _ Gr).
  - by eapply generate_customers_addresses.
Qed.

End Generator_claims.

(** ** The script on the example data *)

(** C4: the script on a quantity that reads as an infinity. [float("inf")] is
    an infinity, [int] of it raises [OverflowError], which [except ValueError]
    does not catch: the text is not retained, the load of order_items is
    abandoned and [ingest] raises. *)
Theorem infinite_quantity_aborts :
  coerce_int {[ "quantity" := PyStr "inf" ]} "quantity" = Raise OverflowError
  ∧ Ex.basket_inf_run.1 = Raise OverflowError
  ∧ tbl (w_db Ex.basket_inf_run.2) order_items = ∅
  ∧ w_trace Ex.basket_inf_run.2
    = [EvInsert customers 1; EvSkip products; EvInsert orders 1].
Proof. by vm_compute. Qed.

(** The coercion on the fields of the specification's example: "3.0" loads as
    the integer 3, "abc" is kept as text. *)
Example coercion_example :
  (cell order_items "quantity" 1 <$> tbl (w_db Ex.basket_run.2) order_items !! 1)
  = Some (VInt 3)
  ∧ (cell order_items "quantity" 2 <$> tbl (w_db Ex.basket_run.2) order_items !! 2)
    = Some (VText "abc").
Proof. by vm_compute. Qed.

(** The items 0.1 and 0.2 of order 1 add up to 0.30000000000000004 and its
    total is 0.3; the item 1.005 of order 2 gives the total 1.01. *)
Lemma total_reconciliation_witness :
  @sum_in_scan_order ref_numerics ∧ @round_to_cents ref_numerics
  ∧ ingest Ex.fractions None false false = (Ok tt, Ex.fractions_run.2)
  ∧ tbl (w_db Ex.fractions_run.2) orders !! 1 = Some (Ex.loaded_order 1 "0.3")
  ∧ tbl (w_db Ex.fractions_run.2) orders !! 2 = Some (Ex.loaded_order 2 "1.01")
  ∧ has_items (w_db Ex.fractions_run.2) 1
  ∧ omap as_real (line_totals (w_db Ex.fractions_run.2) 1)
    = [Ex.f64 "0.1"; Ex.f64 "0.2"]
  ∧ float_sum [Ex.f64 "0.1"; Ex.f64 "0.2"] = Ex.f64 "0.30000000000000004"
  ∧ let xs := omap as_real (line_totals (w_db Ex.fractions_run.2) 1) in
    (xs = [] → cell orders "total" 1 (Ex.loaded_order 1 "0.3") = VNull)
    ∧ (xs ≠ [] →
         ∃ t, rounded2 (float_sum xs) t
              ∧ cell orders "total" 1 (Ex.loaded_order 1 "0.3") = mk_real t).
Proof.
  assert (H1 : ingest Ex.fractions None false false = (Ok tt, Ex.fractions_run.2))
    by (vm_compute; reflexivity).
  assert (H2 : tbl (w_db Ex.fractions_run.2) orders !! 1
               = Some (Ex.loaded_order 1 "0.3")) by (vm_compute; reflexivity).
  assert (H3 : has_items (w_db Ex.fractions_run.2) 1).
  { exists 1, (default [] (tbl (w_db Ex.fractions_run.2) order_items !! 1)).
    split; vm_compute; reflexivity. }
  split_and!;
    [exact ref_sum_in_scan_order|exact ref_round_to_cents|exact H1|exact H2|
     vm_compute; reflexivity|exact H3|vm_compute; reflexivity|
     vm_compute; reflexivity|].
  exact (total_reconciliation _ _ _ _ _ _ _ ref_sum_in_scan_order
           ref_round_to_cents H1 H2 H3).
Defined.

Lemma orders_without_items_keep_row_witness :
  ingest Ex.no_items None false false = (Ok tt, Ex.no_items_run.2)
  ∧ loaded Ex.no_items orders = Ok [Ex.loaded_order 1 "10.00"]
  ∧ final_row orders 1 [Ex.loaded_order 1 "10.00"] = Some (Ex.loaded_order 1 "10.00")
  ∧ ¬ has_items (w_db Ex.no_items_run.2) 1
  ∧ tbl (w_db Ex.no_items_run.2) orders !! 1 = Some (Ex.loaded_order 1 "10.00").
Proof.
  assert (H1 : ingest Ex.no_items None false false = (Ok tt, Ex.no_items_run.2))
    by (vm_compute; reflexivity).
  assert (H2 : loaded Ex.no_items orders = Ok [Ex.loaded_order 1 "10.00"])
    by (vm_compute; reflexivity).
  assert (H3 : final_row orders 1 [Ex.loaded_order 1 "10.00"]
               = Some (Ex.loaded_order 1 "10.00")) by (vm_compute; reflexivity).
  assert (H4 : ¬ has_items (w_db Ex.no_items_run.2) 1).
  { intros (ik & ir & Hl & _).
    assert (E : tbl (w_db Ex.no_items_run.2) order_items = ∅)
      by (vm_compute; reflexivity).
    rewrite E, lookup_empty in Hl. discriminate. }
  split_and!; [exact H1|exact H2|exact H3|exact H4|].
  exact (orders_without_items_keep_row _ _ _ _ _ _ _ _ H1 H2 H3 H4).
Defined.

(** C2, as stated, fails on a store that holds items of an earlier run: order
    1 is in orders.csv with total 10.00, there is no order_items.csv, and
    after the run the order's total is the 3.75 of the stale items. *)
Lemma stale_items_change_total :
  Ex.no_items order_items = None
  ∧ loaded Ex.no_items orders = Ok [Ex.loaded_order 1 "10.00"]
  ∧ Ex.no_items_stale_run.1 = Ok tt
  ∧ tbl (w_db Ex.no_items_stale_run.2) orders !! 1 = Some (Ex.loaded_order 1 "3.75")
  ∧ Ex.loaded_order 1 "3.75" ≠ Ex.loaded_order 1 "10.00".
Proof. split_and!; by vm_compute. Qed.

Lemma shop_keyed : keyed Ex.shop.
Proof.
  intros t l r Hl Hr.
  destruct t; vm_compute in Hl; injection Hl as <-;
    repeat (apply elem_of_cons in Hr as [->|Hr]);
    try (by apply elem_of_nil in Hr); by vm_compute.
Defined.

Lemma shop_unique_by_key : unique_by_key Ex.shop.
Proof.
  intros t l r1 r2 Hl Hr1 Hr2.
  destruct t; vm_compute in Hl; injection Hl as <-;
    repeat (apply elem_of_cons in Hr1 as [->|Hr1]);
    try (by apply elem_of_nil in Hr1);
    repeat (apply elem_of_cons in Hr2 as [->|Hr2]);
    try (by apply elem_of_nil in Hr2); by vm_compute.
Defined.

Lemma reingest_idempotent_witness :
  keyed Ex.shop ∧ unique_by_key Ex.shop
  ∧ w_db Ex.shop_again.2 = w_db Ex.shop_run.2
  ∧ Ex.shop_again.1 = Ex.shop_run.1.
Proof.
  split; [exact shop_keyed|]. split; [exact shop_unique_by_key|]. split.
  - exact (proj1 (reingest_idempotent Ex.shop None false true shop_keyed)).
  - exact (proj2 (reingest_idempotent Ex.shop None false true shop_keyed)
             shop_unique_by_key).
Defined.

(** Without the hypothesis on emails the second run can raise where the first
    returned, the tables staying as they were: the first customer, rewritten,
    takes the email of the second, whose row REPLACE deletes although an order
    references it. *)
Example shared_email_second_run_raises :
  Ex.shared_email_run.1 = Ok tt
  ∧ Ex.shared_email_again.1
    = Raise (IntegrityError "FOREIGN KEY constraint failed")
  ∧ w_db Ex.shared_email_again.2 = w_db Ex.shared_email_run.2.
Proof. split_and!; by vm_compute. Qed.

(** C3, as stated, fails on a customers.csv without the customer_id column:
    each run gives its row a new rowid, one row after the first run, two after
    the second. *)
Lemma reingest_adds_rows :
  Ex.anonymous_run.1 = Ok tt ∧ Ex.anonymous_again.1 = Ok tt
  ∧ size (tbl (w_db Ex.anonymous_run.2) customers) = 1%nat
  ∧ size (tbl (w_db Ex.anonymous_again.2) customers) = 2%nat.
Proof. split_and!; by vm_compute. Qed.

Lemma missing_file_is_skipped_witness :
  (Ex.shop reviews = None ∨ Ex.shop reviews = Some [])
  ∧ (∀ w, load_table Ex.shop reviews w
          = (Ok tt, World (w_db w) (w_ltv w) (w_trace w ++ [EvSkip reviews])))
  ∧ ∀ db_file replace write_ltv,
      let run := ingest Ex.shop db_file replace write_ltv in
      let rest := loads_db Ex.shop (filter (λ t', t' ≠ reviews) paths)
                    (w_db (start db_file replace)) in
      run.1 = rest.1
      ∧ (rest.1 = Ok tt → w_db run.2 = update_totals rest.2).
Proof.
  assert (H1 : Ex.shop reviews = None ∨ Ex.shop reviews = Some [])
    by (left; reflexivity).
  split; [exact H1|]. exact (missing_file_is_skipped Ex.shop reviews H1).
Defined.

(** C5, as stated, fails when the missing file is the one of a referenced
    table: without customers.csv the load of orders.csv into an empty store
    violates the foreign key and [ingest] raises. *)
Lemma missing_parent_file_aborts :
  Ex.orphan_orders customers = None
  ∧ Ex.orphan_run.1 = Raise (IntegrityError "FOREIGN KEY constraint failed")
  ∧ w_db Ex.orphan_run.2 = empty_store.
Proof. split_and!; by vm_compute. Qed.

Lemma ltv_one_row_per_customer_witness :
  ingest Ex.shop None false true = (Ok tt, Ex.shop_run.2)
  ∧ ∃ rows, w_ltv Ex.shop_run.2 = Some (ltv_headers, rows)
    ∧ (λ r, default VNull (r !! 0%nat)) <$> rows
      ≡ₚ VInt <$> (map_to_list (tbl (w_db Ex.shop_run.2) customers)).*1
    ∧ ∀ k c, tbl (w_db Ex.shop_run.2) customers !! k = Some c →
        completed_orders (w_db Ex.shop_run.2) k = [] →
        [VInt k; cell customers "name" k c; VInt 0; VInt 0; VInt 0; VNull] ∈ rows.
Proof.
  assert (H1 : ingest Ex.shop None false true = (Ok tt, Ex.shop_run.2))
    by (vm_compute; reflexivity).
  split; [exact H1|]. exact (ltv_one_row_per_customer _ _ _ _ H1).
Defined.

(** The example of the specification: two completed orders of 30.00 and 20.00
    and a cancelled one of 100.00 give 50.00, 2 and 25.00. And an average
    that has to be rounded: completed orders of 10.00, 10.00 and 0.01 give
    20.01, 3 and 6.67, the quotient being 6.670000000000001. *)
Lemma ltv_completed_orders_only_witness :
  @sum_in_scan_order ref_numerics ∧ @round_to_cents ref_numerics
  ∧ ingest Ex.shop None false true = (Ok tt, Ex.shop_run.2)
  ∧ w_ltv Ex.shop_run.2
    = Some (ltv_headers,
            [ [VInt 1; VText "Ann"; Ex.real "50.00"; VInt 2; Ex.real "25.00";
               VText "2024-02-20"];
              [VInt 2; VText "Bob"; VInt 0; VInt 0; VInt 0; VNull] ])
  ∧ ingest Ex.thirds None false true = (Ok tt, Ex.thirds_run.2)
  ∧ tbl (w_db Ex.thirds_run.2) customers !! 1
    = Some (Ex.stored_customer 1 "Ann" "ann@example.org")
  ∧ w_ltv Ex.thirds_run.2
    = Some (ltv_headers,
            [ [VInt 1; VText "Ann"; Ex.real "20.01"; VInt 3; Ex.real "6.67";
               VText "2024-03-05"] ])
  ∧ f64_div (Ex.f64 "20.01") (f64_of_Z 3) = Ex.f64 "6.670000000000001"
  ∧ let os := completed_orders (w_db Ex.thirds_run.2) 1 in
    let xs := omap as_real ((λ o, cell orders "total" o.1 o.2) <$> os) in
    let n := Z.of_nat (length os) in
    (∀ ok o, (ok, o) ∈ os ↔
       tbl (w_db Ex.thirds_run.2) orders !! ok = Some o
       ∧ sql_eq (cell orders "customer_id" ok o) (VInt 1) = true
       ∧ sql_eq (cell orders "status" ok o) (VText "completed") = true)
    ∧ ∃ rows name spend avg last,
        w_ltv Ex.thirds_run.2 = Some (ltv_headers, rows)
        ∧ [VInt 1; name; spend; VInt n; avg; last] ∈ rows
        ∧ spend = coalesce (sum_value xs) (VInt 0)
        ∧ (n = 0 → avg = VInt 0)
        ∧ (n ≠ 0 → sum_value xs = VNull → avg = VNull)
        ∧ (n ≠ 0 → ∀ S, sum_value xs = VReal S →
             ∃ t, rounded2 (f64_div S (f64_of_Z n)) t ∧ avg = mk_real t).
Proof.
  assert (H1 : ingest Ex.thirds None false true = (Ok tt, Ex.thirds_run.2))
    by (vm_compute; reflexivity).
  assert (H2 : tbl (w_db Ex.thirds_run.2) customers !! 1
               = Some (Ex.stored_customer 1 "Ann" "ann@example.org"))
    by (vm_compute; reflexivity).
  split_and!;
    [exact ref_sum_in_scan_order|exact ref_round_to_cents|
     vm_compute; reflexivity|vm_compute; reflexivity|exact H1|exact H2|
     vm_compute; reflexivity|vm_compute; reflexivity|].
  exact (ltv_completed_orders_only _ _ _ _ _ _ ref_sum_in_scan_order
           ref_round_to_cents H1 H2).
Defined.

Lemma recompute_once_after_loads_witness :
  ingest Ex.shop None false true = (Ok tt, Ex.shop_run.2)
  ∧ w_trace Ex.shop_run.2
    = [EvInsert customers 2; EvSkip products; EvInsert orders 3;
       EvSkip order_items; EvSkip reviews; EvUpdateTotals; EvWriteLtv]
  ∧ ∃ loads, Forall2 load_event paths loads
             ∧ w_trace Ex.shop_run.2 = loads ++ [EvUpdateTotals] ++ [EvWriteLtv].
Proof.
  assert (H1 : ingest Ex.shop None false true = (Ok tt, Ex.shop_run.2))
    by (vm_compute; reflexivity).
  split; [exact H1|]. split; [vm_compute; reflexivity|].
  exact (recompute_once_after_loads _ _ _ _ _ H1).
Defined.

(** C9, as stated, fails on a run that a load aborts: the customer id "abc" is
    rejected by the INTEGER PRIMARY KEY, [ingest] raises and the recomputation
    is never executed. *)
Lemma aborted_run_never_recomputes :
  Ex.bad_id_run.1 = Raise (IntegrityError "datatype mismatch")
  ∧ w_trace Ex.bad_id_run.2 = []
  ∧ EvUpdateTotals ∉ w_trace Ex.bad_id_run.2.
Proof.
  split_and!; [by vm_compute..|].
  assert (w_trace Ex.bad_id_run.2 = []) as -> by by vm_compute.
  apply not_elem_of_nil.
Qed.

Lemma ltv_no_order_null_date_witness :
  ingest Ex.shop None false true = (Ok tt, Ex.shop_run.2)
  ∧ w_ltv Ex.shop_run.2 = Some (ltv_headers, ltv_query (w_db Ex.shop_run.2))
  ∧ [VInt 2; VText "Bob"; VInt 0; VInt 0; VInt 0; VNull]
    ∈ ltv_query (w_db Ex.shop_run.2)
  ∧ [VInt 2; VText "Bob"; VInt 0; VInt 0; VInt 0; VNull] !! 0%nat = Some (VInt 2)
  ∧ completed_orders (w_db Ex.shop_run.2) 2 = []
  ∧ ltv_headers !! 5%nat = Some "last_order_date"
  ∧ [VInt 2; VText "Bob"; VInt 0; VInt 0; VInt 0; VNull] !! 5%nat = Some VNull
  ∧ [VInt 2; VText "Bob"; VInt 0; VInt 0; VInt 0; VNull] !! 2%nat = Some (VInt 0)
  ∧ [VInt 2; VText "Bob"; VInt 0; VInt 0; VInt 0; VNull] !! 3%nat = Some (VInt 0)
  ∧ [VInt 2; VText "Bob"; VInt 0; VInt 0; VInt 0; VNull] !! 4%nat = Some (VInt 0).
Proof.
  assert (H1 : ingest Ex.shop None false true = (Ok tt, Ex.shop_run.2))
    by (vm_compute; reflexivity).
  assert (H2 : w_ltv Ex.shop_run.2 = Some (ltv_headers, ltv_query (w_db Ex.shop_run.2)))
    by (vm_compute; reflexivity).
  assert (H3 : [VInt 2; VText "Bob"; VInt 0; VInt 0; VInt 0; VNull]
               ∈ ltv_query (w_db Ex.shop_run.2)).
  { assert (ltv_query (w_db Ex.shop_run.2)
            = [ [VInt 1; VText "Ann"; Ex.real "50.00"; VInt 2; Ex.real "25.00";
                 VText "2024-02-20"];
                [VInt 2; VText "Bob"; VInt 0; VInt 0; VInt 0; VNull] ]) as ->
      by (vm_compute; reflexivity).
    right. left. }
  assert (H4 : [VInt 2; VText "Bob"; VInt 0; VInt 0; VInt 0; VNull] !! 0%nat
               = Some (VInt 2)) by reflexivity.
  assert (H5 : completed_orders (w_db Ex.shop_run.2) 2 = [])
    by (vm_compute; reflexivity).
  split; [exact H1|]. split; [exact H2|]. split; [exact H3|].
  split; [exact H4|]. split; [exact H5|].
  exact (ltv_no_order_null_date _ _ _ _ _ _ _ H1 H2 H3 H4 H5).
Defined.

(** ** The further properties on the example data *)

Lemma ltv_rows_descend_by_spend_witness :
  ingest Ex.market None false true = (Ok tt, Ex.market_run.2)
  ∧ w_ltv Ex.market_run.2
    = Some (ltv_headers,
            [ [VInt 2; VText "Bob"; Ex.real "55.00"; VInt 2; Ex.real "27.50";
               VText "2024-03-01"];
              [VInt 1; VText "Ann"; Ex.real "10.00"; VInt 1; Ex.real "10.00";
               VText "2024-01-10"];
              [VInt 3; VText "Cy"; VInt 0; VInt 0; VInt 0; VNull] ])
  ∧ ∃ rows, w_ltv Ex.market_run.2 = Some (ltv_headers, rows)
    ∧ ltv_headers !! 2%nat = Some "lifetime_spend"
    ∧ (∀ r, r ∈ rows → ∃ x, classify (default VNull (r !! 2%nat)) = CNum x)
    ∧ ∀ i j r1 r2, (i < j)%nat → rows !! i = Some r1 → rows !! j = Some r2 →
        sort_compare (default VNull (r1 !! 2%nat)) (default VNull (r2 !! 2%nat)) ≠ Lt.
Proof.
  assert (H1 : ingest Ex.market None false true = (Ok tt, Ex.market_run.2))
    by (vm_compute; reflexivity).
  split; [exact H1|]. split; [vm_compute; reflexivity|].
  exact (ltv_rows_descend_by_spend _ _ _ _ H1).
Defined.

Lemma ltv_last_order_date_is_latest_witness :
  ingest Ex.market None false true = (Ok tt, Ex.market_run.2)
  ∧ tbl (w_db Ex.market_run.2) customers !! 2
    = Some (Ex.stored_customer 2 "Bob" "bob@example.org")
  ∧ (λ o : Z * row, cell orders "order_date" o.1 o.2)
      <$> completed_orders (w_db Ex.market_run.2) 2
    = [VText "2024-03-01"; VText "2024-02-20"]
  ∧ let dates := (λ o, cell orders "order_date" o.1 o.2)
                   <$> completed_orders (w_db Ex.market_run.2) 2 in
    ∃ rows r last,
      w_ltv Ex.market_run.2 = Some (ltv_headers, rows) ∧ r ∈ rows
      ∧ r !! 0%nat = Some (VInt 2) ∧ r !! 5%nat = Some last
      ∧ ltv_headers !! 5%nat = Some "last_order_date"
      ∧ (∀ d, d ∈ dates → sort_compare d last ≠ Gt)
      ∧ ((∃ d, d ∈ dates ∧ is_null d = false) → last ∈ dates ∧ is_null last = false)
      ∧ ((∀ d, d ∈ dates → is_null d = true) → last = VNull).
Proof.
  assert (H1 : ingest Ex.market None false true = (Ok tt, Ex.market_run.2))
    by (vm_compute; reflexivity).
  assert (H2 : tbl (w_db Ex.market_run.2) customers !! 2
               = Some (Ex.stored_customer 2 "Bob" "bob@example.org"))
    by (vm_compute; reflexivity).
  split; [exact H1|]. split; [exact H2|]. split; [vm_compute; reflexivity|].
  exact (ltv_last_order_date_is_latest _ _ _ _ _ _ H1 H2).
Defined.

Lemma failed_load_is_rolled_back_witness :
  ingest Ex.basket_inf None false false
  = (Raise OverflowError, Ex.basket_inf_run.2)
  ∧ ∃ pre t post evs,
      paths = pre ++ t :: post
      ∧ loads_db Ex.basket_inf pre (w_db (start None false))
        = (Ok tt, w_db Ex.basket_inf_run.2)
      ∧ load_db Ex.basket_inf t (w_db Ex.basket_inf_run.2) = Raise OverflowError
      ∧ (∀ t', t' ∈ t :: post →
           tbl (w_db Ex.basket_inf_run.2) t' = tbl (w_db (start None false)) t')
      ∧ Forall2 load_event pre evs ∧ w_trace Ex.basket_inf_run.2 = evs
      ∧ w_ltv Ex.basket_inf_run.2 = None.
Proof.
  assert (H1 : ingest Ex.basket_inf None false false
               = (Raise OverflowError, Ex.basket_inf_run.2))
    by (vm_compute; reflexivity).
  split; [exact H1|]. exact (failed_load_is_rolled_back _ _ _ _ _ _ H1).
Defined.

(** The rows of a concrete list, one by one. *)
Ltac each_row H :=
  match type of H with
  | _ ∈ ?l => let l' := eval vm_compute in l in change l with l' in H
  end;
  repeat (apply elem_of_cons in H as [->|H]);
  try (by apply elem_of_nil in H).

Lemma restock_items_keyed : rows_keyed order_items (Ex.rows_of Ex.restock order_items).
Proof. intros r Hr. each_row Hr; eexists; vm_compute; reflexivity. Defined.

(** Item 1 is not in the file and stays, item 2 is in the file twice and
    holds the last of its rows, item 3 is new. *)
Lemma upsert_last_row_wins_witness :
  ingest Ex.restock (Some Ex.stale) false false = (Ok tt, Ex.restock_run.2)
  ∧ order_items ∈ [products; order_items; reviews]
  ∧ loaded Ex.restock order_items = Ok (Ex.rows_of Ex.restock order_items)
  ∧ rows_keyed order_items (Ex.rows_of Ex.restock order_items)
  ∧ tbl (w_db Ex.restock_run.2) order_items
    = {[ 1 := Ex.stored_item 1 3 "0.5" "2.5";
         2 := Ex.stored_item 2 4 "1.25" "5.00";
         3 := Ex.stored_item 3 1 "4.00" "4.00" ]}
  ∧ (tbl (w_db Ex.restock_run.2) order_items !! 1
     = match final_row order_items 1 (Ex.rows_of Ex.restock order_items) with
       | Some r => Some r
       | None => tbl (w_db (start (Some Ex.stale) false)) order_items !! 1
       end)
  ∧ (tbl (w_db Ex.restock_run.2) order_items !! 2
     = match final_row order_items 2 (Ex.rows_of Ex.restock order_items) with
       | Some r => Some r
       | None => tbl (w_db (start (Some Ex.stale) false)) order_items !! 2
       end).
Proof.
  assert (H1 : ingest Ex.restock (Some Ex.stale) false false
               = (Ok tt, Ex.restock_run.2)) by (vm_compute; reflexivity).
  assert (H2 : order_items ∈ [products; order_items; reviews])
    by (right; left).
  assert (H3 : loaded Ex.restock order_items
               = Ok (Ex.rows_of Ex.restock order_items))
    by (vm_compute; reflexivity).
  split; [exact H1|]. split; [exact H2|]. split; [exact H3|].
  split; [exact restock_items_keyed|]. split; [vm_compute; reflexivity|]. split.
  - exact (upsert_last_row_wins _ _ _ _ _ _ _ 1 H1 H2 H3 restock_items_keyed).
  - exact (upsert_last_row_wins _ _ _ _ _ _ _ 2 H1 H2 H3 restock_items_keyed).
Defined.

Lemma shop_customers_keyed : rows_keyed customers (Ex.rows_of Ex.shop customers).
Proof. intros r Hr. each_row Hr; eexists; vm_compute; reflexivity. Defined.

Lemma shop_customers_unique :
  rows_unique_by_key customers (Ex.rows_of Ex.shop customers).
Proof. intros r1 r2 H1 H2. each_row H1; each_row H2; by vm_compute. Defined.

Lemma shop_customers_no_clash k0 x r :
  tbl (w_db (start (Some (w_db Ex.shop_run.2)) false)) customers !! k0 = Some x →
  r ∈ Ex.rows_of Ex.shop customers →
  unique_clash customers r x = true → key_of customers r = Some k0.
Proof.
  intros Hx%elem_of_map_to_list Hr.
  match type of Hx with
  | _ ∈ ?l => let l' := eval vm_compute in l in change l with l' in Hx
  end.
  repeat (apply elem_of_cons in Hx as [[= -> ->]|Hx]);
    try (by apply elem_of_nil in Hx); each_row Hr; by vm_compute.
Defined.

(** Reloading the customers of [shop] over the store that holds them. *)
Lemma customers_last_row_wins_witness :
  ingest Ex.shop (Some (w_db Ex.shop_run.2)) false false
  = (Ok tt, Ex.shop_reload_run.2)
  ∧ loaded Ex.shop customers = Ok (Ex.rows_of Ex.shop customers)
  ∧ rows_keyed customers (Ex.rows_of Ex.shop customers)
  ∧ rows_unique_by_key customers (Ex.rows_of Ex.shop customers)
  ∧ tbl (w_db Ex.shop_reload_run.2) customers !! 2
    = match final_row customers 2 (Ex.rows_of Ex.shop customers) with
      | Some r => Some r
      | None => tbl (w_db (start (Some (w_db Ex.shop_run.2)) false)) customers !! 2
      end.
Proof.
  assert (H1 : ingest Ex.shop (Some (w_db Ex.shop_run.2)) false false
               = (Ok tt, Ex.shop_reload_run.2)) by (vm_compute; reflexivity).
  assert (H2 : loaded Ex.shop customers = Ok (Ex.rows_of Ex.shop customers))
    by (vm_compute; reflexivity).
  split; [exact H1|]. split; [exact H2|].
  split; [exact shop_customers_keyed|]. split; [exact shop_customers_unique|].
  exact (customers_last_row_wins _ _ _ _ _ _ 2 H1 H2 shop_customers_keyed
           shop_customers_unique shop_customers_no_clash).
Defined.

Lemma basket_orders_keyed : rows_keyed orders (Ex.rows_of Ex.basket orders).
Proof. intros r Hr. each_row Hr; eexists; vm_compute; reflexivity. Defined.

(** The order of [basket], whose total the recomputation changes from 99.00
    to 3.75: the other columns are as the file has them. *)
Lemma orders_change_only_in_total_witness :
  ingest Ex.basket None false false = (Ok tt, Ex.basket_run.2)
  ∧ loaded Ex.basket orders = Ok (Ex.rows_of Ex.basket orders)
  ∧ rows_keyed orders (Ex.rows_of Ex.basket orders)
  ∧ final_row orders 1 (Ex.rows_of Ex.basket orders)
    = Some (Ex.loaded_order 1 "99.00")
  ∧ tbl (w_db Ex.basket_run.2) orders !! 1 = Some (Ex.loaded_order 1 "3.75")
  ∧ match (match final_row orders 1 (Ex.rows_of Ex.basket orders) with
           | Some r => Some r
           | None => tbl (w_db (start None false)) orders !! 1
           end) with
    | Some r =>
        ∃ r', tbl (w_db Ex.basket_run.2) orders !! 1 = Some r'
              ∧ ∀ c, c ≠ "total" → cell orders c 1 r' = cell orders c 1 r
    | None => tbl (w_db Ex.basket_run.2) orders !! 1 = None
    end.
Proof.
  assert (H1 : ingest Ex.basket None false false = (Ok tt, Ex.basket_run.2))
    by (vm_compute; reflexivity).
  assert (H2 : loaded Ex.basket orders = Ok (Ex.rows_of Ex.basket orders))
    by (vm_compute; reflexivity).
  split; [exact H1|]. split; [exact H2|]. split; [exact basket_orders_keyed|].
  split; [vm_compute; reflexivity|]. split; [vm_compute; reflexivity|].
  exact (orders_change_only_in_total _ _ _ _ _ _ 1 H1 H2 basket_orders_keyed).
Defined.

(** The items an earlier run left stay when a run finds no order_items.csv. *)
Lemma rows_are_never_removed_witness :
  order_items ≠ customers
  ∧ is_Some (tbl (w_db (start (Some Ex.stale) false)) order_items !! 1)
  ∧ is_Some (tbl (w_db (ingest Ex.no_items (Some Ex.stale) false false).2)
               order_items !! 1).
Proof.
  assert (H1 : order_items ≠ customers) by discriminate.
  assert (H2 : is_Some (tbl (w_db (start (Some Ex.stale) false)) order_items !! 1))
    by (eexists; vm_compute; reflexivity).
  split; [exact H1|]. split; [exact H2|].
  exact (rows_are_never_removed Ex.no_items (Some Ex.stale) false false
           order_items 1 H1 H2).
Defined.

(** A customer, on the contrary, is removed by a row of another id that
    takes its email. *)
Example customer_removed_by_namesake :
  Ex.namesake_run.1 = Ok tt
  ∧ tbl (w_db Ex.lone_customer_run.2) customers
    = {[ 1 := Ex.stored_customer 1 "Ann" "ann@example.org" ]}
  ∧ tbl (w_db Ex.namesake_run.2) customers
    = {[ 2 := Ex.stored_customer 2 "Anna" "ann@example.org" ]}.
Proof. split_and!; by vm_compute. Qed.

Lemma stale_fk_consistent : fk_consistent (w_db (start (Some Ex.stale) false)).
Proof. apply fk_check_consistent. vm_compute. reflexivity. Defined.

Lemma foreign_keys_are_kept_witness :
  fk_consistent (w_db (start (Some Ex.stale) false))
  ∧ fk_consistent (w_db (ingest Ex.restock (Some Ex.stale) false false).2).
Proof.
  split; [exact stale_fk_consistent|].
  exact (foreign_keys_are_kept Ex.restock (Some Ex.stale) false false
           stale_fk_consistent).
Defined.

Lemma lone_customer_emails_unique :
  emails_unique (w_db (start (Some (w_db Ex.lone_customer_run.2)) false)).
Proof. apply emails_check_unique. vm_compute. reflexivity. Defined.

Lemma emails_stay_unique_witness :
  emails_unique (w_db (start (Some (w_db Ex.lone_customer_run.2)) false))
  ∧ emails_unique
      (w_db (ingest Ex.namesake (Some (w_db Ex.lone_customer_run.2)) false false).2).
Proof.
  split; [exact lone_customer_emails_unique|].
  exact (emails_stay_unique Ex.namesake (Some (w_db Ex.lone_customer_run.2))
           false false lone_customer_emails_unique).
Defined.

(** The lines of the order_items.csv of [basket] after the conversions: the
    quantity "3.0" is the integer 3, the quantity "abc" is kept. *)
Lemma conversion_field_by_field_witness :
  coerce_rows (read_csv_rows Ex.basket_items) = Ok Ex.basket_items_converted
  ∧ Ex.basket_items_converted
    = (λ r : csv_row, map_imap (λ c o, Some (converted c o)) r)
        <$> Ex.basket_items.
Proof.
  assert (H1 : coerce_rows (read_csv_rows Ex.basket_items)
               = Ok Ex.basket_items_converted) by (vm_compute; reflexivity).
  split; [exact H1|]. exact (conversion_field_by_field _ _ H1).
Defined.

Lemma loaded_line_by_line_witness :
  Ex.basket order_items = Some Ex.basket_items
  ∧ loaded Ex.basket order_items = Ok (Ex.rows_of Ex.basket order_items)
  ∧ (loaded Ex.basket order_items = Ok (Ex.rows_of Ex.basket order_items)
     ↔ (∀ r, r ∈ Ex.basket_items → ¬ infinite_int_field r)
       ∧ Forall2 (λ r row, stored_row (SQL_CREATE order_items) r = Ok row)
           Ex.basket_items (Ex.rows_of Ex.basket order_items)).
Proof.
  assert (H1 : Ex.basket order_items = Some Ex.basket_items) by reflexivity.
  split; [exact H1|]. split; [vm_compute; reflexivity|].
  exact (loaded_line_by_line Ex.basket order_items Ex.basket_items
           (Ex.rows_of Ex.basket order_items) H1).
Defined.

(** A customers.csv without the customer_id column: the INSERT gets NULL for
    it, and the customer is stored under the rowid 1. *)
Lemma absent_field_is_null_witness :
  Ex.anonymous customers = Some [Ex.line [("name", "Bob"); ("address", "1 Main St")]]
  ∧ loaded Ex.anonymous customers = Ok [Ex.anonymous_row]
  ∧ "customer_id" ∈ col_map customers
  ∧ Ex.line [("name", "Bob"); ("address", "1 Main St")] !! "customer_id" = None
  ∧ tbl (w_db Ex.anonymous_run.2) customers
    = {[ 1 := set_field "customer_id" (VInt 1) Ex.anonymous_row ]}
  ∧ field "customer_id" Ex.anonymous_row = VNull
  ∧ ∀ db db', write_row db customers Ex.anonymous_row = Ok db' →
      ∃ k r', tbl db' customers !! k = Some r'
        ∧ field (pk_col customers) r' = VInt k
        ∧ (∀ c', c' ≠ pk_col customers → field c' r' = field c' Ex.anonymous_row)
        ∧ ("customer_id" ≠ pk_col customers → field "customer_id" r' = VNull)
        ∧ ("customer_id" = pk_col customers → tbl db customers !! k = None).
Proof.
  assert (H1 : Ex.anonymous customers
               = Some [Ex.line [("name", "Bob"); ("address", "1 Main St")]])
    by reflexivity.
  assert (H2 : loaded Ex.anonymous customers = Ok [Ex.anonymous_row])
    by (vm_compute; reflexivity).
  assert (H4 : "customer_id" ∈ col_map customers) by left.
  assert (H5 : Ex.line [("name", "Bob"); ("address", "1 Main St")] !! "customer_id"
               = None) by (vm_compute; reflexivity).
  split_and!; [exact H1|exact H2|exact H4|exact H5|vm_compute; reflexivity|..];
    apply (absent_field_is_null Ex.anonymous customers _ _ 0%nat _ _ "customer_id"
             H1 H2 eq_refl eq_refl H4 (or_introl H5)).
Defined.

(** The customer id "abc" of [bad_id] is stored as text: the load raises. *)
Lemma non_integer_key_aborts_witness :
  loaded Ex.bad_id customers = Ok (Ex.rows_of Ex.bad_id customers)
  ∧ Ex.stored_customer_text "abc" "Ann" "ann@example.org"
    ∈ Ex.rows_of Ex.bad_id customers
  ∧ key_of customers (Ex.stored_customer_text "abc" "Ann" "ann@example.org") = None
  ∧ field (pk_col customers) (Ex.stored_customer_text "abc" "Ann" "ann@example.org")
    ≠ VNull
  ∧ (∀ db, ∃ msg, load_db Ex.bad_id customers db = Raise (IntegrityError msg))
  ∧ ∃ e, (ingest Ex.bad_id None false true).1 = Raise e.
Proof.
  assert (H1 : loaded Ex.bad_id customers = Ok (Ex.rows_of Ex.bad_id customers))
    by (vm_compute; reflexivity).
  assert (H2 : Ex.stored_customer_text "abc" "Ann" "ann@example.org"
               ∈ Ex.rows_of Ex.bad_id customers).
  { assert (Ex.rows_of Ex.bad_id customers
            = [Ex.stored_customer_text "abc" "Ann" "ann@example.org"]) as ->
      by (vm_compute; reflexivity).
    left. }
  assert (H3 : key_of customers
                 (Ex.stored_customer_text "abc" "Ann" "ann@example.org") = None)
    by (vm_compute; reflexivity).
  assert (H4 : field (pk_col customers)
                 (Ex.stored_customer_text "abc" "Ann" "ann@example.org") ≠ VNull)
    by (vm_compute; discriminate).
  split; [exact H1|]. split; [exact H2|]. split; [exact H3|]. split; [exact H4|].
  exact (non_integer_key_aborts Ex.bad_id None false true customers _ _
           H1 H2 H3 H4).
Defined.

Lemma basket_loaded t : loaded Ex.basket t = Ok (Ex.rows_of Ex.basket t).
Proof. destruct t; vm_compute; reflexivity. Defined.

Lemma basket_keys t r :
  r ∈ Ex.rows_of Ex.basket t →
  field (pk_col t) r = VNull ∨ is_Some (key_of t r).
Proof.
  intros Hr. destruct t; each_row Hr; right; eexists; vm_compute; reflexivity.
Defined.

Lemma basket_customers_unique :
  rows_unique_by_key customers (Ex.rows_of Ex.basket customers).
Proof. intros r1 r2 H1 H2. each_row H1; each_row H2; by vm_compute. Defined.

Lemma basket_references t r c p :
  r ∈ Ex.rows_of Ex.basket t → (c, p) ∈ FOREIGN_KEY t →
  field c r = VNull
  ∨ ∃ q r', field c r = VInt q ∧ r' ∈ Ex.rows_of Ex.basket p
            ∧ key_of p r' = Some q.
Proof.
  intros Hr Hfk.
  destruct t; simpl in Hfk; rewrite ?elem_of_cons, ?elem_of_nil in Hfk;
    destruct_or?; simplify_eq; try done; each_row Hr;
    first [ left; vm_compute; reflexivity
          | right; eexists _, _; split; [reflexivity|];
            split;
            [ match goal with
              | |- _ ∈ ?l => let l' := eval vm_compute in l in change l with l'
              end; left
            | vm_compute; reflexivity ] ].
Defined.

(** The files of [basket] fit the schema: one customer, her order, its two
    items (without product). *)
Lemma consistent_files_are_loaded_witness :
  w_db (start None false) = empty_store
  ∧ (∀ t, loaded Ex.basket t = Ok (Ex.rows_of Ex.basket t))
  ∧ (∀ t r, r ∈ Ex.rows_of Ex.basket t →
       field (pk_col t) r = VNull ∨ is_Some (key_of t r))
  ∧ rows_unique_by_key customers (Ex.rows_of Ex.basket customers)
  ∧ (∀ t r c p, r ∈ Ex.rows_of Ex.basket t → (c, p) ∈ FOREIGN_KEY t →
       field c r = VNull
       ∨ ∃ q r', field c r = VInt q ∧ r' ∈ Ex.rows_of Ex.basket p
                 ∧ key_of p r' = Some q)
  ∧ (ingest Ex.basket None false true).1 = Ok tt.
Proof.
  split; [reflexivity|]. split; [exact basket_loaded|].
  split; [exact basket_keys|]. split; [exact basket_customers_unique|].
  split; [exact basket_references|].
  exact (consistent_files_are_loaded Ex.basket None false true
           (Ex.rows_of Ex.basket) eq_refl basket_loaded basket_keys
           basket_customers_unique basket_references).
Defined.

(** ** The generator on a source of draws *)

Lemma generated_keys_count_from_one_witness :
  @Gen.main (Ex.counter 1000) 42 Ex.scale_32 = inr Ex.generated
  ∧ length (Gen.items_df Ex.generated) = 235%nat
  ∧ ∃ n_customers n_products n_orders n_reviews,
      @Gen.scaled 500 Ex.scale_32 = inr n_customers
      ∧ @Gen.scaled 200 Ex.scale_32 = inr n_products
      ∧ @Gen.scaled 2500 Ex.scale_32 = inr n_orders
      ∧ @Gen.scaled 800 Ex.scale_32 = inr n_reviews
      ∧ Gen.customer_id <$> Gen.customers_df Ex.generated = seqZ 1 n_customers
      ∧ Gen.product_id <$> Gen.products_df Ex.generated = seqZ 1 n_products
      ∧ Gen.order_id <$> Gen.orders_df Ex.generated = seqZ 1 n_orders
      ∧ Gen.order_item_id <$> Gen.items_df Ex.generated
        = seqZ 1 (Z.of_nat (length (Gen.items_df Ex.generated)))
      ∧ Gen.review_id <$> Gen.reviews_df Ex.generated = seqZ 1 n_reviews.
Proof.
  split; [vm_compute; reflexivity|]. split; [vm_compute; reflexivity|].
  apply (generated_keys_count_from_one (H:=Ex.counter 1000) 42).
  vm_compute. reflexivity.
Defined.

Lemma generated_references_exist_witness :
  @Gen.main (Ex.counter 1000) 42 Ex.scale_32 = inr Ex.generated
  ∧ (∀ o, o ∈ Gen.orders_df Ex.generated →
       ∃ c, c ∈ Gen.customers_df Ex.generated
            ∧ Gen.customer_id c = Gen.o_customer_id o)
  ∧ (∀ it, it ∈ Gen.items_df Ex.generated →
       (∃ o, o ∈ Gen.orders_df Ex.generated ∧ Gen.order_id o = Gen.i_order_id it)
       ∧ ∃ p, p ∈ Gen.products_df Ex.generated
              ∧ Gen.product_id p = Gen.i_product_id it
              ∧ Gen.price p = Gen.unit_price it)
  ∧ (∀ r, r ∈ Gen.reviews_df Ex.generated →
       (∃ p, p ∈ Gen.products_df Ex.generated
             ∧ Gen.product_id p = Gen.r_product_id r)
       ∧ ∃ c, c ∈ Gen.customers_df Ex.generated
              ∧ Gen.customer_id c = Gen.r_customer_id r).
Proof.
  split; [vm_compute; reflexivity|].
  apply (generated_references_exist (H:=Ex.counter 1000) 42 Ex.scale_32).
  vm_compute. reflexivity.
Defined.

Lemma order_total_sums_its_lines_witness :
  @Gen.generate_orders_and_items (Ex.counter 1000) 3
    (Gen.customers_df Ex.generated) (Gen.products_df Ex.generated) 0%nat
  = inr Ex.three_orders
  ∧ Gen.order_id <$> Ex.three_orders.1.1 = [1; 2; 3]
  ∧ Ex.three_orders.1.2
    = concat ((λ o, Gen.lines_of o Ex.three_orders.1.2) <$> Ex.three_orders.1.1)
  ∧ ∀ o, o ∈ Ex.three_orders.1.1 →
      @Gen.order_block (Ex.counter 1000) (Gen.customers_df Ex.generated)
        (Gen.products_df Ex.generated) o (Gen.lines_of o Ex.three_orders.1.2).
Proof.
  split; [vm_compute; reflexivity|]. split; [vm_compute; reflexivity|].
  apply (order_total_sums_its_lines (H:=Ex.counter 1000) 3
           (Gen.customers_df Ex.generated) (Gen.products_df Ex.generated)
           0%nat Ex.three_orders.1.1 Ex.three_orders.1.2 Ex.three_orders.2).
  vm_compute. reflexivity.
Defined.

Lemma order_lists_a_product_once_witness :
  @Gen.main (Ex.counter 1000) 42 Ex.scale_32 = inr Ex.generated
  ∧ Gen.orders_df Ex.generated !! 1%nat = Some Ex.second_order
  ∧ Gen.i_product_id <$> Gen.lines_of Ex.second_order (Gen.items_df Ex.generated)
    = [5; 2; 1; 4; 3]
  ∧ NoDup (Gen.i_product_id
             <$> Gen.lines_of Ex.second_order (Gen.items_df Ex.generated)).
Proof.
  assert (H1 : @Gen.main (Ex.counter 1000) 42 Ex.scale_32 = inr Ex.generated)
    by (vm_compute; reflexivity).
  assert (H2 : Gen.orders_df Ex.generated !! 1%nat = Some Ex.second_order)
    by (vm_compute; reflexivity).
  split; [exact H1|]. split; [exact H2|]. split; [vm_compute; reflexivity|].
  apply (order_lists_a_product_once (H:=Ex.counter 1000) 42 Ex.scale_32 _ _ H1).
  by eapply list_elem_of_lookup_2.
Defined.

Lemma orders_are_generated_from_five_products_witness :
  Gen.customers_df Ex.generated ≠ []
  ∧ (5 ≤ length (Gen.products_df Ex.generated))%nat
  ∧ ∃ os its s',
      @Gen.generate_orders_and_items (Ex.counter 1000) 3
        (Gen.customers_df Ex.generated) (Gen.products_df Ex.generated) 0%nat
      = inr ((os, its), s').
Proof.
  assert (H1 : Gen.customers_df Ex.generated ≠ []) by (vm_compute; discriminate).
  assert (H2 : (5 ≤ length (Gen.products_df Ex.generated))%nat)
    by (vm_compute; lia).
  split; [exact H1|]. split; [exact H2|].
  exact (orders_are_generated_from_five_products (H:=Ex.counter 1000) 3 _ _
           0%nat H1 H2).
Defined.

Lemma main_fails_only_on_emails_witness :
  @Gen.main (Ex.counter 2) 42 Ex.scale_32 = inl Gen.UniquenessException
  ∧ ((∃ d, @Gen.main (Ex.counter 2) 42 Ex.scale_32 = inr d)
     ∨ @Gen.main (Ex.counter 2) 42 Ex.scale_32 = inl Gen.UniquenessException).
Proof.
  split; [vm_compute; reflexivity|].
  apply (main_fails_only_on_emails (H:=Ex.counter 2) 42 Ex.scale_32 15 6 78 25);
    first [lia | vm_compute; reflexivity].
Defined.

Lemma orders_without_customers_raise_witness :
  @Gen.scaled 500 Ex.scale_1024 = inr 0
  ∧ @Gen.scaled 2500 Ex.scale_1024 = inr 2
  ∧ @Gen.main (Ex.counter 1000) 42 Ex.scale_1024
    = inl (Gen.KeyError "customer_id").
Proof.
  split; [vm_compute; reflexivity|]. split; [vm_compute; reflexivity|].
  apply (orders_without_customers_raise (H:=Ex.counter 1000) 42 Ex.scale_1024
           0 0 2 0);
    first [lia | vm_compute; reflexivity].
Defined.

Lemma scale_without_rows_gives_empty_frames_witness :
  @Gen.scaled 500 (f64_of_Z (-2)) = inr (-1000)
  ∧ @Gen.main (Ex.counter 1000) 42 (f64_of_Z (-2)) = inr Ex.no_rows.
Proof.
  split; [vm_compute; reflexivity|].
  apply (scale_without_rows_gives_empty_frames (H:=Ex.counter 1000) 42
           (f64_of_Z (-2)) (-1000) (-400) (-5000) (-1600));
    first [lia | vm_compute; reflexivity].
Defined.

Lemma sku_names_the_product_witness :
  @Gen.generate_products (Ex.counter 1000) 3 0%nat = inr Ex.three_products
  ∧ Gen.sku <$> Ex.three_products.1 = ["SKU-000001"; "SKU-000002"; "SKU-000003"]
  ∧ (∀ p, p ∈ Ex.three_products.1 →
       Gen.sku p = "SKU-" +:+ Gen.format_06d (Gen.product_id p)
       ∧ Gen.sku_number (Gen.sku p) = Some (Gen.product_id p))
  ∧ NoDup (Gen.sku <$> Ex.three_products.1).
Proof.
  split; [vm_compute; reflexivity|]. split; [vm_compute; reflexivity|].
  apply (sku_names_the_product (H:=Ex.counter 1000) 3 0%nat
           Ex.three_products.1 Ex.three_products.2).
  vm_compute. reflexivity.
Defined.

Lemma generated_values_are_in_range_witness :
  @Gen.main (Ex.counter 1000) 42 Ex.scale_32 = inr Ex.generated
  ∧ (∀ p, p ∈ Gen.products_df Ex.generated → Gen.category p ∈ Gen.categories)
  ∧ (∀ o, o ∈ Gen.orders_df Ex.generated → Gen.status o ∈ Gen.statuses)
  ∧ (∀ it, it ∈ Gen.items_df Ex.generated → Gen.quantity it ∈ [1; 2; 3])
  ∧ (∀ r, r ∈ Gen.reviews_df Ex.generated → Gen.rating r ∈ [1; 2; 3; 4; 5])
  ∧ (∀ c, c ∈ Gen.customers_df Ex.generated →
       "010"%char ∉ list_ascii_of_string (Gen.address c)).
Proof.
  split; [vm_compute; reflexivity|].
  apply (generated_values_are_in_range (H:=Ex.counter 1000) 42 Ex.scale_32).
  vm_compute. reflexivity.
Defined.
